(** * A shallow embedding of the chess rules engine

    The development follows the three components of the program:
    [Board] (the 8x8 grid of optional pieces), [Rules] (attack detection,
    the legality filter and move generation) and [ChessGame] (the session
    that owns the board, the side to move, the last move and the castling
    rights).  Coordinates are C++ [int]s and are modelled as [Z]; the grid
    is a [std::array] of [std::array]s and is modelled as a vector of
    vectors of fixed size 8. *)

From Stdlib Require Import ZArith List Bool Lia Ascii.
From stdpp Require Import base tactics decidable option list fin vector.
Import ListNotations.

Local Open Scope Z_scope.

#[local] Set Warnings "-clear-no-such-hyp".

(* ================================================================== *)
(** ** Types.hpp : colours, piece types, squares, pieces               *)
(* ================================================================== *)

Definition kBoardSize : Z := 8.

Inductive Color : Set := White | Black.

Inductive PieceType : Set := Pawn | Knight | Bishop | Rook | Queen | King.

Record Square : Set := mkSquare { rank : Z; file : Z }.

Record Piece : Set := mkPiece { type : PieceType; color : Color }.

#[global] Instance Color_eq_dec : EqDecision Color.
Proof. solve_decision. Defined.

#[global] Instance PieceType_eq_dec : EqDecision PieceType.
Proof. solve_decision. Defined.

#[global] Instance Square_eq_dec : EqDecision Square.
Proof. solve_decision. Defined.

#[global] Instance Piece_eq_dec : EqDecision Piece.
Proof. solve_decision. Defined.

Definition opponent (c : Color) : Color :=
  match c with White => Black | Black => White end.

Definition isValidSquare (r f : Z) : bool :=
  (0 <=? r) && (r <? kBoardSize) && (0 <=? f) && (f <? kBoardSize).

Definition isValid (sq : Square) : bool :=
  (0 <=? rank sq) && (rank sq <? kBoardSize) &&
  (0 <=? file sq) && (file sq <? kBoardSize).

(* ================================================================== *)
(** ** Move.hpp                                                        *)
(* ================================================================== *)

Record Move : Set := mkMove {
  from : Square;
  to : Square;
  promotion : option PieceType;
  en_passant : bool;
  castling : bool
}.

#[global] Instance Move_eq_dec : EqDecision Move.
Proof. solve_decision. Defined.

(** A move written with designated initialisers [{.from = a, .to = b}]:
    the remaining members take their defaults. *)
Definition plainMove (a b : Square) : Move := mkMove a b None false false.

(** [Move::operator==] and the lambda of [makeMove] compare the two
    squares only. *)
Definition sameSquares (m other : Move) : bool :=
  bool_decide (from m = from other) && bool_decide (to m = to other).

(* ================================================================== *)
(** ** Board.hpp / Board.cpp                                           *)
(* ================================================================== *)

Definition kSize : nat := 8.

Abbreviation Row := (vec (option Piece) kSize).
Abbreviation Board := (vec Row kSize).

(** The array index denoted by an [int] coordinate.  Indexing the grid
    outside [0,8) violates the precondition of [Board::at]; the model
    makes such a read see an empty square and such a write do nothing. *)
Definition cell (z : Z) : option (fin kSize) :=
  match z with
  | 0 => Some 0%fin | 1 => Some 1%fin | 2 => Some 2%fin | 3 => Some 3%fin
  | 4 => Some 4%fin | 5 => Some 5%fin | 6 => Some 6%fin | 7 => Some 7%fin
  | _ => None
  end.

(** [Board::at], that is [grid_[sq.rank][sq.file]] read; [at] alone is a
    reserved word here. *)
Definition at_ (b : Board) (sq : Square) : option Piece :=
  match cell (rank sq), cell (file sq) with
  | Some i, Some j => (b !!! i) !!! j
  | _, _ => None
  end.

(** [grid_[sq.rank][sq.file] = p]. *)
Definition gridSet (b : Board) (sq : Square) (p : option Piece) : Board :=
  match cell (rank sq), cell (file sq) with
  | Some i, Some j => vinsert i (vinsert j p (b !!! i)) b
  | _, _ => b
  end.

Definition hasPieceAt (b : Board) (sq : Square) : bool :=
  isValid sq && bool_decide (is_Some (at_ b sq)).

Definition hasPieceAtColor (b : Board) (sq : Square) (c : Color) : bool :=
  if negb (isValid sq) then false
  else match at_ b sq with
       | Some piece => bool_decide (color piece = c)
       | None => false
       end.

Definition movePiece (b : Board) (move : Move) : Board :=
  let b1 := gridSet b (to move) (at_ b (from move)) in
  gridSet b1 (from move) None.

Definition setPiece (b : Board) (sq : Square) (p : option Piece) : Board :=
  if isValid sq then gridSet b sq p else b.

Definition clearSquare (b : Board) (sq : Square) : Board :=
  setPiece b sq None.

Definition clear : Board := vreplicate kSize (vreplicate kSize None).

Definition kBackRankOrder : vec PieceType kSize :=
  [# Rook; Knight; Bishop; Queen; King; Bishop; Knight; Rook].

Definition backRank (f : Z) : PieceType :=
  match cell f with Some j => kBackRankOrder !!! j | None => Pawn end.

(** The loop counter of [for (int i = 0; i < kSize; ++i)]. *)
Definition indices : list Z := [0; 1; 2; 3; 4; 5; 6; 7].

Definition setupInitialPosition (b : Board) : Board :=
  let b1 :=
    fold_left (fun g f =>
      let g1 := gridSet g (mkSquare 0 f) (Some (mkPiece (backRank f) Black)) in
      gridSet g1 (mkSquare 1 f) (Some (mkPiece Pawn Black))) indices b in
  fold_left (fun g f =>
      let g1 := gridSet g (mkSquare 6 f) (Some (mkPiece Pawn White)) in
      gridSet g1 (mkSquare 7 f) (Some (mkPiece (backRank f) White))) indices b1.

Definition reset : Board := setupInitialPosition clear.

(* ================================================================== *)
(** ** Rules.cpp : attack detection                                    *)
(* ================================================================== *)

Definition kKnightMoves : list (Z * Z) :=
  [(-2, -1); (-2, 1); (-1, -2); (-1, 2); (1, -2); (1, 2); (2, -1); (2, 1)].

Definition kRookDirections : list (Z * Z) :=
  [(-1, 0); (1, 0); (0, -1); (0, 1)].

Definition kBishopDirections : list (Z * Z) :=
  [(-1, -1); (-1, 1); (1, -1); (1, 1)].

Definition kAllDirections : list (Z * Z) :=
  kRookDirections ++ kBishopDirections.

(** The squares in the order of the two nested loops over rank and file. *)
Definition allSquares : list Square :=
  flat_map (fun r => map (fun f => mkSquare r f) indices) indices.

(** [piece && piece->type == t && piece->color == c] on the square [sq]. *)
Definition pieceIs (b : Board) (sq : Square) (t : PieceType) (c : Color) : bool :=
  match at_ b sq with
  | Some piece => bool_decide (type piece = t) && bool_decide (color piece = c)
  | None => false
  end.

Definition findKing (b : Board) (side : Color) : option Square :=
  find (fun sq => pieceIs b sq King side) allSquares.

Definition isAttackedByPawn (b : Board) (target : Square) (attacker : Color) : bool :=
  let pawn_direction := match attacker with White => -1 | Black => 1 end in
  existsb (fun '(dr, df) =>
             let sq := mkSquare (rank target + dr) (file target + df) in
             isValid sq && pieceIs b sq Pawn attacker)
          [(pawn_direction, -1); (pawn_direction, 1)].

Definition isAttackedByKnight (b : Board) (target : Square) (attacker : Color) : bool :=
  existsb (fun '(dr, df) =>
             let sq := mkSquare (rank target + dr) (file target + df) in
             isValid sq && pieceIs b sq Knight attacker)
          kKnightMoves.

(** Iterations granted to the [while (isValidSquare(r, f))] loops: a walk
    that starts on the board and advances by a non-zero unit step leaves
    the board within eight steps, so the ninth test always fails. *)
Definition walkFuel : nat := S kSize.

(** The [while] loop of [isAttackedBySlider] for one direction; [true]
    is the function's early [return true], [false] is leaving the loop. *)
Fixpoint sliderWalk (fuel : nat) (b : Board) (attacker : Color)
    (is_diagonal : bool) (dr df r f distance : Z) : bool :=
  match fuel with
  | O => false
  | S n =>
      if isValidSquare r f then
        match at_ b (mkSquare r f) with
        | Some piece =>
            bool_decide (color piece = attacker) &&
            ((distance =? 1) && bool_decide (type piece = King)
             || negb is_diagonal &&
                (bool_decide (type piece = Rook) || bool_decide (type piece = Queen))
             || is_diagonal &&
                (bool_decide (type piece = Bishop) || bool_decide (type piece = Queen)))
        | None => sliderWalk n b attacker is_diagonal dr df (r + dr) (f + df) (distance + 1)
        end
      else false
  end.

Definition isAttackedBySlider (b : Board) (target : Square) (attacker : Color) : bool :=
  existsb (fun '(i, (dr, df)) =>
             let is_diagonal := (4 <=? i)%nat in
             sliderWalk walkFuel b attacker is_diagonal dr df
                        (rank target + dr) (file target + df) 1)
          (combine (seq 0 (length kAllDirections)) kAllDirections).

Definition isSquareAttacked (b : Board) (target : Square) (attacker : Color) : bool :=
  isAttackedByPawn b target attacker ||
  isAttackedByKnight b target attacker ||
  isAttackedBySlider b target attacker.

(* ================================================================== *)
(** ** Rules.cpp : the legality filter and the generators              *)
(* ================================================================== *)

(** The scratch copy of [isMoveLegal] after the speculative move. *)
Definition scratch (b : Board) (move : Move) : Board :=
  let copy := movePiece b move in
  if en_passant move
  then clearSquare copy (mkSquare (rank (from move)) (file (to move)))
  else copy.

Definition isMoveLegal (b : Board) (move : Move) (side : Color) : bool :=
  let copy := scratch b move in
  match findKing copy side with
  | None => false
  | Some king_sq => negb (isSquareAttacked copy king_sq (opponent side))
  end.

(** The generators receive the vector [moves] by reference and push to
    its back; the model threads the vector through. *)
Definition pushIfLegal (moves : list Move) (b : Board) (move : Move) (side : Color)
  : list Move :=
  if isMoveLegal b move side then moves ++ [move] else moves.

Definition addMoveIfLegal (moves : list Move) (b : Board)
    (from_ to_ : Square) (side : Color) : list Move :=
  pushIfLegal moves b (plainMove from_ to_) side.

Definition generatePawnMoves (moves : list Move) (b : Board) (from_ : Square)
    (side : Color) (last_move : option Move) : list Move :=
  let forward := match side with White => -1 | Black => 1 end in
  let start_rank := match side with White => 6 | Black => 1 end in
  let enemy := opponent side in
  (* single and double push *)
  let one := mkSquare (rank from_ + forward) (file from_) in
  let moves :=
    if isValid one && negb (hasPieceAt b one) then
      let moves := addMoveIfLegal moves b from_ one side in
      let two := mkSquare (rank from_ + 2 * forward) (file from_) in
      if (rank from_ =? start_rank) && isValid two && negb (hasPieceAt b two)
      then addMoveIfLegal moves b from_ two side
      else moves
    else moves in
  (* captures *)
  let moves :=
    fold_left (fun moves df =>
                 let cap := mkSquare (rank from_ + forward) (file from_ + df) in
                 if negb (isValid cap) then moves
                 else if hasPieceAtColor b cap enemy
                      then addMoveIfLegal moves b from_ cap side
                      else moves)
              [-1; 1] moves in
  (* en passant *)
  match last_move with
  | None => moves
  | Some lm =>
      match at_ b (to lm) with
      | None => moves
      | Some moved_piece =>
          if bool_decide (type moved_piece = Pawn) &&
             bool_decide (color moved_piece = enemy) &&
             (Z.abs (rank (from lm) - rank (to lm)) =? 2)
          then
            if (rank from_ =? rank (to lm)) &&
               (Z.abs (file from_ - file (to lm)) =? 1)
            then
              let passed_rank := Z.quot (rank (from lm) + rank (to lm)) 2 in
              let ep_move :=
                mkMove from_ (mkSquare passed_rank (file (to lm))) None true false in
              pushIfLegal moves b ep_move side
            else moves
          else moves
      end
  end.

Definition generateKnightMoves (moves : list Move) (b : Board) (from_ : Square)
    (side : Color) : list Move :=
  fold_left (fun moves '(dr, df) =>
               let to_ := mkSquare (rank from_ + dr) (file from_ + df) in
               if negb (isValid to_) then moves
               else if hasPieceAtColor b to_ side then moves
               else addMoveIfLegal moves b from_ to_ side)
            kKnightMoves moves.

(** The [while] loop of [generateSlidingMoves] for one direction. *)
Fixpoint slideWalk (fuel : nat) (moves : list Move) (b : Board) (from_ : Square)
    (side : Color) (dr df r f : Z) : list Move :=
  match fuel with
  | O => moves
  | S n =>
      if isValidSquare r f then
        let to_ := mkSquare r f in
        match at_ b to_ with
        | Some dest =>
            if bool_decide (color dest <> side)
            then addMoveIfLegal moves b from_ to_ side
            else moves
        | None =>
            slideWalk n (addMoveIfLegal moves b from_ to_ side) b from_ side
                      dr df (r + dr) (f + df)
        end
      else moves
  end.

Definition generateSlidingMoves (moves : list Move) (b : Board) (from_ : Square)
    (side : Color) (directions : list (Z * Z)) : list Move :=
  fold_left (fun moves '(dr, df) =>
               slideWalk walkFuel moves b from_ side dr df
                         (rank from_ + dr) (file from_ + df))
            directions moves.

(** The rights array [{WhiteKingside, WhiteQueenside, BlackKingside,
    BlackQueenside}]. *)
Abbreviation CastlingRights := (vec bool 4).

Definition generateKingMoves (moves : list Move) (b : Board) (from_ : Square)
    (side : Color) (castling_rights : CastlingRights) : list Move :=
  let enemy := opponent side in
  (* the eight neighbours *)
  let moves :=
    fold_left (fun moves dr =>
      fold_left (fun moves df =>
        if (dr =? 0) && (df =? 0) then moves
        else
          let to_ := mkSquare (rank from_ + dr) (file from_ + df) in
          if negb (isValid to_) then moves
          else if hasPieceAtColor b to_ side then moves
          else addMoveIfLegal moves b from_ to_ side)
        [-1; 0; 1] moves)
      [-1; 0; 1] moves in
  (* castling *)
  let home_rank := match side with White => 7 | Black => 0 end in
  let king_file := 4 in
  if negb (rank from_ =? home_rank) || negb (file from_ =? king_file) then moves
  else if isSquareAttacked b from_ enemy then moves
  else
    let kingside :=
      match side with
      | White => castling_rights !!! 0%fin
      | Black => castling_rights !!! 2%fin
      end in
    let queenside :=
      match side with
      | White => castling_rights !!! 1%fin
      | Black => castling_rights !!! 3%fin
      end in
    let moves :=
      if kingside
         && pieceIs b (mkSquare home_rank 7) Rook side
         && (negb (hasPieceAt b (mkSquare home_rank 5))
             && negb (hasPieceAt b (mkSquare home_rank 6)))
         && (negb (isSquareAttacked b (mkSquare home_rank 5) enemy)
             && negb (isSquareAttacked b (mkSquare home_rank 6) enemy))
      then pushIfLegal moves b
             (mkMove from_ (mkSquare home_rank 6) None false true) side
      else moves in
    if queenside
       && pieceIs b (mkSquare home_rank 0) Rook side
       && (negb (hasPieceAt b (mkSquare home_rank 1))
           && negb (hasPieceAt b (mkSquare home_rank 2))
           && negb (hasPieceAt b (mkSquare home_rank 3)))
       && (negb (isSquareAttacked b (mkSquare home_rank 2) enemy)
           && negb (isSquareAttacked b (mkSquare home_rank 3) enemy))
    then pushIfLegal moves b
           (mkMove from_ (mkSquare home_rank 2) None false true) side
    else moves.

(** The body of the two nested loops of [Rules::legalMoves] for one
    square. *)
Definition generateFrom (moves : list Move) (b : Board) (side : Color)
    (last_move : option Move) (castling_rights : CastlingRights)
    (from_ : Square) : list Move :=
  match at_ b from_ with
  | None => moves
  | Some piece =>
      if bool_decide (color piece <> side) then moves
      else
        match type piece with
        | Pawn => generatePawnMoves moves b from_ side last_move
        | Knight => generateKnightMoves moves b from_ side
        | Bishop => generateSlidingMoves moves b from_ side kBishopDirections
        | Rook => generateSlidingMoves moves b from_ side kRookDirections
        | Queen => generateSlidingMoves moves b from_ side kAllDirections
        | King => generateKingMoves moves b from_ side castling_rights
        end
  end.

Definition legalMoves (b : Board) (side : Color) (last_move : option Move)
    (castling_rights : CastlingRights) : list Move :=
  fold_left (fun moves r =>
    fold_left (fun moves f =>
      generateFrom moves b side last_move castling_rights (mkSquare r f))
      indices moves)
    indices [].

Definition isCheck (b : Board) (side : Color) : bool :=
  match findKing b side with
  | Some king_sq => isSquareAttacked b king_sq (opponent side)
  | None => false
  end.

Definition isCheckmate (b : Board) (side : Color) (last_move : option Move)
    (castling_rights : CastlingRights) : bool :=
  isCheck b side &&
  bool_decide (legalMoves b side last_move castling_rights = []).

Definition isStalemate (b : Board) (side : Color) (last_move : option Move)
    (castling_rights : CastlingRights) : bool :=
  negb (isCheck b side) &&
  bool_decide (legalMoves b side last_move castling_rights = []).

(* ================================================================== *)
(** ** ChessGame.cpp : the session                                     *)
(* ================================================================== *)

Record ChessGame : Set := mkGame {
  board_ : Board;
  side_to_move_ : Color;
  last_move_ : option Move;
  castling_rights_ : CastlingRights
}.

Definition newGame : ChessGame :=
  mkGame reset White None [# true; true; true; true].

Definition handleSpecialMoves (b : Board) (move : Move) : Board :=
  (* en passant: remove the captured pawn *)
  let b :=
    if en_passant move
    then clearSquare b (mkSquare (rank (from move)) (file (to move)))
    else b in
  (* the main piece movement *)
  let b := movePiece b move in
  (* castling: also move the rook *)
  if castling move then
    let rank_ := rank (from move) in
    if file (to move) =? 6
    then movePiece b (plainMove (mkSquare rank_ 7) (mkSquare rank_ 5))
    else if file (to move) =? 2
         then movePiece b (plainMove (mkSquare rank_ 0) (mkSquare rank_ 3))
         else b
  else b.

(** The lambda [revokeIfRookSquare] of [updateCastlingRights]. *)
Definition revokeIfRookSquare (rights : CastlingRights) (sq : Square)
  : CastlingRights :=
  if rank sq =? 7 then
    if file sq =? 0 then vinsert 1%fin false rights
    else if file sq =? 7 then vinsert 0%fin false rights
         else rights
  else if rank sq =? 0 then
    if file sq =? 0 then vinsert 3%fin false rights
    else if file sq =? 7 then vinsert 2%fin false rights
         else rights
  else rights.

(** [updateCastlingRights] runs after [handleSpecialMoves]: [b] is the
    board with the move already applied, [side] the side that moved. *)
Definition updateCastlingRights (b : Board) (side : Color)
    (rights : CastlingRights) (move : Move) : CastlingRights :=
  let rights :=
    match at_ b (to move) with
    | Some piece =>
        if bool_decide (type piece = King) then
          match side with
          | White => vinsert 1%fin false (vinsert 0%fin false rights)
          | Black => vinsert 3%fin false (vinsert 2%fin false rights)
          end
        else rights
    | None => rights
    end in
  let rights := revokeIfRookSquare rights (from move) in
  revokeIfRookSquare rights (to move).

(** The [find_if] of [makeMove]: the first legal move with the squares of
    the candidate. *)
Definition matchingMove (g : ChessGame) (move : Move) : option Move :=
  find (fun m => sameSquares m move)
       (legalMoves (board_ g) (side_to_move_ g) (last_move_ g) (castling_rights_ g)).

(** [makeMove] returns its boolean together with the session after the
    call. *)
Definition makeMove (g : ChessGame) (move : Move) : bool * ChessGame :=
  match matchingMove g move with
  | None => (false, g)
  | Some legal_move =>
      let b := handleSpecialMoves (board_ g) legal_move in
      let rights :=
        updateCastlingRights b (side_to_move_ g) (castling_rights_ g) legal_move in
      (true, mkGame b (opponent (side_to_move_ g)) (Some legal_move) rights)
  end.

Definition gameLegalMoves (g : ChessGame) : list Move :=
  legalMoves (board_ g) (side_to_move_ g) (last_move_ g) (castling_rights_ g).

Definition gameIsCheck (g : ChessGame) : bool :=
  isCheck (board_ g) (side_to_move_ g).

Definition gameIsCheckmate (g : ChessGame) : bool :=
  isCheckmate (board_ g) (side_to_move_ g) (last_move_ g) (castling_rights_ g).

(** A run of [makeMove] calls, each on the session the previous one left. *)
Definition playAll (g : ChessGame) (moves : list Move) : ChessGame :=
  fold_left (fun g m => snd (makeMove g m)) moves g.

(** The same run, with the conjunction of the returned booleans. *)
Definition playChecked (g : ChessGame) (moves : list Move) : bool * ChessGame :=
  fold_left (fun '(ok, g) m => let '(r, g') := makeMove g m in (ok && r, g'))
            moves (true, g).

(** The candidate that a caller builds from an origin and a destination. *)
Definition mv (r1 f1 r2 f2 : Z) : Move :=
  plainMove (mkSquare r1 f1) (mkSquare r2 f2).

(* ================================================================== *)
(** ** Vocabulary of the statements                                    *)
(* ================================================================== *)

Section Shapes.
Variables (b : Board) (side : Color).

(** A move without flags to a square that holds no piece of the mover,
    accepted by the legality filter. *)
Definition plainShape (from_ : Square) (m : Move) : Prop :=
  exists to_, m = plainMove from_ to_ /\ isValid to_ = true /\
              hasPieceAtColor b to_ side = false /\
              isMoveLegal b m side = true.

(** The en-passant move of the pawn on [from_]. *)
Definition enPassantShape (last_move : option Move) (from_ : Square) (m : Move)
  : Prop :=
  exists lm,
    last_move = Some lm /\
    at_ b (to lm) = Some (mkPiece Pawn (opponent side)) /\
    Z.abs (rank (from lm) - rank (to lm)) = 2 /\
    rank from_ = rank (to lm) /\
    Z.abs (file from_ - file (to lm)) = 1 /\
    m = mkMove from_
          (mkSquare (Z.quot (rank (from lm) + rank (to lm)) 2) (file (to lm)))
          None true false /\
    isMoveLegal b m side = true.

Definition homeRank : Z := match side with White => 7 | Black => 0 end.

Definition kingsideRight (rights : CastlingRights) : bool :=
  match side with White => rights !!! 0%fin | Black => rights !!! 2%fin end.

Definition queensideRight (rights : CastlingRights) : bool :=
  match side with White => rights !!! 1%fin | Black => rights !!! 3%fin end.

(** The castling moves of the king on [from_], with every test that
    [generateKingMoves] makes before it pushes them. *)
Definition kingsideShape (rights : CastlingRights) (from_ : Square) (m : Move)
  : Prop :=
  from_ = mkSquare homeRank 4 /\
  isSquareAttacked b from_ (opponent side) = false /\
  kingsideRight rights = true /\
  at_ b (mkSquare homeRank 7) = Some (mkPiece Rook side) /\
  at_ b (mkSquare homeRank 5) = None /\
  at_ b (mkSquare homeRank 6) = None /\
  isSquareAttacked b (mkSquare homeRank 5) (opponent side) = false /\
  isSquareAttacked b (mkSquare homeRank 6) (opponent side) = false /\
  m = mkMove from_ (mkSquare homeRank 6) None false true /\
  isMoveLegal b m side = true.

Definition queensideShape (rights : CastlingRights) (from_ : Square) (m : Move)
  : Prop :=
  from_ = mkSquare homeRank 4 /\
  isSquareAttacked b from_ (opponent side) = false /\
  queensideRight rights = true /\
  at_ b (mkSquare homeRank 0) = Some (mkPiece Rook side) /\
  at_ b (mkSquare homeRank 1) = None /\
  at_ b (mkSquare homeRank 2) = None /\
  at_ b (mkSquare homeRank 3) = None /\
  isSquareAttacked b (mkSquare homeRank 2) (opponent side) = false /\
  isSquareAttacked b (mkSquare homeRank 3) (opponent side) = false /\
  m = mkMove from_ (mkSquare homeRank 2) None false true /\
  isMoveLegal b m side = true.

Variables (last_move : option Move) (rights : CastlingRights).

(** What the generators can push for the piece on a square. *)
Definition movedFrom (sq : Square) (m : Move) : Prop :=
  exists piece,
    at_ b sq = Some piece /\ color piece = side /\
    (plainShape sq m \/
     (type piece = Pawn /\ enPassantShape last_move sq m) \/
     (type piece = King /\
      (kingsideShape rights sq m \/ queensideShape rights sq m))).

End Shapes.

(** The home corner and the colour that each index of the rights array
    stands for. *)
Definition corner (i : fin 4) : Square :=
  if decide (i = 0%fin) then mkSquare 7 7
  else if decide (i = 1%fin) then mkSquare 7 0
  else if decide (i = 2%fin) then mkSquare 0 7
  else mkSquare 0 0.

Definition rightColor (i : fin 4) : Color :=
  if decide (i = 0%fin) then White
  else if decide (i = 1%fin) then White
  else Black.

Definition kingHome (c : Color) : Square :=
  mkSquare (match c with White => 7 | Black => 0 end) 4.

(** The stored last move, when there is one, names squares of the board:
    the precondition under which [Board::at] may be applied to them. *)
Definition lastMoveOnBoard (last_move : option Move) : Prop :=
  match last_move with
  | Some lm => isValid (from lm) = true /\ isValid (to lm) = true
  | None => True
  end.

(** The sessions that a program can hold: [newGame] and what accepted
    moves make of it. *)
Inductive reachable : ChessGame -> Prop :=
| reachable_new : reachable newGame
| reachable_move g move g' :
    reachable g -> makeMove g move = (true, g') -> reachable g'.

(** The moves of a list made by a piece of the given type, [n] ranks
    towards rank 0 on the same file when [n] is given. *)
Definition movesOf (b : Board) (t : PieceType) (moves : list Move) : list Move :=
  filter (fun m => bool_decide (type <$> at_ b (from m) = Some t)) moves.

Definition pushesBy (n : Z) (moves : list Move) : list Move :=
  filter (fun m => (rank (from m) - rank (to m) =? n) &&
                   (file (from m) =? file (to m))) moves.

(** The walk from [(r, f)] by steps of [(dr, df)] tests a square off the
    board within [n] tests. *)
Definition leavesWithin (n : nat) (dr df r f : Z) : Prop :=
  exists j : nat, (j < n)%nat /\
    isValidSquare (r + Z.of_nat j * dr) (f + Z.of_nat j * df) = false.

(** In every held right the rook of that colour stands on the corner. *)
Definition rooksAtHome (g : ChessGame) : Prop :=
  forall i : fin 4,
    castling_rights_ g !!! i = true ->
    at_ (board_ g) (corner i) = Some (mkPiece Rook (rightColor i)).

(** The causes for which a right may be lost by a move from [a] to [c] on
    the board [b]: the king of its colour moves, the rook leaves the
    corner, or the rook is captured on the corner. *)
Definition kingMoves (b : Board) (i : fin 4) (a : Square) : Prop :=
  at_ b a = Some (mkPiece King (rightColor i)).

Definition rookLeaves (b : Board) (i : fin 4) (a : Square) : Prop :=
  a = corner i /\ at_ b a = Some (mkPiece Rook (rightColor i)).

Definition rookTaken (b : Board) (i : fin 4) (c : Square) : Prop :=
  c = corner i /\ at_ b c = Some (mkPiece Rook (rightColor i)).

(** *** Two games

    A black pawn walks from e7 to d2 while White pushes the a-pawn. *)
Definition pawnRaid : list Move :=
  [mv 6 0 5 0; mv 1 4 3 4; mv 5 0 4 0; mv 3 4 4 4;
   mv 4 0 3 0; mv 4 4 5 4; mv 3 0 2 0; mv 5 4 6 3].

Definition afterPawnRaid : ChessGame := playAll newGame pawnRaid.

(** White answers with h2-h3, and the pawn takes on e1; the candidate
    asks for a queen. *)
Definition quietReply : Move := mv 6 7 5 7.

Definition beforeKingTaken : ChessGame :=
  snd (makeMove afterPawnRaid quietReply).

Definition takeKing : Move :=
  mkMove (mkSquare 6 3) (mkSquare 7 4) (Some Queen) false false.

Definition kingTaken : ChessGame := snd (makeMove beforeKingTaken takeKing).

(** White clears f1 and g1 while a black pawn walks from g7 to h2. *)
Definition pawnBesideKing : list Move :=
  [mv 6 4 5 4; mv 1 6 3 6; mv 7 5 6 4; mv 3 6 4 6;
   mv 7 6 5 5; mv 4 6 5 6; mv 6 0 5 0; mv 5 6 6 7].

Definition beforeCastling : ChessGame := playAll newGame pawnBesideKing.

Definition castleKingside : Move :=
  mkMove (mkSquare 7 4) (mkSquare 7 6) None false true.

Definition afterCastling : ChessGame :=
  snd (makeMove beforeCastling castleKingside).

(* ================================================================== *)
(** ** The rest of Move.hpp, Types.hpp and ChessGame.cpp               *)
(* ================================================================== *)

Definition isPromotion (m : Move) : bool :=
  match promotion m with Some _ => true | None => false end.

Definition isSpecial (m : Move) : bool :=
  castling m || en_passant m || isPromotion m.

(** [toChar]: the index of an enumerator is always below the size of
    [kPieceChars], so the ['?'] branch is never taken. *)
Definition toChar (t : PieceType) : ascii :=
  match t with
  | Pawn => "P" | Knight => "N" | Bishop => "B"
  | Rook => "R" | Queen => "Q" | King => "K"
  end%char.

(** [static_cast<char>('a' + file)] and [static_cast<char>('8' - rank)]. *)
Definition fileToChar (f : Z) : ascii :=
  if (0 <=? f) && (f <? kBoardSize)
  then ascii_of_N (Z.to_N (97 + f))
  else "?"%char.

Definition rankToChar (r : Z) : ascii :=
  if (0 <=? r) && (r <? kBoardSize)
  then ascii_of_N (Z.to_N (56 - r))
  else "?"%char.

Definition gameIsStalemate (g : ChessGame) : bool :=
  isStalemate (board_ g) (side_to_move_ g) (last_move_ g) (castling_rights_ g).

Definition gameIsGameOver (g : ChessGame) : bool :=
  gameIsCheckmate g || gameIsStalemate g.

(* ================================================================== *)
(** ** SfmlInputHandler.cpp : the legal destinations of a drag         *)
(* ================================================================== *)

(** [updateLegalMoves]: the vector [legal_move_squares_] after the call;
    [game_ref] is the pointer [game_ref_], [None] when it is null. *)
Definition updateLegalMoves (game_ref : option ChessGame) (from_ : Square)
  : list Square :=
  match game_ref with
  | None => []
  | Some g =>
      fold_left (fun squares move =>
                   if bool_decide (from move = from_)
                   then squares ++ [to move] else squares)
                (gameLegalMoves g) []
  end.

Definition isLegalDestination (legal_move_squares : list Square) (sq : Square)
  : bool :=
  existsb (fun x => bool_decide (x = sq)) legal_move_squares.

(** The test of [handleMousePress] that starts a drag on [sq]. *)
Definition startsDrag (g : ChessGame) (sq : Square) : bool :=
  hasPieceAtColor (board_ g) sq (side_to_move_ g).

(** The move that [handleMouseRelease] hands to [startAnimation], if
    any; [target] is the square under the pointer. *)
Definition releasedMove (g : ChessGame) (drag_source : option Square)
    (legal_move_squares : list Square) (target : Square) : option Move :=
  match drag_source with
  | None => None
  | Some source =>
      if bool_decide (target <> source) && isLegalDestination legal_move_squares target
      then match at_ (board_ g) source with
           | Some _ => Some (plainMove source target)
           | None => None
           end
      else None
  end.

(* ================================================================== *)
(** ** What each generator pushes                                      *)
(* ================================================================== *)

Section Pushed.
Variables (b : Board) (side : Color).

Definition forward : Z := match side with White => -1 | Black => 1 end.
Definition startRank : Z := match side with White => 6 | Black => 1 end.

(** The square [k] steps of [(dr, df)] away from [a]. *)
Definition shifted (a : Square) (k dr df : Z) : Square :=
  mkSquare (rank a + k * dr) (file a + k * df).

(** [m] is the flagless move from [a] to the square [c] of the board, and
    passes the filter. *)
Definition plainTo (a c : Square) (m : Move) : Prop :=
  m = plainMove a c /\ isValid c = true /\ isMoveLegal b m side = true.

Definition knightMove (a : Square) (m : Move) : Prop :=
  exists dr df,
    In (dr, df) kKnightMoves /\
    plainTo a (shifted a 1 dr df) m /\
    hasPieceAtColor b (shifted a 1 dr df) side = false.

Definition kingStep (a : Square) (m : Move) : Prop :=
  exists dr df,
    In dr [-1; 0; 1] /\ In df [-1; 0; 1] /\ (dr, df) <> (0, 0) /\
    plainTo a (shifted a 1 dr df) m /\
    hasPieceAtColor b (shifted a 1 dr df) side = false.

(** A slide of [k + 1] steps over [k] empty squares of the board. *)
Definition slideMove (directions : list (Z * Z)) (a : Square) (m : Move) : Prop :=
  exists dr df (k : nat),
    In (dr, df) directions /\
    (forall j : nat, (j < k)%nat ->
       isValid (shifted a (Z.of_nat (S j)) dr df) = true /\
       at_ b (shifted a (Z.of_nat (S j)) dr df) = None) /\
    plainTo a (shifted a (Z.of_nat (S k)) dr df) m /\
    hasPieceAtColor b (shifted a (Z.of_nat (S k)) dr df) side = false.

Definition pawnPush (a : Square) (m : Move) : Prop :=
  plainTo a (shifted a 1 forward 0) m /\ at_ b (shifted a 1 forward 0) = None.

Definition pawnDoublePush (a : Square) (m : Move) : Prop :=
  rank a = startRank /\
  isValid (shifted a 1 forward 0) = true /\
  at_ b (shifted a 1 forward 0) = None /\
  plainTo a (shifted a 2 forward 0) m /\
  at_ b (shifted a 2 forward 0) = None.

Definition pawnCapture (a : Square) (m : Move) : Prop :=
  exists df,
    (df = -1 \/ df = 1) /\
    plainTo a (mkSquare (rank a + forward) (file a + df)) m /\
    hasPieceAtColor b (mkSquare (rank a + forward) (file a + df)) (opponent side)
      = true.

Variables (last_move : option Move) (rights : CastlingRights).

(** The moves pushed for the piece of type [t] on [a]. *)
Definition pushedFor (t : PieceType) (a : Square) (m : Move) : Prop :=
  match t with
  | Pawn => pawnPush a m \/ pawnDoublePush a m \/ pawnCapture a m \/
            enPassantShape b side last_move a m
  | Knight => knightMove a m
  | Bishop => slideMove kBishopDirections a m
  | Rook => slideMove kRookDirections a m
  | Queen => slideMove kAllDirections a m
  | King => kingStep a m \/ kingsideShape b side rights a m \/
            queensideShape b side rights a m
  end.

Definition generated (a : Square) (m : Move) : Prop :=
  exists piece, at_ b a = Some piece /\ color piece = side /\
                pushedFor (type piece) a m.
End Pushed.

(** *** Attack patterns *)

Definition knightJump (a c : Square) : Prop :=
  (Z.abs (rank c - rank a) = 1 /\ Z.abs (file c - file a) = 2) \/
  (Z.abs (rank c - rank a) = 2 /\ Z.abs (file c - file a) = 1).

(** The piece on [a] is in line with [target] along [(dr, df)], [k + 1]
    steps away, with [k] empty squares of the board between them. *)
Definition inLine (b : Board) (target : Square) (dr df : Z) (k : nat) (a : Square)
  : Prop :=
  a = shifted target (Z.of_nat (S k)) dr df /\ isValid a = true /\
  forall j : nat, (j < k)%nat ->
    isValid (shifted target (Z.of_nat (S j)) dr df) = true /\
    at_ b (shifted target (Z.of_nat (S j)) dr df) = None.

(** *** A game with an en-passant capture

    After 1.e4 a6 2.e5 d5 the white pawn on e5 may take the pawn that
    passed it. *)
Definition doublePushBesidePawn : list Move :=
  [mv 6 4 4 4; mv 1 0 2 0; mv 4 4 3 4; mv 1 3 3 3].

Definition beforeEnPassant : ChessGame := playAll newGame doublePushBesidePawn.

Definition takeEnPassant : Move := mv 3 4 2 3.

Definition afterEnPassant : ChessGame :=
  snd (makeMove beforeEnPassant takeEnPassant).

(** *** The scratch board and the board after the move

    [isMoveLegal] tests a copy on which only [movePiece] has run, while
    [handleSpecialMoves] also moves the rook of a castling move.  A
    corner of the board ends every line that reaches it. *)
Definition isCorner (sq : Square) : Prop :=
  (rank sq = 0 \/ rank sq = 7) /\ (file sq = 0 \/ file sq = 7).

(** Every piece of [attacker] on [b'] stands on the same square of [b],
    and every empty square of [b'] is empty on [b] or is a corner. *)
Definition noNewAttacker (attacker : Color) (b b' : Board) : Prop :=
  (forall sq p, at_ b' sq = Some p -> color p = attacker -> at_ b sq = Some p) /\
  (forall sq, at_ b' sq = None -> at_ b sq = None \/ isCorner sq).

(* ================================================================== *)
(** * Properties                                                       *)
(* ================================================================== *)

(** ** The grid *)

Lemma isValid_spec sq :
  isValid sq = true <-> 0 <= rank sq < 8 /\ 0 <= file sq < 8.
Proof. unfold isValid, kBoardSize. lia. Qed.

Lemma isValidSquare_isValid r f : isValidSquare r f = isValid (mkSquare r f).
Proof. reflexivity. Qed.

Lemma cell_Some z i : cell z = Some i -> 0 <= z < 8.
Proof.
  destruct z as [|p|p]; simpl; [lia| |discriminate].
  destruct p as [[[p|p|]|[p|p|]|]|[[p|p|]|[p|p|]|]|]; simpl; try discriminate; lia.
Qed.

Lemma cell_in_range z : 0 <= z < 8 -> exists i, cell z = Some i.
Proof.
  intros H.
  assert (z = 0 \/ z = 1 \/ z = 2 \/ z = 3 \/ z = 4 \/ z = 5 \/ z = 6 \/ z = 7)
    as Hz by lia.
  repeat destruct Hz as [-> | Hz]; try subst z; simpl; eauto.
Qed.

Lemma cell_inj z1 z2 i : cell z1 = Some i -> cell z2 = Some i -> z1 = z2.
Proof.
  intros H1 H2.
  pose proof (cell_Some _ _ H1) as R1. pose proof (cell_Some _ _ H2) as R2.
  assert (z1 = 0 \/ z1 = 1 \/ z1 = 2 \/ z1 = 3 \/ z1 = 4 \/ z1 = 5 \/ z1 = 6 \/ z1 = 7)
    as Hz1 by lia.
  assert (z2 = 0 \/ z2 = 1 \/ z2 = 2 \/ z2 = 3 \/ z2 = 4 \/ z2 = 5 \/ z2 = 6 \/ z2 = 7)
    as Hz2 by lia.
  repeat destruct Hz1 as [-> | Hz1]; try subst z1;
    repeat destruct Hz2 as [-> | Hz2]; try subst z2;
    simpl in *; congruence.
Qed.

Lemma cell_None z : cell z = None <-> ~ (0 <= z < 8).
Proof.
  split.
  - intros H R. destruct (cell_in_range z R) as [i Hi]. congruence.
  - intros H. destruct (cell z) as [i|] eqn:E; [|done].
    exfalso. apply H. eapply cell_Some; eauto.
Qed.

Lemma at_invalid b sq : isValid sq = false -> at_ b sq = None.
Proof.
  intros H. unfold at_.
  destruct (cell (rank sq)) as [i|] eqn:Ei; [|done].
  destruct (cell (file sq)) as [j|] eqn:Ej; [|done].
  apply cell_Some in Ei, Ej.
  assert (isValid sq = true) by (apply isValid_spec; lia). congruence.
Qed.

Lemma at_Some_valid b sq p : at_ b sq = Some p -> isValid sq = true.
Proof.
  intros H. destruct (isValid sq) eqn:E; [done|].
  rewrite at_invalid in H by done. discriminate.
Qed.

Lemma gridSet_invalid b sq p : isValid sq = false -> gridSet b sq p = b.
Proof.
  intros H. unfold gridSet.
  destruct (cell (rank sq)) as [i|] eqn:Ei; [|done].
  destruct (cell (file sq)) as [j|] eqn:Ej; [|done].
  apply cell_Some in Ei, Ej.
  assert (isValid sq = true) by (apply isValid_spec; lia). congruence.
Qed.

Lemma at_gridSet_eq b sq p : isValid sq = true -> at_ (gridSet b sq p) sq = p.
Proof.
  intros H. apply isValid_spec in H as [Hr Hf].
  destruct (cell_in_range _ Hr) as [i Hi], (cell_in_range _ Hf) as [j Hj].
  unfold at_, gridSet. rewrite Hi, Hj.
  by rewrite !vlookup_insert.
Qed.

Lemma at_gridSet_ne b sq sq' p : sq <> sq' -> at_ (gridSet b sq p) sq' = at_ b sq'.
Proof.
  intros Hne. unfold at_, gridSet.
  destruct (cell (rank sq)) as [i|] eqn:Ei; [|done].
  destruct (cell (file sq)) as [j|] eqn:Ej; [|done].
  destruct (cell (rank sq')) as [i'|] eqn:Ei'; [|done].
  destruct (cell (file sq')) as [j'|] eqn:Ej'; [|done].
  destruct (decide (i = i')) as [->|Hi].
  - rewrite vlookup_insert.
    destruct (decide (j = j')) as [->|Hj].
    + exfalso. apply Hne. destruct sq, sq'; simpl in *.
      f_equal; eapply cell_inj; eauto.
    + by rewrite vlookup_insert_ne.
  - by rewrite vlookup_insert_ne.
Qed.

(** Reading a square after [grid_[sq] = p]. *)
Lemma at_gridSet b sq sq' p :
  at_ (gridSet b sq p) sq' =
  if decide (sq' = sq) then (if isValid sq then p else None) else at_ b sq'.
Proof.
  destruct (decide (sq' = sq)) as [->|Hne].
  - destruct (isValid sq) eqn:E.
    + by apply at_gridSet_eq.
    + rewrite gridSet_invalid by done. by apply at_invalid.
  - apply at_gridSet_ne. congruence.
Qed.

Lemma at_setPiece b sq sq' p :
  at_ (setPiece b sq p) sq' =
  if decide (sq' = sq) then (if isValid sq then p else None) else at_ b sq'.
Proof.
  unfold setPiece. destruct (isValid sq) eqn:E.
  - rewrite at_gridSet. by rewrite E.
  - destruct (decide (sq' = sq)) as [->|]; [by apply at_invalid|done].
Qed.

Lemma at_clearSquare b sq sq' :
  at_ (clearSquare b sq) sq' = if decide (sq' = sq) then None else at_ b sq'.
Proof.
  unfold clearSquare. rewrite at_setPiece.
  destruct (decide (sq' = sq)); [|done]. by destruct (isValid sq).
Qed.

(** Reading a square after [Board::movePiece]. *)
Lemma at_movePiece b m sq :
  at_ (movePiece b m) sq =
  if decide (sq = from m) then None
  else if decide (sq = to m)
       then (if isValid (to m) then at_ b (from m) else None)
       else at_ b sq.
Proof.
  unfold movePiece. rewrite !at_gridSet.
  destruct (decide (sq = from m)); [|done]. by destruct (isValid (from m)).
Qed.

Lemma pieceIs_spec b sq t c :
  pieceIs b sq t c = true <-> at_ b sq = Some (mkPiece t c).
Proof.
  unfold pieceIs. destruct (at_ b sq) as [[t' c']|]; simpl.
  - rewrite andb_true_iff, !bool_decide_eq_true. naive_solver.
  - naive_solver.
Qed.

Lemma hasPieceAt_false b sq :
  isValid sq = true -> hasPieceAt b sq = false <-> at_ b sq = None.
Proof.
  intros Hv. unfold hasPieceAt. rewrite Hv. simpl.
  rewrite bool_decide_eq_false. destruct (at_ b sq) as [p|].
  - split; [intros H; exfalso; apply H; eauto | discriminate].
  - split; [done | intros _ [x Hx]; discriminate].
Qed.

Lemma hasPieceAtColor_spec b sq c :
  hasPieceAtColor b sq c = true <-> exists p, at_ b sq = Some p /\ color p = c.
Proof.
  unfold hasPieceAtColor. destruct (isValid sq) eqn:Hv; simpl.
  - destruct (at_ b sq) as [p|].
    + rewrite bool_decide_eq_true. split; [eauto|].
      intros (q & Hq & Hc). congruence.
    + split; [discriminate|]. intros (q & Hq & _). discriminate.
  - rewrite at_invalid by done.
    split; [discriminate|]. intros (q & Hq & _). discriminate.
Qed.

(** ** The loops over all squares *)

Lemma in_indices z : In z indices <-> 0 <= z < 8.
Proof. unfold indices. simpl. lia. Qed.

Lemma in_allSquares sq : In sq allSquares <-> isValid sq = true.
Proof.
  unfold allSquares. rewrite in_flat_map, isValid_spec. split.
  - intros (r & Hr & Hin). apply in_map_iff in Hin as (f & <- & Hf).
    apply in_indices in Hr, Hf. simpl. lia.
  - intros [Hr Hf]. exists (rank sq). split; [by apply in_indices|].
    apply in_map_iff. exists (file sq). split; [by destruct sq|by apply in_indices].
Qed.

Lemma findKing_Some b side k :
  findKing b side = Some k -> at_ b k = Some (mkPiece King side).
Proof.
  unfold findKing. intros H. apply find_some in H as [_ H].
  by apply pieceIs_spec.
Qed.

Lemma findKing_None b side :
  findKing b side = None <-> forall sq, at_ b sq <> Some (mkPiece King side).
Proof.
  unfold findKing. split.
  - intros H sq Hsq.
    pose proof (find_none _ _ H sq) as Hn.
    rewrite in_allSquares in Hn.
    specialize (Hn (at_Some_valid _ _ _ Hsq)).
    apply pieceIs_spec in Hsq. congruence.
  - intros H. destruct (find _ _) as [k|] eqn:E; [|done].
    apply find_some in E as [_ E]. apply pieceIs_spec in E. by destruct (H k).
Qed.

(** ** Membership in the vectors built by the generators *)

Section Loops.
Context {B : Type} (step : list Move -> B -> list Move).

(** A loop whose body only pushes keeps what was pushed before. *)
Lemma fold_left_keeps (l : list B) (acc : list Move) (m : Move) :
  (forall acc x, In m acc -> In m (step acc x)) ->
  In m acc -> In m (fold_left step l acc).
Proof.
  intros Hstep. revert acc. induction l as [|x l IH]; intros acc Hin; simpl.
  - done.
  - apply IH, Hstep, Hin.
Qed.

(** What a loop pushed was pushed by one of its iterations. *)
Lemma fold_left_pushed (S : B -> Prop) (l : list B) (acc : list Move) (m : Move) :
  (forall acc x, In m (step acc x) -> In m acc \/ S x) ->
  In m (fold_left step l acc) -> In m acc \/ exists x, In x l /\ S x.
Proof.
  intros Hstep. revert acc. induction l as [|x l IH]; intros acc Hin; simpl in *.
  - by left.
  - destruct (IH _ Hin) as [H | (y & Hy & HS)].
    + destruct (Hstep _ _ H) as [H' | H']; [by left|].
      right. exists x. auto.
    + right. exists y. auto.
Qed.

(** What one iteration pushes is in the final vector. *)
Lemma fold_left_pushes (S : B -> Prop) (l : list B) (acc : list Move) (m : Move) :
  (forall acc x, In m acc -> In m (step acc x)) ->
  (forall acc x, S x -> In m (step acc x)) ->
  (exists x, In x l /\ S x) -> In m (fold_left step l acc).
Proof.
  intros Hkeep Hstep. revert acc.
  induction l as [|x l IH]; intros acc (y & Hy & HS); simpl in *; [done|].
  destruct Hy as [-> | Hy].
  - apply fold_left_keeps; [done|]. by apply Hstep.
  - apply IH. eauto.
Qed.
End Loops.

Section Generators.
Variables (b : Board) (side : Color).

Lemma in_pushIfLegal moves move m :
  In m (pushIfLegal moves b move side) <->
  In m moves \/ (m = move /\ isMoveLegal b move side = true).
Proof.
  unfold pushIfLegal. destruct (isMoveLegal b move side).
  - rewrite in_app_iff. simpl. naive_solver.
  - naive_solver.
Qed.

Lemma in_addMoveIfLegal moves from_ to_ m :
  In m (addMoveIfLegal moves b from_ to_ side) <->
  In m moves \/ (m = plainMove from_ to_ /\ isMoveLegal b m side = true).
Proof. unfold addMoveIfLegal. rewrite in_pushIfLegal. naive_solver. Qed.

Lemma hasPieceAtColor_None sq c : at_ b sq = None -> hasPieceAtColor b sq c = false.
Proof.
  intros H. destruct (hasPieceAtColor b sq c) eqn:E; [|done].
  apply hasPieceAtColor_spec in E as (p & Hp & _). congruence.
Qed.

Lemma hasPieceAtColor_opponent sq :
  hasPieceAtColor b sq (opponent side) = true -> hasPieceAtColor b sq side = false.
Proof.
  intros H. apply hasPieceAtColor_spec in H as (p & Hp & Hc).
  destruct (hasPieceAtColor b sq side) eqn:E; [|done].
  apply hasPieceAtColor_spec in E as (q & Hq & Hc').
  rewrite Hp in Hq. injection Hq as <-. rewrite Hc' in Hc. by destruct side.
Qed.

Lemma plainShape_intro from_ to_ m :
  m = plainMove from_ to_ -> isMoveLegal b m side = true ->
  isValid to_ = true -> hasPieceAtColor b to_ side = false ->
  plainShape b side from_ m.
Proof. intros. exists to_. auto. Qed.

(** *** Knights *)

Lemma generateKnightMoves_keeps moves from_ m :
  In m moves -> In m (generateKnightMoves moves b from_ side).
Proof.
  unfold generateKnightMoves. apply fold_left_keeps.
  intros acc [dr df] Hin.
  repeat case_match; try done; apply in_addMoveIfLegal; by left.
Qed.

Lemma generateKnightMoves_pushed moves from_ m :
  In m (generateKnightMoves moves b from_ side) ->
  In m moves \/ plainShape b side from_ m.
Proof.
  unfold generateKnightMoves. intros H.
  apply (fold_left_pushed _ (fun _ => plainShape b side from_ m)) in H.
  - destruct H as [H | (x & _ & H)]; auto.
  - clear H. intros acc [dr df] H.
    destruct (isValid _) eqn:Hv; simpl in H; [|by left].
    destruct (hasPieceAtColor _ _ _) eqn:Hc; [by left|].
    apply in_addMoveIfLegal in H as [H | [-> Hl]]; [by left|].
    right. eapply plainShape_intro; eauto.
Qed.

(** *** Bishops, rooks and queens *)

Lemma slideWalk_keeps fuel moves from_ dr df r f m :
  In m moves -> In m (slideWalk fuel moves b from_ side dr df r f).
Proof.
  revert moves r f. induction fuel as [|n IH]; intros moves r f Hin; simpl; [done|].
  destruct (isValidSquare r f); [|done].
  destruct (at_ b _) as [dest|].
  - case_bool_decide; [|done]. apply in_addMoveIfLegal. by left.
  - apply IH. apply in_addMoveIfLegal. by left.
Qed.

Lemma slideWalk_pushed fuel moves from_ dr df r f m :
  In m (slideWalk fuel moves b from_ side dr df r f) ->
  In m moves \/ plainShape b side from_ m.
Proof.
  revert moves r f. induction fuel as [|n IH]; intros moves r f Hin; simpl in *;
    [by left|].
  destruct (isValidSquare r f) eqn:Hv; [|by left].
  rewrite isValidSquare_isValid in Hv.
  destruct (at_ b _) as [dest|] eqn:Hd.
  - case_bool_decide as Hc; [|by left].
    apply in_addMoveIfLegal in Hin as [H | [-> Hl]]; [by left|].
    right. eapply plainShape_intro; eauto.
    destruct (hasPieceAtColor b _ side) eqn:E; [|done].
    apply hasPieceAtColor_spec in E as (q & Hq & Hc'). congruence.
  - apply IH in Hin as [Hin | Hin]; [|by right].
    apply in_addMoveIfLegal in Hin as [H | [-> Hl]]; [by left|].
    right. eapply plainShape_intro; eauto using hasPieceAtColor_None.
Qed.

Lemma generateSlidingMoves_keeps moves from_ directions m :
  In m moves -> In m (generateSlidingMoves moves b from_ side directions).
Proof.
  unfold generateSlidingMoves. apply fold_left_keeps.
  intros acc [dr df]. apply slideWalk_keeps.
Qed.

Lemma generateSlidingMoves_pushed moves from_ directions m :
  In m (generateSlidingMoves moves b from_ side directions) ->
  In m moves \/ plainShape b side from_ m.
Proof.
  unfold generateSlidingMoves. intros H.
  apply (fold_left_pushed _ (fun _ => plainShape b side from_ m)) in H.
  - destruct H as [H | (x & _ & H)]; auto.
  - intros acc [dr df]. apply slideWalk_pushed.
Qed.
End Generators.

Section MoreGenerators.
Variables (b : Board) (side : Color).

(** *** Pawns *)

(** The pushes and the captures of [generatePawnMoves], that is the
    vector as it stands when the en-passant test is reached. *)
Local Ltac pawn_stages moves :=
  unfold generatePawnMoves; cbv zeta;
  match goal with
  | |- context [fold_left ?s ?l ?a] =>
      set (pushes := a); set (captures := fold_left s l pushes)
  end.

Lemma generatePawnMoves_keeps moves from_ last_move m :
  In m moves -> In m (generatePawnMoves moves b from_ side last_move).
Proof.
  intros Hin. pawn_stages moves.
  assert (In m pushes) as Hp.
  { subst pushes. repeat case_match; try done;
      repeat (apply in_addMoveIfLegal; left); done. }
  assert (In m captures) as Hc.
  { subst captures. apply fold_left_keeps; [|done].
    intros acc df H. repeat case_match; try done;
      apply in_addMoveIfLegal; by left. }
  repeat case_match; try done; apply in_pushIfLegal; by left.
Qed.

Lemma generatePawnMoves_pushed moves from_ last_move m :
  In m (generatePawnMoves moves b from_ side last_move) ->
  In m moves \/ plainShape b side from_ m \/ enPassantShape b side last_move from_ m.
Proof.
  pawn_stages moves. intros H.
  assert (In m pushes -> In m moves \/ plainShape b side from_ m) as Hp.
  { subst pushes. clear H. intros H.
    destruct (isValid _ && negb (hasPieceAt b _)) eqn:E1; [|by left].
    apply andb_true_iff in E1 as [Hv1 He1]. apply negb_true_iff in He1.
    apply hasPieceAt_false in He1; [|done].
    destruct (_ && negb (hasPieceAt b _)) eqn:E2.
    - apply andb_true_iff in E2 as [E2 He2].
      apply andb_true_iff in E2 as [_ Hv2]. apply negb_true_iff in He2.
      apply hasPieceAt_false in He2; [|done].
      apply in_addMoveIfLegal in H as [H | [-> Hl]].
      + apply in_addMoveIfLegal in H as [H | [-> Hl]]; [by left|].
        right. eapply plainShape_intro; eauto using hasPieceAtColor_None.
      + right. eapply plainShape_intro; eauto using hasPieceAtColor_None.
    - apply in_addMoveIfLegal in H as [H | [-> Hl]]; [by left|].
      right. eapply plainShape_intro; eauto using hasPieceAtColor_None. }
  clearbody pushes.
  assert (In m captures -> In m moves \/ plainShape b side from_ m) as Hc.
  { subst captures. clear H. intros H.
    apply (fold_left_pushed _ (fun _ => plainShape b side from_ m)) in H.
    - destruct H as [H | (x & _ & H)]; auto.
    - clear H. intros acc df H.
      destruct (isValid _) eqn:Hv; simpl in H; [|by left].
      destruct (hasPieceAtColor _ _ _) eqn:Hcol; [|by left].
      apply in_addMoveIfLegal in H as [H | [-> Hl]]; [by left|].
      right. eapply plainShape_intro; eauto using hasPieceAtColor_opponent. }
  destruct last_move as [lm|]; [|destruct (Hc H); auto].
  destruct (at_ b (to lm)) as [[t c]|] eqn:Hat; [|destruct (Hc H); auto].
  simpl in H.
  destruct (_ && (Z.abs _ =? 2)) eqn:E1; [|destruct (Hc H); auto].
  destruct (_ && (Z.abs _ =? 1)) eqn:E2; [|destruct (Hc H); auto].
  apply in_pushIfLegal in H as [H | [-> Hl]]; [destruct (Hc H); auto|].
  right. right. exists lm.
  apply andb_true_iff in E1 as [E1 Habs]. apply andb_true_iff in E1 as [Ht Hcol].
  apply andb_true_iff in E2 as [Hr Hf].
  apply bool_decide_eq_true in Ht, Hcol. subst t c.
  repeat split; auto; lia.
Qed.

Lemma generatePawnMoves_en_passant moves from_ last_move m :
  enPassantShape b side last_move from_ m ->
  In m (generatePawnMoves moves b from_ side last_move).
Proof.
  intros (lm & -> & Hat & Habs & Hr & Hf & -> & Hl).
  pawn_stages moves. rewrite Hat. simpl.
  rewrite !bool_decide_eq_true_2 by done.
  replace (Z.abs (rank (from lm) - rank (to lm)) =? 2) with true by lia.
  replace (rank from_ =? rank (to lm)) with true by lia.
  replace (Z.abs (file from_ - file (to lm)) =? 1) with true by lia.
  simpl. apply in_pushIfLegal. right. auto.
Qed.

(** *** Kings *)

Local Ltac king_stages :=
  unfold generateKingMoves; cbv zeta;
  match goal with
  | |- context [fold_left ?s ?l ?a] => set (steps := fold_left s l a)
  end.

Lemma generateKingMoves_keeps moves from_ rights m :
  In m moves -> In m (generateKingMoves moves b from_ side rights).
Proof.
  intros Hin. king_stages.
  assert (In m steps) as Hs.
  { subst steps. apply fold_left_keeps; [|done].
    intros acc dr H. apply fold_left_keeps; [|done].
    clear. intros acc' df H'. repeat case_match; try done;
      apply in_addMoveIfLegal; by left. }
  repeat case_match; try done;
    repeat (apply in_pushIfLegal; left); done.
Qed.

Lemma generateKingMoves_pushed moves from_ rights m :
  In m (generateKingMoves moves b from_ side rights) ->
  In m moves \/ plainShape b side from_ m \/
  kingsideShape b side rights from_ m \/ queensideShape b side rights from_ m.
Proof.
  king_stages. intros H.
  assert (In m steps -> In m moves \/ plainShape b side from_ m) as Hs.
  { subst steps. clear H. intros H.
    apply (fold_left_pushed _ (fun _ => plainShape b side from_ m)) in H.
    - destruct H as [H | (x & _ & H)]; auto.
    - clear H. intros acc dr H.
      apply (fold_left_pushed _ (fun _ => plainShape b side from_ m)) in H.
      + destruct H as [H | (x & _ & H)]; auto.
      + clear H. intros acc' df H.
        destruct ((dr =? 0) && (df =? 0)); [by left|].
        destruct (isValid _) eqn:Hv; simpl in H; [|by left].
        destruct (hasPieceAtColor _ _ _) eqn:Hcol; [by left|].
        apply in_addMoveIfLegal in H as [H | [-> Hl]]; [by left|].
        right. eapply plainShape_intro; eauto. }
  destruct (negb (rank from_ =? _) || negb (file from_ =? 4)) eqn:Ehome;
    [destruct (Hs H); auto|].
  apply orb_false_iff in Ehome as [Er Ef].
  apply negb_false_iff in Er, Ef.
  assert (from_ = mkSquare (homeRank side) 4) as Hfrom.
  { destruct from_ as [r f]. simpl in *. unfold homeRank.
    f_equal; destruct side; lia. }
  destruct (isSquareAttacked b from_ (opponent side)) eqn:Eatt;
    [destruct (Hs H); auto|].
  fold (homeRank side) in H. fold (kingsideRight side rights) in H.
  fold (queensideRight side rights) in H.
  match type of H with
  | In m (if ?q then pushIfLegal ?ks _ _ _ else _) =>
      set (afterKingside := ks) in *;
      assert (In m afterKingside ->
              In m moves \/ plainShape b side from_ m \/
              kingsideShape b side rights from_ m) as Hk
  end.
  { subst afterKingside. clear H. intros H.
    match type of H with
    | In m (if ?c then _ else _) => destruct c eqn:Ek
    end; [|destruct (Hs H); auto].
    apply in_pushIfLegal in H as [H | [-> Hl]]; [destruct (Hs H); auto|].
    right. right.
    repeat (apply andb_true_iff in Ek as [Ek ?]).
    repeat match goal with
           | X : _ && _ = true |- _ => apply andb_true_iff in X as [? ?]
           | X : negb _ = true |- _ => apply negb_true_iff in X
           | X : pieceIs _ _ _ _ = true |- _ => apply pieceIs_spec in X
           | X : hasPieceAt _ _ = false |- _ =>
               apply hasPieceAt_false in X;
               [|by (unfold homeRank; destruct side)]
           end.
    unfold kingsideShape. repeat split; auto. }
  match type of H with
  | In m (if ?c then _ else _) => destruct c eqn:Eq
  end; [|destruct (Hk H) as [?|[?|?]]; auto].
  apply in_pushIfLegal in H as [H | [-> Hl]];
    [destruct (Hk H) as [?|[?|?]]; auto|].
  right. right. right.
  repeat (apply andb_true_iff in Eq as [Eq ?]).
  repeat match goal with
         | X : _ && _ = true |- _ => apply andb_true_iff in X as [? ?]
         | X : negb _ = true |- _ => apply negb_true_iff in X
         | X : pieceIs _ _ _ _ = true |- _ => apply pieceIs_spec in X
         | X : hasPieceAt _ _ = false |- _ =>
             apply hasPieceAt_false in X;
             [|by (unfold homeRank; destruct side)]
         end.
  unfold queensideShape. repeat split; auto.
Qed.
End MoreGenerators.

(** ** The shape of the moves of [Rules::legalMoves] *)

Section LegalMoves.
Variables (b : Board) (side : Color) (last_move : option Move)
          (rights : CastlingRights).

Lemma generateFrom_keeps moves sq m :
  In m moves -> In m (generateFrom moves b side last_move rights sq).
Proof.
  intros H. unfold generateFrom.
  destruct (at_ b sq) as [[t c]|]; [|exact H]. cbn [type color].
  case_bool_decide; [exact H|].
  destruct t.
  - by apply generatePawnMoves_keeps.
  - by apply generateKnightMoves_keeps.
  - by apply generateSlidingMoves_keeps.
  - by apply generateSlidingMoves_keeps.
  - by apply generateSlidingMoves_keeps.
  - by apply generateKingMoves_keeps.
Qed.

Lemma generateFrom_pushed moves sq m :
  In m (generateFrom moves b side last_move rights sq) ->
  In m moves \/ movedFrom b side last_move rights sq m.
Proof.
  unfold generateFrom, movedFrom. intros H.
  destruct (at_ b sq) as [[t c]|] eqn:Hat; [|by left]. cbn [type color] in H.
  case_bool_decide as Hc; [by left|].
  assert (c = side) as -> by (by destruct (decide (c = side))).
  destruct t.
  - apply generatePawnMoves_pushed in H as [H|[H|H]]; [by left|..];
      right; eexists; (repeat split; [done..|]); eauto.
  - apply generateKnightMoves_pushed in H as [H|H]; [by left|];
      right; eexists; (repeat split; [done..|]); eauto.
  - apply generateSlidingMoves_pushed in H as [H|H]; [by left|];
      right; eexists; (repeat split; [done..|]); eauto.
  - apply generateSlidingMoves_pushed in H as [H|H]; [by left|];
      right; eexists; (repeat split; [done..|]); eauto.
  - apply generateSlidingMoves_pushed in H as [H|H]; [by left|];
      right; eexists; (repeat split; [done..|]); eauto.
  - apply generateKingMoves_pushed in H as [H|[H|H]]; [by left|..];
      right; eexists; (repeat split; [done..|]); eauto.
Qed.

Lemma generateFrom_en_passant moves sq m :
  at_ b sq = Some (mkPiece Pawn side) ->
  enPassantShape b side last_move sq m ->
  In m (generateFrom moves b side last_move rights sq).
Proof.
  intros Hat Hep. unfold generateFrom. rewrite Hat. cbn [type color].
  rewrite bool_decide_eq_false_2 by (intros H; by apply H).
  by apply generatePawnMoves_en_passant.
Qed.

(** Every legal move was pushed for the piece on some square. *)
Lemma legalMoves_pushed m :
  In m (legalMoves b side last_move rights) ->
  exists sq, isValid sq = true /\ movedFrom b side last_move rights sq m.
Proof.
  unfold legalMoves. intros H.
  apply (fold_left_pushed _
           (fun r => exists f, In f indices /\ movedFrom b side last_move rights (mkSquare r f) m)) in H.
  - destruct H as [[] | (r & Hr & f & Hf & H)].
    exists (mkSquare r f). split; [|done].
    apply isValid_spec. apply in_indices in Hr, Hf. simpl. lia.
  - clear H. intros acc r H.
    apply (fold_left_pushed _ (fun f => movedFrom b side last_move rights (mkSquare r f) m)) in H;
      [done|].
    intros acc' f. apply generateFrom_pushed.
Qed.

(** The en-passant move of a pawn of the side to move is pushed. *)
Lemma legalMoves_en_passant sq m :
  at_ b sq = Some (mkPiece Pawn side) ->
  enPassantShape b side last_move sq m ->
  In m (legalMoves b side last_move rights).
Proof.
  intros Hat Hep. unfold legalMoves.
  pose proof (at_Some_valid _ _ _ Hat) as Hv. apply isValid_spec in Hv as [Hr Hf].
  apply (fold_left_pushes _ (fun r => r = rank sq)).
  - intros acc r H. apply fold_left_keeps; [|done].
    intros acc' f. apply generateFrom_keeps.
  - intros acc r ->.
    apply (fold_left_pushes _ (fun f => f = file sq)).
    + intros acc' f. apply generateFrom_keeps.
    + intros acc' f ->. destruct sq as [r f]. simpl.
      by apply generateFrom_en_passant.
    + exists (file sq). split; [by apply in_indices|done].
  - exists (rank sq). split; [by apply in_indices|done].
Qed.

Lemma plainShape_facts sq m :
  plainShape b side sq m ->
  from m = sq /\ isValid (to m) = true /\ en_passant m = false /\
  castling m = false /\ promotion m = None /\
  hasPieceAtColor b (to m) side = false /\ isMoveLegal b m side = true.
Proof. intros (t & -> & Hv & Hc & Hl). simpl. repeat split; auto. Qed.

Lemma enPassantShape_facts sq m :
  enPassantShape b side last_move sq m ->
  from m = sq /\ en_passant m = true /\ castling m = false /\
  promotion m = None /\ isMoveLegal b m side = true.
Proof. intros (lm & _ & _ & _ & _ & _ & -> & Hl). simpl. repeat split; auto. Qed.

Lemma kingsideShape_facts sq m :
  kingsideShape b side rights sq m ->
  from m = sq /\ en_passant m = false /\ castling m = true /\
  promotion m = None /\ to m = mkSquare (homeRank side) 6 /\
  isMoveLegal b m side = true.
Proof. intros (_ & _ & _ & _ & _ & _ & _ & _ & -> & Hl). simpl. repeat split; auto. Qed.

Lemma queensideShape_facts sq m :
  queensideShape b side rights sq m ->
  from m = sq /\ en_passant m = false /\ castling m = true /\
  promotion m = None /\ to m = mkSquare (homeRank side) 2 /\
  isMoveLegal b m side = true.
Proof. intros (_ & _ & _ & _ & _ & _ & _ & _ & _ & -> & Hl). simpl. repeat split; auto. Qed.

Lemma movedFrom_from sq m : movedFrom b side last_move rights sq m -> from m = sq.
Proof.
  intros (p & _ & _ & [H | [[_ H] | [_ [H | H]]]]).
  - by apply plainShape_facts in H as [? _].
  - by apply enPassantShape_facts in H as [? _].
  - by apply kingsideShape_facts in H as [? _].
  - by apply queensideShape_facts in H as [? _].
Qed.

Lemma movedFrom_legal sq m : movedFrom b side last_move rights sq m -> isMoveLegal b m side = true.
Proof.
  intros (p & _ & _ & [H | [[_ H] | [_ [H | H]]]]).
  - by apply plainShape_facts in H as (_ & _ & _ & _ & _ & _ & ?).
  - by apply enPassantShape_facts in H as (_ & _ & _ & _ & ?).
  - by apply kingsideShape_facts in H as (_ & _ & _ & _ & _ & ?).
  - by apply queensideShape_facts in H as (_ & _ & _ & _ & _ & ?).
Qed.

(** Every move of the list passed the filter of [isMoveLegal]. *)
Lemma legalMoves_filtered m :
  In m (legalMoves b side last_move rights) -> isMoveLegal b m side = true.
Proof.
  intros H. apply legalMoves_pushed in H as (sq & _ & H).
  by eapply movedFrom_legal.
Qed.

Lemma legalMoves_moved m :
  In m (legalMoves b side last_move rights) -> movedFrom b side last_move rights (from m) m.
Proof.
  intros H. apply legalMoves_pushed in H as (sq & _ & H).
  by rewrite (movedFrom_from _ _ H).
Qed.
End LegalMoves.

(* ================================================================== *)
(** * The session                                                      *)
(* ================================================================== *)

Lemma matchingMove_Some g move m :
  matchingMove g move = Some m ->
  In m (gameLegalMoves g) /\ from m = from move /\ to m = to move.
Proof.
  unfold matchingMove, gameLegalMoves. intros H.
  apply find_some in H as [Hin Hs]. unfold sameSquares in Hs.
  apply andb_true_iff in Hs as [H1 H2].
  apply bool_decide_eq_true in H1, H2. auto.
Qed.

Lemma matchingMove_None g move :
  matchingMove g move = None <->
  forall m, In m (gameLegalMoves g) -> ~ (from m = from move /\ to m = to move).
Proof.
  unfold matchingMove, gameLegalMoves. split.
  - intros H m Hin [H1 H2]. pose proof (find_none _ _ H m Hin) as Hn.
    unfold sameSquares in Hn. rewrite !bool_decide_eq_true_2 in Hn by done.
    discriminate.
  - intros H. destruct (find _ _) as [m|] eqn:E; [|done].
    apply find_some in E as [Hin Hs]. unfold sameSquares in Hs.
    apply andb_true_iff in Hs as [H1 H2].
    apply bool_decide_eq_true in H1, H2. destruct (H m Hin). auto.
Qed.

Lemma makeMove_true g move g' :
  makeMove g move = (true, g') ->
  exists m,
    matchingMove g move = Some m /\
    g' = mkGame (handleSpecialMoves (board_ g) m) (opponent (side_to_move_ g))
                (Some m)
                (updateCastlingRights (handleSpecialMoves (board_ g) m)
                   (side_to_move_ g) (castling_rights_ g) m).
Proof.
  unfold makeMove. destruct (matchingMove g move) as [m|]; [|discriminate].
  intros H. injection H as <-. eauto.
Qed.

(** C2. A candidate whose pair of squares matches no legal move is
    rejected: [makeMove] returns [false] and the session it leaves is the
    session it found, board, side to move, last move and the four rights
    alike; the legal moves are therefore the same as before. *)
Theorem makeMove_rejects_atomically (g : ChessGame) (move : Move) :
  (forall m, In m (gameLegalMoves g) ->
             ~ (from m = from move /\ to m = to move)) ->
  makeMove g move = (false, g) /\
  board_ (snd (makeMove g move)) = board_ g /\
  side_to_move_ (snd (makeMove g move)) = side_to_move_ g /\
  last_move_ (snd (makeMove g move)) = last_move_ g /\
  castling_rights_ (snd (makeMove g move)) = castling_rights_ g /\
  gameLegalMoves (snd (makeMove g move)) = gameLegalMoves g.
Proof.
  intros H. apply matchingMove_None in H.
  unfold makeMove. rewrite H. simpl. repeat split; reflexivity.
Qed.

Lemma makeMove_rejects_atomically_witness :
  makeMove newGame (mv 6 4 3 4) = (false, newGame) /\
  board_ (snd (makeMove newGame (mv 6 4 3 4))) = board_ newGame /\
  side_to_move_ (snd (makeMove newGame (mv 6 4 3 4))) = side_to_move_ newGame /\
  last_move_ (snd (makeMove newGame (mv 6 4 3 4))) = last_move_ newGame /\
  castling_rights_ (snd (makeMove newGame (mv 6 4 3 4))) = castling_rights_ newGame /\
  gameLegalMoves (snd (makeMove newGame (mv 6 4 3 4))) = gameLegalMoves newGame.
Proof.
  apply (makeMove_rejects_atomically newGame (mv 6 4 3 4)).
  apply matchingMove_None. vm_compute. reflexivity.
Defined.

(** C3. Right after [newGame] (the starting position, White to move, no
    last move, the four rights held) there are exactly 20 legal moves:
    16 by pawns, 8 of one rank and 8 of two ranks, and 4 by knights. *)
Theorem newGame_has_twenty_moves :
  board_ newGame = reset /\ side_to_move_ newGame = White /\
  last_move_ newGame = None /\
  castling_rights_ newGame = [# true; true; true; true] /\
  length (gameLegalMoves newGame) = 20%nat /\
  length (movesOf reset Pawn (gameLegalMoves newGame)) = 16%nat /\
  length (pushesBy 1 (movesOf reset Pawn (gameLegalMoves newGame))) = 8%nat /\
  length (pushesBy 2 (movesOf reset Pawn (gameLegalMoves newGame))) = 8%nat /\
  length (movesOf reset Knight (gameLegalMoves newGame)) = 4%nat.
Proof. vm_compute. repeat split; reflexivity. Qed.

(** ** Castling rights only ever decrease *)

Lemma vinsert_false_true {n} (v : vec bool n) (i j : fin n) :
  vinsert j false v !!! i = true <-> v !!! i = true /\ i <> j.
Proof.
  destruct (decide (i = j)) as [->|Hne].
  - rewrite vlookup_insert. split; [discriminate|]. by intros [_ ?].
  - rewrite vlookup_insert_ne by done. split; [auto|]. by intros [? _].
Qed.

Lemma fin4_cases (i : fin 4) : i = 0%fin \/ i = 1%fin \/ i = 2%fin \/ i = 3%fin.
Proof.
  inv_fin i; [auto|]. intros i. inv_fin i; [auto|]. intros i.
  inv_fin i; [auto|]. intros i. inv_fin i; [auto|]. intros i. inv_fin i.
Qed.

Lemma corner_inj i j : corner i = corner j -> i = j.
Proof.
  destruct (fin4_cases i) as [-> | [-> | [-> | ->]]];
    destruct (fin4_cases j) as [-> | [-> | [-> | ->]]];
    vm_compute; intros H; first [reflexivity | discriminate H].
Qed.

Lemma corner_spec i :
  corner i = mkSquare 7 7 \/ corner i = mkSquare 7 0 \/
  corner i = mkSquare 0 7 \/ corner i = mkSquare 0 0.
Proof. destruct (fin4_cases i) as [-> | [-> | [-> | ->]]]; vm_compute; auto. Qed.

Lemma corner_rank i :
  rank (corner i) = homeRank (rightColor i) /\
  (file (corner i) = 0 \/ file (corner i) = 7).
Proof. destruct (fin4_cases i) as [-> | [-> | [-> | ->]]]; vm_compute; auto. Qed.

Lemma revokeIfRookSquare_true rights sq i :
  revokeIfRookSquare rights sq !!! i = true <->
  rights !!! i = true /\ sq <> corner i.
Proof.
  unfold revokeIfRookSquare.
  assert (forall j, sq = corner j ->
                    vinsert j false rights !!! i = true <->
                    rights !!! i = true /\ sq <> corner i) as Hj.
  { intros j ->. rewrite vinsert_false_true. split; intros [Hv Hne]; split; auto.
    - intros Hc. apply Hne. symmetry. by apply corner_inj.
    - intros ->. by apply Hne. }
  assert (sq <> mkSquare 7 7 -> sq <> mkSquare 7 0 -> sq <> mkSquare 0 7 ->
          sq <> mkSquare 0 0 ->
          rights !!! i = true <-> rights !!! i = true /\ sq <> corner i) as Hn.
  { intros N1 N2 N3 N4. split; [|by intros [? _]]. intros Hr. split; [done|].
    intros Hc. destruct (corner_spec i) as [E|[E|[E|E]]]; congruence. }
  destruct sq as [r f]. simpl.
  destruct (Z.eqb_spec r 7) as [->|Hr7].
  - destruct (Z.eqb_spec f 0) as [->|Hf0]; [by apply (Hj 1%fin)|].
    destruct (Z.eqb_spec f 7) as [->|Hf7]; [by apply (Hj 0%fin)|].
    apply Hn; congruence.
  - destruct (Z.eqb_spec r 0) as [->|Hr0].
    + destruct (Z.eqb_spec f 0) as [->|Hf0]; [by apply (Hj 3%fin)|].
      destruct (Z.eqb_spec f 7) as [->|Hf7]; [by apply (Hj 2%fin)|].
      apply Hn; congruence.
    + apply Hn; congruence.
Qed.

(** A right survives [updateCastlingRights] exactly when it was held,
    neither square of the move is its corner, and the piece now standing
    on the destination is not a king moved by its colour. *)
Lemma updateCastlingRights_true b side rights m i :
  updateCastlingRights b side rights m !!! i = true <->
  rights !!! i = true /\ from m <> corner i /\ to m <> corner i /\
  ~ (exists p, at_ b (to m) = Some p /\ type p = King /\ side = rightColor i).
Proof.
  unfold updateCastlingRights.
  rewrite !revokeIfRookSquare_true.
  assert (forall c : Color,
            match c with
            | White => vinsert 1%fin false (vinsert 0%fin false rights)
            | Black => vinsert 3%fin false (vinsert 2%fin false rights)
            end !!! i = true <-> rights !!! i = true /\ c <> rightColor i) as Hking.
  { intros c. destruct c; rewrite !vinsert_false_true;
      destruct (fin4_cases i) as [-> | [-> | [-> | ->]]]; vm_compute;
      intuition congruence. }
  destruct (at_ b (to m)) as [p|] eqn:Hp.
  - case_bool_decide as Hk.
    + rewrite Hking. split.
      * intros [[[Hr Hs] Hf] Ht]. repeat split; auto.
        intros (q & Hq & _ & Hc). congruence.
      * intros (Hr & Hf & Ht & Hn). repeat split; auto.
        intros Hs. apply Hn. eauto.
    + split.
      * intros [[Hr Hf] Ht]. repeat split; auto.
        intros (q & Hq & Hk' & _). congruence.
      * intros (Hr & Hf & Ht & _). auto.
  - split.
    + intros [[Hr Hf] Ht]. repeat split; auto.
      intros (q & Hq & _). congruence.
    + intros (Hr & Hf & Ht & _). auto.
Qed.

Lemma makeMove_rights_true g move i :
  castling_rights_ (snd (makeMove g move)) !!! i = true ->
  castling_rights_ g !!! i = true.
Proof.
  unfold makeMove. destruct (matchingMove g move) as [m|]; simpl; [|done].
  intros H. by apply updateCastlingRights_true in H as [H _].
Qed.

Lemma playAll_rights_true g moves i :
  castling_rights_ (playAll g moves) !!! i = true ->
  castling_rights_ g !!! i = true.
Proof.
  unfold playAll. revert g. induction moves as [|m moves IH]; intros g H; simpl in *.
  - done.
  - apply IH in H. by apply makeMove_rights_true in H.
Qed.

(** C8. Over any run of [makeMove] calls on one session, accepted or
    rejected, a castling right that is [false] before the run is [false]
    after it: each of the four booleans only ever goes from [true] to
    [false]. *)
Theorem castling_rights_never_return (g : ChessGame) (moves : list Move)
    (i : fin 4) :
  castling_rights_ g !!! i = false ->
  castling_rights_ (playAll g moves) !!! i = false.
Proof.
  intros H. destruct (castling_rights_ (playAll g moves) !!! i) eqn:E; [|done].
  apply playAll_rights_true in E. congruence.
Qed.

Lemma castling_rights_never_return_witness :
  castling_rights_
    (playAll (playAll newGame [mv 6 4 4 4; mv 1 4 3 4; mv 7 4 6 4])
             [mv 1 3 2 3; mv 6 4 7 4; mv 0 0 4 4]) !!! 0%fin = false.
Proof.
  apply (castling_rights_never_return
           (playAll newGame [mv 6 4 4 4; mv 1 4 3 4; mv 7 4 6 4])
           [mv 1 3 2 3; mv 6 4 7 4; mv 0 0 4 4] 0%fin).
  vm_compute. reflexivity.
Defined.

(** ** A board without a king *)

Lemma movePiece_origin b m sq p :
  at_ (movePiece b m) sq = Some p -> exists sq', at_ b sq' = Some p.
Proof.
  rewrite at_movePiece. repeat case_decide; try discriminate.
  - destruct (isValid (to m)); [eauto|discriminate].
  - eauto.
Qed.

Lemma clearSquare_origin b c sq p :
  at_ (clearSquare b c) sq = Some p -> at_ b sq = Some p.
Proof. rewrite at_clearSquare. by case_decide. Qed.

(** The scratch copy of [isMoveLegal] holds no piece that the board did
    not hold. *)
Lemma scratch_origin b m sq p :
  at_ (scratch b m) sq = Some p -> exists sq', at_ b sq' = Some p.
Proof.
  unfold scratch. destruct (en_passant m).
  - intros H. apply clearSquare_origin in H. by eapply movePiece_origin.
  - apply movePiece_origin.
Qed.

Lemma isMoveLegal_needs_king b m side :
  (forall sq, at_ b sq <> Some (mkPiece King side)) -> isMoveLegal b m side = false.
Proof.
  intros Hno. unfold isMoveLegal.
  destruct (findKing (scratch b m) side) as [k|] eqn:E; [|done].
  apply findKing_Some in E. apply scratch_origin in E as (sq & Hsq).
  by destruct (Hno sq).
Qed.

(** C9. On a board where the queried side has no king the queries still
    answer: [isCheck] says [false], and [legalMoves] is empty since the
    legality filter rejects every candidate. *)
Theorem kingless_side_has_safe_defaults (b : Board) (side : Color)
    (last_move : option Move) (castling_rights : CastlingRights) :
  (forall sq, at_ b sq <> Some (mkPiece King side)) ->
  isCheck b side = false /\
  legalMoves b side last_move castling_rights = [] /\
  (forall m, isMoveLegal b m side = false).
Proof.
  intros Hno. split; [|split].
  - unfold isCheck. apply findKing_None in Hno. by rewrite Hno.
  - destruct (legalMoves b side last_move castling_rights) as [|m l] eqn:E; [done|].
    assert (In m (legalMoves b side last_move castling_rights)) as Hin
        by (rewrite E; by left).
    apply legalMoves_filtered in Hin.
    rewrite isMoveLegal_needs_king in Hin by done. discriminate.
  - intros m. by apply isMoveLegal_needs_king.
Qed.

Lemma kingless_side_has_safe_defaults_witness :
  isCheck (clearSquare reset (mkSquare 7 4)) White = false /\
  legalMoves (clearSquare reset (mkSquare 7 4)) White None
             [# true; true; true; true] = [] /\
  (forall m, isMoveLegal (clearSquare reset (mkSquare 7 4)) m White = false).
Proof.
  apply (kingless_side_has_safe_defaults
           (clearSquare reset (mkSquare 7 4)) White None [# true; true; true; true]).
  apply findKing_None. vm_compute. reflexivity.
Defined.

(** ** Applying a legal move *)

Lemma passed_rank_between rf rt :
  Z.abs (rf - rt) = 2 ->
  (rf < Z.quot (rf + rt) 2 < rt \/ rt < Z.quot (rf + rt) 2 < rf) /\
  2 * Z.quot (rf + rt) 2 = rf + rt.
Proof.
  intros H.
  assert (rf + rt = 2 * (rt + 1) \/ rf + rt = 2 * (rt - 1)) as [E|E] by lia;
    rewrite E, Z.mul_comm, Z.quot_mul by lia; lia.
Qed.

Section Applying.
Variables (b : Board) (side : Color) (last_move : option Move)
          (rights : CastlingRights).

Lemma plainShape_applies sq m p :
  at_ b sq = Some p -> color p = side -> plainShape b side sq m ->
  isValid (to m) = true /\ from m <> to m /\
  handleSpecialMoves b m = movePiece b m /\
  at_ (handleSpecialMoves b m) (to m) = Some p.
Proof.
  intros Hat Hc (t & -> & Hv & Hown & _). simpl.
  assert (sq <> t) as Hne.
  { intros <-. assert (hasPieceAtColor b sq side = true) as E
        by (apply hasPieceAtColor_spec; eauto). congruence. }
  repeat split; auto.
  unfold handleSpecialMoves. simpl. rewrite at_movePiece. simpl.
  rewrite decide_False by congruence. rewrite decide_True by done.
  by rewrite Hv.
Qed.

Lemma enPassantShape_applies sq m p :
  lastMoveOnBoard last_move ->
  at_ b sq = Some p -> enPassantShape b side last_move sq m ->
  isValid (to m) = true /\ from m <> to m /\
  (exists lm, last_move = Some lm /\
              at_ b (to lm) = Some (mkPiece Pawn (opponent side)) /\
              handleSpecialMoves b m = movePiece (clearSquare b (to lm)) m /\
              0 < rank (to m) < 7) /\
  at_ (handleSpecialMoves b m) (to m) = Some p.
Proof.
  intros Hlm Hat (lm & -> & Hpawn & Habs & Hr & Hf & -> & _). simpl.
  destruct Hlm as [Hvf Hvt].
  apply isValid_spec in Hvf as [Hfr _]. apply isValid_spec in Hvt as [Htr Htf].
  destruct (passed_rank_between _ _ Habs) as [Hbetween _].
  set (q := Z.quot (rank (from lm) + rank (to lm)) 2) in *.
  assert (isValid (mkSquare q (file (to lm))) = true) as Hv
      by (apply isValid_spec; simpl; lia).
  assert (sq <> mkSquare q (file (to lm))) as Hne
      by (intros ->; simpl in *; lia).
  assert (mkSquare (rank sq) (file (to lm)) = to lm) as Hcap
      by (destruct (to lm); simpl in *; congruence).
  assert (handleSpecialMoves b
            (mkMove sq (mkSquare q (file (to lm))) None true false) =
          movePiece (clearSquare b (to lm))
            (mkMove sq (mkSquare q (file (to lm))) None true false)) as Happ.
  { unfold handleSpecialMoves. simpl. by rewrite Hcap. }
  repeat split; auto.
  - exists lm. repeat split; auto; simpl; lia.
  - rewrite Happ, at_movePiece. simpl.
    rewrite decide_False by congruence. rewrite decide_True by done.
    rewrite Hv, at_clearSquare. rewrite decide_False; [done|].
    intros ->. lia.
Qed.

Lemma kingsideShape_applies sq m :
  kingsideShape b side rights sq m ->
  isValid (to m) = true /\ from m <> to m /\
  handleSpecialMoves b m =
    movePiece (movePiece b m)
      (plainMove (mkSquare (homeRank side) 7) (mkSquare (homeRank side) 5)) /\
  at_ (handleSpecialMoves b m) (to m) = at_ b sq.
Proof.
  intros (-> & _ & _ & _ & _ & _ & _ & _ & -> & _). simpl.
  assert (handleSpecialMoves b
            (mkMove (mkSquare (homeRank side) 4) (mkSquare (homeRank side) 6)
                    None false true) =
          movePiece (movePiece b
            (mkMove (mkSquare (homeRank side) 4) (mkSquare (homeRank side) 6)
                    None false true))
            (plainMove (mkSquare (homeRank side) 7) (mkSquare (homeRank side) 5)))
    as Happ by reflexivity.
  split_and!; [| |done|].
  - apply isValid_spec. unfold homeRank. destruct side; simpl; lia.
  - congruence.
  - rewrite Happ, !at_movePiece. simpl.
    rewrite !decide_False by congruence. rewrite decide_True by done.
    replace (isValid (mkSquare (homeRank side) 6)) with true; [done|].
    symmetry. apply isValid_spec. unfold homeRank. destruct side; simpl; lia.
Qed.

Lemma queensideShape_applies sq m :
  queensideShape b side rights sq m ->
  isValid (to m) = true /\ from m <> to m /\
  handleSpecialMoves b m =
    movePiece (movePiece b m)
      (plainMove (mkSquare (homeRank side) 0) (mkSquare (homeRank side) 3)) /\
  at_ (handleSpecialMoves b m) (to m) = at_ b sq.
Proof.
  intros (-> & _ & _ & _ & _ & _ & _ & _ & _ & -> & _). simpl.
  assert (handleSpecialMoves b
            (mkMove (mkSquare (homeRank side) 4) (mkSquare (homeRank side) 2)
                    None false true) =
          movePiece (movePiece b
            (mkMove (mkSquare (homeRank side) 4) (mkSquare (homeRank side) 2)
                    None false true))
            (plainMove (mkSquare (homeRank side) 0) (mkSquare (homeRank side) 3)))
    as Happ by reflexivity.
  split_and!; [| |done|].
  - apply isValid_spec. unfold homeRank. destruct side; simpl; lia.
  - congruence.
  - rewrite Happ, !at_movePiece. simpl.
    rewrite !decide_False by congruence. rewrite decide_True by done.
    replace (isValid (mkSquare (homeRank side) 2)) with true; [done|].
    symmetry. apply isValid_spec. unfold homeRank. destruct side; simpl; lia.
Qed.

(** A legal move starts on a piece of the side to move, ends on another
    square of the board, and [handleSpecialMoves] leaves that very
    piece on the destination. *)
Lemma legal_move_lands m :
  lastMoveOnBoard last_move ->
  In m (legalMoves b side last_move rights) ->
  isValid (from m) = true /\ isValid (to m) = true /\ from m <> to m /\
  exists p, at_ b (from m) = Some p /\ color p = side /\
            at_ (handleSpecialMoves b m) (to m) = Some p.
Proof.
  intros Hlm Hin. apply legalMoves_moved in Hin.
  destruct Hin as (p & Hat & Hc & Hshape).
  pose proof (at_Some_valid _ _ _ Hat) as Hvf.
  destruct Hshape as [H | [[_ H] | [_ [H | H]]]].
  - destruct (plainShape_applies _ _ _ Hat Hc H) as (? & ? & _ & ?). eauto 10.
  - destruct (enPassantShape_applies _ _ _ Hlm Hat H) as (? & ? & _ & ?). eauto 10.
  - destruct (kingsideShape_applies _ _ H) as (? & ? & _ & E).
    rewrite Hat in E. eauto 10.
  - destruct (queensideShape_applies _ _ H) as (? & ? & _ & E).
    rewrite Hat in E. eauto 10.
Qed.
End Applying.

Lemma find_same_test {A} (f g : A -> bool) (l : list A) :
  (forall x, f x = g x) -> find f l = find g l.
Proof.
  intros H. induction l as [|x l IH]; simpl; [done|].
  rewrite H, IH. done.
Qed.

(** C4. When [makeMove] accepts a move, the piece on the destination
    afterwards is the piece that stood on the origin before, with the
    same type: a pawn stays a pawn on the last rank as anywhere else.
    The candidate's promotion, en-passant and castling members are never
    read, so two candidates with the same squares give the same result
    and the same session. *)
Theorem makeMove_keeps_piece_type (g : ChessGame) (move : Move) (g' : ChessGame) :
  lastMoveOnBoard (last_move_ g) ->
  makeMove g move = (true, g') ->
  (exists p, at_ (board_ g) (from move) = Some p /\
             at_ (board_ g') (to move) = Some p /\
             (type p = Pawn ->
              type <$> at_ (board_ g') (to move) = Some Pawn)) /\
  (forall other, from other = from move -> to other = to move ->
                 makeMove g other = (true, g')).
Proof.
  intros Hlm Hmk. split.
  - apply makeMove_true in Hmk as (m & Hm & ->). simpl.
    apply matchingMove_Some in Hm as (Hin & Hf & Ht).
    destruct (legal_move_lands _ _ _ _ _ Hlm Hin) as (_ & _ & _ & p & Hp & _ & Hland).
    rewrite <- Hf, <- Ht. exists p. repeat split; auto.
    intros Hpawn. rewrite Hland. simpl. by rewrite Hpawn.
  - intros other Hf Ht. rewrite <- Hmk. unfold makeMove, matchingMove.
    replace (find (fun m => sameSquares m other) _)
      with (find (fun m => sameSquares m move)
                 (legalMoves (board_ g) (side_to_move_ g) (last_move_ g)
                             (castling_rights_ g))); [done|].
    apply find_same_test. intros m. unfold sameSquares. by rewrite Hf, Ht.
Qed.

(** ** En passant *)

(** C5. The list of legal moves holds an en-passant move from [p] to [t]
    exactly when [p] carries a pawn of the side to move, a last move
    exists, an opponent pawn stands on its destination, that destination
    is two ranks from its origin, [p] is on the rank of that destination
    one file away, [t] is on the file of that destination with its rank
    between the two ranks of the last move, and the move passes the
    filter of [isMoveLegal]. *)
Theorem en_passant_exactly_after_double_push (b : Board) (side : Color)
    (last_move : option Move) (castling_rights : CastlingRights)
    (p t : Square) :
  (exists m, In m (legalMoves b side last_move castling_rights) /\
             en_passant m = true /\ from m = p /\ to m = t)
  <->
  (at_ b p = Some (mkPiece Pawn side) /\
   exists lm,
     last_move = Some lm /\
     at_ b (to lm) = Some (mkPiece Pawn (opponent side)) /\
     Z.abs (rank (from lm) - rank (to lm)) = 2 /\
     rank p = rank (to lm) /\
     Z.abs (file p - file (to lm)) = 1 /\
     file t = file (to lm) /\
     (rank (from lm) < rank t < rank (to lm) \/
      rank (to lm) < rank t < rank (from lm)) /\
     isMoveLegal b (mkMove p t None true false) side = true).
Proof.
  split.
  - intros (m & Hin & Hep & <- & <-).
    apply legalMoves_moved in Hin.
    destruct Hin as ([ty c] & Hat & Hc & Hshape). simpl in Hc. subst c.
    destruct Hshape as [H | [[Hty H] | [_ [H | H]]]].
    + apply plainShape_facts in H as (_ & _ & E & _). congruence.
    + simpl in Hty. subst ty. split; [done|].
      destruct H as (lm & -> & Hpawn & Habs & Hr & Hf & -> & Hl). simpl in *.
      exists lm. destruct (passed_rank_between _ _ Habs) as [Hb _].
      repeat split; auto; lia.
    + apply kingsideShape_facts in H as (_ & E & _). congruence.
    + apply queensideShape_facts in H as (_ & E & _). congruence.
  - intros (Hat & lm & -> & Hpawn & Habs & Hr & Hf & Hft & Hb & Hl).
    destruct (passed_rank_between _ _ Habs) as [_ Hq].
    assert (t = mkSquare (Z.quot (rank (from lm) + rank (to lm)) 2) (file (to lm)))
      as Ht by (destruct t as [tr tf]; simpl in *; f_equal; lia).
    exists (mkMove p t None true false). repeat split; auto.
    apply (legalMoves_en_passant _ _ _ _ p); [done|].
    exists lm. rewrite <- Ht. repeat split; auto.
Qed.

(** ** What the filter and the castling guards establish *)

(** Every move of the list leaves, on the scratch copy, a king of the
    mover on the square found by [findKing], and [isSquareAttacked] says
    [false] of that square. *)
Lemma legalMoves_pass_the_filter b side last_move rights m :
  In m (legalMoves b side last_move rights) ->
  exists king_sq,
    findKing (scratch b m) side = Some king_sq /\
    at_ (scratch b m) king_sq = Some (mkPiece King side) /\
    isSquareAttacked (scratch b m) king_sq (opponent side) = false.
Proof.
  intros Hin. apply legalMoves_filtered in Hin. unfold isMoveLegal in Hin.
  destruct (findKing (scratch b m) side) as [k|] eqn:E; [|discriminate].
  exists k. split; [done|]. split; [by apply findKing_Some|].
  by apply negb_true_iff.
Qed.

(** A kingside castling move is in the list only when the right is held,
    the king is on its home square, the rook on its corner, the two
    squares between them empty, and [isSquareAttacked] says [false] of
    the king's square and of the two squares it crosses. *)
Lemma kingside_castling_guards b side last_move rights m :
  In m (legalMoves b side last_move rights) ->
  castling m = true -> file (to m) = 6 ->
  from m = mkSquare (homeRank side) 4 /\
  to m = mkSquare (homeRank side) 6 /\
  at_ b (from m) = Some (mkPiece King side) /\
  kingsideRight side rights = true /\
  at_ b (mkSquare (homeRank side) 7) = Some (mkPiece Rook side) /\
  at_ b (mkSquare (homeRank side) 5) = None /\
  at_ b (mkSquare (homeRank side) 6) = None /\
  isSquareAttacked b (from m) (opponent side) = false /\
  isSquareAttacked b (mkSquare (homeRank side) 5) (opponent side) = false /\
  isSquareAttacked b (mkSquare (homeRank side) 6) (opponent side) = false.
Proof.
  intros Hin Hc Hf. apply legalMoves_moved in Hin.
  destruct Hin as ([ty c] & Hat & Hcol & Hshape). simpl in Hcol. subst c.
  destruct Hshape as [H | [[_ H] | [Hty [H | H]]]].
  - apply plainShape_facts in H as (_ & _ & _ & E & _). congruence.
  - apply enPassantShape_facts in H as (_ & _ & E & _). congruence.
  - simpl in Hty. subst ty.
    destruct H as (Hfrom & Ha & Hr & Hrook & H5 & H6 & Ha5 & Ha6 & -> & _).
    simpl in *. rewrite Hfrom in *. repeat split; auto.
  - apply queensideShape_facts in H as (_ & _ & _ & _ & E & _).
    rewrite E in Hf. simpl in Hf. lia.
Qed.

(** ** The sessions a program can reach *)

Lemma legal_move_elsewhere b side last_move rights m c :
  lastMoveOnBoard last_move ->
  In m (legalMoves b side last_move rights) ->
  c <> from m -> c <> to m ->
  at_ (handleSpecialMoves b m) c = at_ b c \/
  at_ b c = Some (mkPiece Pawn (opponent side)) \/
  (rank c = homeRank side /\ at_ b (from m) = Some (mkPiece King side)).
Proof.
  intros Hlm Hin Hcf Hct. apply legalMoves_moved in Hin.
  destruct Hin as ([ty col] & Hat & Hc & Hshape). simpl in Hc. subst col.
  destruct Hshape as [H | [[_ H] | [Hty [H | H]]]].
  - destruct (plainShape_applies _ _ _ _ _ Hat eq_refl H) as (_ & _ & -> & _).
    left. rewrite at_movePiece. by rewrite !decide_False.
  - destruct (enPassantShape_applies _ _ _ _ _ _ Hlm Hat H)
      as (_ & _ & (lm & _ & Hpawn & -> & _) & _).
    rewrite at_movePiece, !decide_False by done. rewrite at_clearSquare.
    case_decide as E; [subst c; auto | auto].
  - simpl in Hty. subst ty.
    destruct (kingsideShape_applies _ _ _ _ _ H) as (_ & _ & -> & _).
    destruct (decide (rank c = homeRank side)) as [E|E]; [auto|].
    left. rewrite !at_movePiece. simpl.
    rewrite !decide_False; [done|done|done|..]; intros ->; simpl in E; congruence.
  - simpl in Hty. subst ty.
    destruct (queensideShape_applies _ _ _ _ _ H) as (_ & _ & -> & _).
    destruct (decide (rank c = homeRank side)) as [E|E]; [auto|].
    left. rewrite !at_movePiece. simpl.
    rewrite !decide_False; [done|done|done|..]; intros ->; simpl in E; congruence.
Qed.

Lemma rightColor_homeRank i c :
  homeRank (rightColor i) = homeRank c -> rightColor i = c.
Proof.
  destruct (fin4_cases i) as [-> | [-> | [-> | ->]]]; destruct c;
    vm_compute; congruence.
Qed.

Lemma makeMove_preserves_invariant g move g' :
  lastMoveOnBoard (last_move_ g) -> rooksAtHome g ->
  makeMove g move = (true, g') ->
  lastMoveOnBoard (last_move_ g') /\ rooksAtHome g'.
Proof.
  intros Hlm Hrooks Hmk.
  apply makeMove_true in Hmk as (m & Hm & ->).
  apply matchingMove_Some in Hm as (Hin & _ & _). unfold gameLegalMoves in Hin.
  destruct (legal_move_lands _ _ _ _ _ Hlm Hin)
    as (Hvf & Hvt & Hne & p & Hp & Hcol & Hland).
  split; [by split|].
  intros i. simpl. intros Hi.
  apply updateCastlingRights_true in Hi as (Hr & Hf & Ht & Hnk).
  specialize (Hrooks i Hr).
  destruct (legal_move_elsewhere _ _ _ _ _ (corner i) Hlm Hin)
    as [E | [E | [Erank Eking]]]; try congruence.
  exfalso. apply Hnk. exists p. rewrite Hp in Eking. injection Eking as ->.
  repeat split; auto. symmetry. apply rightColor_homeRank.
  destruct (corner_rank i) as [<- _]. done.
Qed.

(** In a reachable session the last move names squares of the board and
    every held right has its rook on the corner. *)
Lemma reachable_invariant g :
  reachable g -> lastMoveOnBoard (last_move_ g) /\ rooksAtHome g.
Proof.
  induction 1 as [|g move g' _ [IH1 IH2] Hmk].
  - split; [done|]. intros i _.
    destruct (fin4_cases i) as [-> | [-> | [-> | ->]]]; vm_compute; reflexivity.
  - by eapply makeMove_preserves_invariant.
Qed.

Lemma playChecked_step moves ok g :
  fst (fold_left (fun '(ok, g) m => let '(r, g') := makeMove g m in (ok && r, g'))
                 moves (ok, g)) = true ->
  ok = true /\ (reachable g -> reachable (playAll g moves)).
Proof.
  revert ok g. induction moves as [|m moves IH]; intros ok g H.
  - simpl in *. auto.
  - cbn [fold_left] in H. destruct (makeMove g m) as [r g1] eqn:E.
    apply IH in H as [Hok Hreach]. apply andb_true_iff in Hok as [-> ->].
    split; [done|]. intros Hg.
    change (playAll g (m :: moves)) with (playAll (snd (makeMove g m)) moves).
    rewrite E. apply Hreach. by eapply reachable_move.
Qed.

(** A run of accepted moves from [newGame] ends in a reachable session. *)
Lemma played_is_reachable moves :
  fst (playChecked newGame moves) = true -> reachable (playAll newGame moves).
Proof.
  intros H. apply playChecked_step in H as [_ H]. apply H. constructor.
Qed.

(** C7. In a session reached from [newGame], an accepted move updates
    the rights as follows.  A king move clears both rights of the mover's
    colour.  A rook that leaves its home corner, or is captured on it,
    clears the right of that corner.  And a right that was held is
    cleared for no other cause than the king of its colour moving, its
    rook leaving the corner, or its rook being captured on the corner. *)
Theorem castling_rights_updated_as_specified (g : ChessGame) (move : Move)
    (g' : ChessGame) :
  reachable g ->
  makeMove g move = (true, g') ->
  (forall p i, at_ (board_ g) (from move) = Some p -> type p = King ->
               rightColor i = color p ->
               color p = side_to_move_ g /\ castling_rights_ g' !!! i = false) /\
  (forall i, rookLeaves (board_ g) i (from move) \/
             rookTaken (board_ g) i (to move) ->
             castling_rights_ g' !!! i = false) /\
  (forall i, castling_rights_ g !!! i = true ->
             castling_rights_ g' !!! i = false ->
             kingMoves (board_ g) i (from move) \/
             rookLeaves (board_ g) i (from move) \/
             rookTaken (board_ g) i (to move)).
Proof.
  intros Hreach Hmk.
  destruct (reachable_invariant _ Hreach) as [Hlm Hrooks].
  apply makeMove_true in Hmk as (m & Hm & ->).
  apply matchingMove_Some in Hm as (Hin & <- & <-). unfold gameLegalMoves in Hin.
  destruct (legal_move_lands _ _ _ _ _ Hlm Hin)
    as (Hvf & Hvt & Hne & p & Hp & Hcol & Hland).
  simpl. split; [|split].
  - intros q i Hq Hk Hi. rewrite Hp in Hq. injection Hq as <-.
    split; [done|].
    destruct (updateCastlingRights (handleSpecialMoves (board_ g) m)
                (side_to_move_ g) (castling_rights_ g) m !!! i) eqn:E; [|done].
    apply updateCastlingRights_true in E as (_ & _ & _ & Hnk).
    exfalso. apply Hnk. exists p. repeat split; auto. congruence.
  - intros i Hcause.
    destruct (updateCastlingRights (handleSpecialMoves (board_ g) m)
                (side_to_move_ g) (castling_rights_ g) m !!! i) eqn:E; [|done].
    apply updateCastlingRights_true in E as (_ & Hf & Ht & _).
    destruct Hcause as [[Hc _] | [Hc _]]; congruence.
  - intros i Hheld Hlost. specialize (Hrooks i Hheld).
    destruct (decide (from m = corner i)) as [Ef|Ef].
    { right. left. split; [done|]. by rewrite Ef. }
    destruct (decide (to m = corner i)) as [Et|Et].
    { right. right. split; [done|]. by rewrite Et. }
    left. unfold kingMoves. rewrite Hp.
    destruct (decide (type p = King /\ side_to_move_ g = rightColor i))
      as [[Hk Hs]|Hn].
    + destruct p as [ty col]. simpl in *. congruence.
    + exfalso.
      assert (updateCastlingRights (handleSpecialMoves (board_ g) m)
                (side_to_move_ g) (castling_rights_ g) m !!! i = true) as E.
      { apply updateCastlingRights_true. repeat split; auto.
        intros (q & Hq & Hk & Hs). rewrite Hland in Hq. injection Hq as <-.
        by apply Hn. }
      congruence.
Qed.

Lemma castling_rights_updated_as_specified_witness :
  (forall p i,
      at_ (board_ (playAll newGame [mv 6 4 4 4; mv 1 4 3 4])) (from (mv 7 4 6 4))
        = Some p ->
      type p = King -> rightColor i = color p ->
      color p = side_to_move_ (playAll newGame [mv 6 4 4 4; mv 1 4 3 4]) /\
      castling_rights_
        (snd (makeMove (playAll newGame [mv 6 4 4 4; mv 1 4 3 4]) (mv 7 4 6 4)))
        !!! i = false) /\
  (forall i,
      rookLeaves (board_ (playAll newGame [mv 6 4 4 4; mv 1 4 3 4])) i
                 (from (mv 7 4 6 4)) \/
      rookTaken (board_ (playAll newGame [mv 6 4 4 4; mv 1 4 3 4])) i
                (to (mv 7 4 6 4)) ->
      castling_rights_
        (snd (makeMove (playAll newGame [mv 6 4 4 4; mv 1 4 3 4]) (mv 7 4 6 4)))
        !!! i = false) /\
  (forall i,
      castling_rights_ (playAll newGame [mv 6 4 4 4; mv 1 4 3 4]) !!! i = true ->
      castling_rights_
        (snd (makeMove (playAll newGame [mv 6 4 4 4; mv 1 4 3 4]) (mv 7 4 6 4)))
        !!! i = false ->
      kingMoves (board_ (playAll newGame [mv 6 4 4 4; mv 1 4 3 4])) i
                (from (mv 7 4 6 4)) \/
      rookLeaves (board_ (playAll newGame [mv 6 4 4 4; mv 1 4 3 4])) i
                 (from (mv 7 4 6 4)) \/
      rookTaken (board_ (playAll newGame [mv 6 4 4 4; mv 1 4 3 4])) i
                (to (mv 7 4 6 4))).
Proof.
  apply (castling_rights_updated_as_specified
           (playAll newGame [mv 6 4 4 4; mv 1 4 3 4]) (mv 7 4 6 4)
           (snd (makeMove (playAll newGame [mv 6 4 4 4; mv 1 4 3 4]) (mv 7 4 6 4)))).
  - apply played_is_reachable. vm_compute. reflexivity.
  - vm_compute. reflexivity.
Defined.

(** ** A pawn that the attack test does not see *)

Lemma in_by_computation (m : Move) (l : list Move) :
  existsb (fun x => bool_decide (x = m)) l = true -> In m l.
Proof.
  intros H. apply existsb_exists in H as (x & Hin & Hx).
  apply bool_decide_eq_true in Hx. by subst x.
Qed.

Lemma afterPawnRaid_reachable : reachable afterPawnRaid.
Proof. apply played_is_reachable. vm_compute. reflexivity. Qed.

Lemma beforeKingTaken_reachable : reachable beforeKingTaken.
Proof.
  apply (reachable_move afterPawnRaid quietReply); [apply afterPawnRaid_reachable|].
  vm_compute. reflexivity.
Qed.

Lemma kingTaken_reachable : reachable kingTaken.
Proof.
  apply (reachable_move beforeKingTaken takeKing); [apply beforeKingTaken_reachable|].
  vm_compute. reflexivity.
Qed.

Lemma beforeCastling_reachable : reachable beforeCastling.
Proof. apply played_is_reachable. vm_compute. reflexivity. Qed.

Lemma makeMove_keeps_piece_type_witness :
  (exists p, at_ (board_ beforeKingTaken) (from takeKing) = Some p /\
             at_ (board_ kingTaken) (to takeKing) = Some p /\
             (type p = Pawn ->
              type <$> at_ (board_ kingTaken) (to takeKing) = Some Pawn)) /\
  (forall other, from other = from takeKing -> to other = to takeKing ->
                 makeMove beforeKingTaken other = (true, kingTaken)).
Proof.
  apply (makeMove_keeps_piece_type beforeKingTaken takeKing kingTaken).
  - vm_compute. split; reflexivity.
  - vm_compute. reflexivity.
Defined.

(** [isAttackedByPawn] reads the rank that lies beyond the target in the
    direction in which the attacker's pawns advance, while
    [generatePawnMoves] lets a pawn capture on the rank in front of it.
    For a target on the home rank of the attacked colour the rank read is
    off the board: no pawn is ever seen to attack such a square. *)
Lemma isAttackedByPawn_blind_on_home_rank b target c :
  rank target = homeRank c -> isAttackedByPawn b target (opponent c) = false.
Proof.
  intros Hr. unfold isAttackedByPawn. cbn [existsb].
  assert (forall df,
            isValid (mkSquare
                       (rank target + match opponent c with White => -1 | Black => 1 end)
                       (file target + df)) = false) as Hout.
  { intros df. unfold isValid, kBoardSize, homeRank in *. simpl.
    destruct c; simpl; lia. }
  by rewrite !Hout.
Qed.

(** C1, at a position of a game.  After the eight accepted moves of
    [pawnRaid] a black pawn stands on d2, next to the white king on e1.
    The move h2-h3 is in White's list of legal moves; on the board it
    leaves, [findKing] finds the king on e1 and [isSquareAttacked] says
    [false] of e1, and yet the capture of the king by the pawn is in
    Black's list of legal moves: [isAttackedByPawn] looks for the pawn
    one rank beyond the target instead of one rank before it. *)
Theorem legal_move_leaves_king_to_pawn :
  reachable afterPawnRaid /\
  side_to_move_ afterPawnRaid = White /\
  In quietReply (gameLegalMoves afterPawnRaid) /\
  findKing (scratch (board_ afterPawnRaid) quietReply) White
    = Some (mkSquare 7 4) /\
  at_ (scratch (board_ afterPawnRaid) quietReply) (mkSquare 6 3)
    = Some (mkPiece Pawn Black) /\
  isSquareAttacked (scratch (board_ afterPawnRaid) quietReply)
                   (mkSquare 7 4) Black = false /\
  makeMove afterPawnRaid quietReply = (true, beforeKingTaken) /\
  board_ beforeKingTaken = scratch (board_ afterPawnRaid) quietReply /\
  In (plainMove (mkSquare 6 3) (mkSquare 7 4)) (gameLegalMoves beforeKingTaken).
Proof.
  split; [apply afterPawnRaid_reachable|].
  split; [vm_compute; reflexivity|].
  split; [apply in_by_computation; vm_compute; reflexivity|].
  split; [vm_compute; reflexivity|].
  split; [vm_compute; reflexivity|].
  split; [vm_compute; reflexivity|].
  split; [vm_compute; reflexivity|].
  split; [vm_compute; reflexivity|].
  apply in_by_computation. vm_compute. reflexivity.
Qed.

(** C6, at a position of a game.  After the eight accepted moves of
    [pawnBesideKing] White holds the kingside right, f1 and g1 are empty
    and a black pawn stands on h2, from where it captures on g1.
    [isSquareAttacked] says [false] of g1, kingside castling is in the
    list, and once the king has castled the pawn's capture of the king
    on g1 is in Black's list of legal moves. *)
Theorem castling_onto_a_square_a_pawn_attacks :
  reachable beforeCastling /\
  side_to_move_ beforeCastling = White /\
  at_ (board_ beforeCastling) (mkSquare 6 7) = Some (mkPiece Pawn Black) /\
  isSquareAttacked (board_ beforeCastling) (mkSquare 7 6) Black = false /\
  In castleKingside (gameLegalMoves beforeCastling) /\
  makeMove beforeCastling castleKingside = (true, afterCastling) /\
  at_ (board_ afterCastling) (mkSquare 7 6) = Some (mkPiece King White) /\
  In (plainMove (mkSquare 6 7) (mkSquare 7 6)) (gameLegalMoves afterCastling).
Proof.
  split; [apply beforeCastling_reachable|].
  split; [vm_compute; reflexivity|].
  split; [vm_compute; reflexivity|].
  split; [vm_compute; reflexivity|].
  split; [apply in_by_computation; vm_compute; reflexivity|].
  split; [vm_compute; reflexivity|].
  split; [vm_compute; reflexivity|].
  apply in_by_computation. vm_compute. reflexivity.
Qed.

(** C10, at a session of a game.  The pawn of [pawnRaid] takes the white
    king on e1.  The session is reachable, both white rights are still
    held, both white rooks are on their corners, and e1 carries a black
    pawn: White has no king at all. *)
Theorem right_held_after_king_is_taken :
  reachable kingTaken /\
  castling_rights_ kingTaken !!! 0%fin = true /\
  castling_rights_ kingTaken !!! 1%fin = true /\
  at_ (board_ kingTaken) (corner 0%fin) = Some (mkPiece Rook White) /\
  at_ (board_ kingTaken) (corner 1%fin) = Some (mkPiece Rook White) /\
  at_ (board_ kingTaken) (kingHome White) = Some (mkPiece Pawn Black) /\
  findKing (board_ kingTaken) White = None.
Proof.
  split; [apply kingTaken_reachable|].
  vm_compute. repeat split; reflexivity.
Qed.

(** ** The walks end before their fuel does *)

Lemma leavesWithin_step n dr df r f :
  leavesWithin (S n) dr df r f -> isValidSquare r f = true ->
  leavesWithin n dr df (r + dr) (f + df).
Proof.
  intros (j & Hj & Hout) Hv. destruct j as [|j].
  - simpl in Hout. rewrite !Z.add_0_r in Hout. congruence.
  - exists j. split; [lia|].
    replace (r + dr + Z.of_nat j * dr) with (r + Z.of_nat (S j) * dr) by lia.
    replace (f + df + Z.of_nat j * df) with (f + Z.of_nat (S j) * df) by lia.
    done.
Qed.

Lemma unit_walk_leaves dr df r0 f0 :
  In (dr, df) kAllDirections ->
  leavesWithin walkFuel dr df (r0 + dr) (f0 + df).
Proof.
  intros Hd. destruct (isValidSquare (r0 + dr) (f0 + df)) eqn:Hv.
  - exists 8%nat. split; [unfold walkFuel, kSize; lia|].
    unfold isValidSquare, kBoardSize in *. simpl in Hd.
    change (Z.of_nat 8) with 8.
    repeat destruct Hd as [Hd|Hd]; try done; injection Hd as <- <-; lia.
  - exists 0%nat. split; [unfold walkFuel; lia|].
    simpl. by rewrite !Z.add_0_r.
Qed.

Lemma slideWalk_fuel b from_ side dr df n extra moves r f :
  leavesWithin n dr df r f ->
  slideWalk (n + extra) moves b from_ side dr df r f =
  slideWalk n moves b from_ side dr df r f.
Proof.
  revert moves r f. induction n as [|n IH]; intros moves r f Hl.
  - destruct Hl as (j & Hj & _). lia.
  - simpl. destruct (isValidSquare r f) eqn:Hv; [|done].
    destruct (at_ b _); [done|].
    apply IH. by apply leavesWithin_step.
Qed.

Lemma sliderWalk_fuel b attacker diag dr df n extra r f distance :
  leavesWithin n dr df r f ->
  sliderWalk (n + extra) b attacker diag dr df r f distance =
  sliderWalk n b attacker diag dr df r f distance.
Proof.
  revert r f distance. induction n as [|n IH]; intros r f distance Hl.
  - destruct Hl as (j & Hj & _). lia.
  - simpl. destruct (isValidSquare r f) eqn:Hv; [|done].
    destruct (at_ b _); [done|].
    apply IH. by apply leavesWithin_step.
Qed.

(** The loops of [generateSlidingMoves] and of [isAttackedBySlider] leave
    through their own test: more iterations change nothing. *)
Lemma slideWalk_terminates b from_ side dr df extra moves :
  In (dr, df) kAllDirections ->
  slideWalk (walkFuel + extra) moves b from_ side dr df
            (rank from_ + dr) (file from_ + df) =
  slideWalk walkFuel moves b from_ side dr df
            (rank from_ + dr) (file from_ + df).
Proof. intros Hd. apply slideWalk_fuel. by apply unit_walk_leaves. Qed.

Lemma sliderWalk_terminates b attacker diag target dr df extra :
  In (dr, df) kAllDirections ->
  sliderWalk (walkFuel + extra) b attacker diag dr df
             (rank target + dr) (file target + df) 1 =
  sliderWalk walkFuel b attacker diag dr df
             (rank target + dr) (file target + df) 1.
Proof. intros Hd. apply sliderWalk_fuel. by apply unit_walk_leaves. Qed.

(* ================================================================== *)
(** * The list of legal moves, exactly                                 *)
(* ================================================================== *)

Section LoopsExactly.
Context {B : Type} (step : list Move -> B -> list Move).

Lemma fold_left_exactly (S : B -> Prop) (l : list B) (acc : list Move) (m : Move) :
  (forall acc x, In m (step acc x) <-> In m acc \/ S x) ->
  In m (fold_left step l acc) <-> In m acc \/ exists x, In x l /\ S x.
Proof.
  intros Hstep. split.
  - apply fold_left_pushed. intros a x. apply Hstep.
  - intros [H | H].
    + apply fold_left_keeps; [|done]. intros a x Ha. apply Hstep. by left.
    + apply (fold_left_pushes _ S); [| |done].
      * intros a x Ha. apply Hstep. by left.
      * intros a x Hx. apply Hstep. by right.
Qed.
End LoopsExactly.

Section GeneratorsExactly.
Variables (b : Board) (side : Color).

Lemma shifted_one a dr df :
  shifted a 1 dr df = mkSquare (rank a + dr) (file a + df).
Proof. unfold shifted. by rewrite !Z.mul_1_l. Qed.

Lemma in_addMoveIfLegal_plainTo moves a c m :
  isValid c = true ->
  In m (addMoveIfLegal moves b a c side) <-> In m moves \/ plainTo b side a c m.
Proof.
  intros Hv. rewrite in_addMoveIfLegal. unfold plainTo. naive_solver.
Qed.

(** The body shared by the knight loop and the king loop. *)
Lemma guarded_push_exactly moves a c m :
  In m (if negb (isValid c) then moves
        else if hasPieceAtColor b c side then moves
             else addMoveIfLegal moves b a c side)
  <-> In m moves \/
      (plainTo b side a c m /\ hasPieceAtColor b c side = false).
Proof.
  destruct (isValid c) eqn:Hv; simpl.
  - destruct (hasPieceAtColor b c side) eqn:Hc.
    + split; [auto|]. intros [H | [_ H]]; [done|discriminate].
    + rewrite in_addMoveIfLegal_plainTo by done. naive_solver.
  - split; [auto|]. intros [H | [(_ & H & _) _]]; [done|congruence].
Qed.

Lemma generateKnightMoves_exactly moves a m :
  In m (generateKnightMoves moves b a side) <->
  In m moves \/ knightMove b side a m.
Proof.
  unfold generateKnightMoves, knightMove.
  rewrite (fold_left_exactly _
             (fun d => plainTo b side a (shifted a 1 (fst d) (snd d)) m /\
                       hasPieceAtColor b (shifted a 1 (fst d) (snd d)) side = false)).
  - split; (intros [H | H]; [by left | right]).
    + destruct H as ([dr df] & Hin & H). eauto.
    + destruct H as (dr & df & Hin & H). exists (dr, df). auto.
  - intros acc [dr df]. simpl. rewrite shifted_one. apply guarded_push_exactly.
Qed.

Lemma slideWalk_exactly fuel moves a dr df r f m :
  In m (slideWalk fuel moves b a side dr df r f) <->
  In m moves \/
  exists k : nat,
    (k < fuel)%nat /\
    (forall j : nat, (j < k)%nat ->
       isValid (mkSquare (r + Z.of_nat j * dr) (f + Z.of_nat j * df)) = true /\
       at_ b (mkSquare (r + Z.of_nat j * dr) (f + Z.of_nat j * df)) = None) /\
    plainTo b side a (mkSquare (r + Z.of_nat k * dr) (f + Z.of_nat k * df)) m /\
    hasPieceAtColor b (mkSquare (r + Z.of_nat k * dr) (f + Z.of_nat k * df)) side
      = false.
Proof.
  revert moves r f. induction fuel as [|n IH]; intros moves r f.
  - simpl. split; [auto|]. intros [H | (k & Hk & _)]; [done|lia].
  - assert (forall z : Z, z + Z.of_nat 0 * dr = z) as Z0r by (intros; lia).
    assert (forall z : Z, z + Z.of_nat 0 * df = z) as Z0f by (intros; lia).
    assert (forall (z : Z) (j : nat), z + dr + Z.of_nat j * dr = z + Z.of_nat (S j) * dr)
      as ZSr by (intros; lia).
    assert (forall (z : Z) (j : nat), z + df + Z.of_nat j * df = z + Z.of_nat (S j) * df)
      as ZSf by (intros; lia).
    cbn [slideWalk]. rewrite isValidSquare_isValid.
    destruct (isValid (mkSquare r f)) eqn:Hv.
    + destruct (at_ b (mkSquare r f)) as [dest|] eqn:Hd.
      * destruct (decide (color dest = side)) as [Hc|Hc].
        -- rewrite bool_decide_eq_false_2 by (intros N; by apply N).
           assert (hasPieceAtColor b (mkSquare r f) side = true) as Hown
               by (apply hasPieceAtColor_spec; eauto).
           split; [auto|]. intros [H | (k & Hk & Hpath & Hto & Hno)]; [done|].
           destruct k as [|k].
           ++ rewrite Z0r, Z0f in Hno. congruence.
           ++ destruct (Hpath 0%nat) as [_ E]; [lia|].
              rewrite Z0r, Z0f in E. congruence.
        -- rewrite bool_decide_eq_true_2 by done.
           assert (hasPieceAtColor b (mkSquare r f) side = false) as Hown.
           { destruct (hasPieceAtColor b (mkSquare r f) side) eqn:E; [|done].
             apply hasPieceAtColor_spec in E as (q & Hq & Hq'). congruence. }
           rewrite in_addMoveIfLegal_plainTo by done. split.
           ++ intros [H | H]; [by left|].
              right. exists 0%nat. rewrite Z0r, Z0f.
              split; [lia|]. split; [intros j Hj; lia|]. done.
           ++ intros [H | (k & Hk & Hpath & Hto & Hno)]; [by left|].
              destruct k as [|k].
              ** rewrite Z0r, Z0f in Hto. by right.
              ** destruct (Hpath 0%nat) as [_ E]; [lia|].
                 rewrite Z0r, Z0f in E. congruence.
      * rewrite IH. rewrite in_addMoveIfLegal_plainTo by done. split.
        -- intros [[H | H] | (k & Hk & Hpath & Hto & Hno)].
           ++ by left.
           ++ right. exists 0%nat. rewrite Z0r, Z0f.
              split; [lia|]. split; [intros j Hj; lia|]. split; [done|].
              unfold hasPieceAtColor. by rewrite Hv, Hd.
           ++ right. exists (S k). rewrite <- ZSr, <- ZSf.
              split; [lia|]. split; [|done].
              intros [|j] Hj.
              ** by rewrite Z0r, Z0f.
              ** rewrite <- ZSr, <- ZSf. apply Hpath. lia.
        -- intros [H | (k & Hk & Hpath & Hto & Hno)].
           ++ left. by left.
           ++ destruct k as [|k].
              ** rewrite Z0r, Z0f in Hto. left. by right.
              ** right. exists k. rewrite ZSr, ZSf.
                 split; [lia|]. split; [|done].
                 intros j Hj. rewrite ZSr, ZSf. apply Hpath. lia.
    + split; [auto|]. intros [H | (k & Hk & Hpath & Hto & Hno)]; [done|].
      destruct k as [|k].
      * destruct Hto as (_ & E & _). rewrite Z0r, Z0f in E. congruence.
      * destruct (Hpath 0%nat) as [E _]; [lia|].
        rewrite Z0r, Z0f in E. congruence.
Qed.
End GeneratorsExactly.

Section LoopsExactlyOn.
Context {B : Type} (step : list Move -> B -> list Move).

(** As [fold_left_exactly], with the body characterised on the elements
    of the list only. *)
Lemma fold_left_exactly_on (S : B -> Prop) (l : list B) (acc : list Move)
    (m : Move) :
  (forall acc x, In x l -> In m (step acc x) <-> In m acc \/ S x) ->
  In m (fold_left step l acc) <-> In m acc \/ exists x, In x l /\ S x.
Proof.
  revert acc. induction l as [|x l IH]; intros acc Hstep; simpl.
  - split; [auto|]. intros [H | (x & [] & _)]. done.
  - rewrite IH by (intros a y Hy; apply Hstep; by right).
    rewrite (Hstep acc x) by (by left). split.
    + intros [[H | H] | (y & Hy & H)]; eauto.
    + intros [H | (y & [-> | Hy] & H)]; eauto.
Qed.
End LoopsExactlyOn.

Section SlidingExactly.
Variables (b : Board) (side : Color).

Lemma generateSlidingMoves_exactly moves a directions m :
  (forall d, In d directions -> In d kAllDirections) ->
  In m (generateSlidingMoves moves b a side directions) <->
  In m moves \/ slideMove b side directions a m.
Proof.
  intros Hunit. unfold generateSlidingMoves, slideMove.
  rewrite (fold_left_exactly_on _
    (fun d => exists k : nat,
       (forall j : nat, (j < k)%nat ->
          isValid (shifted a (Z.of_nat (S j)) (fst d) (snd d)) = true /\
          at_ b (shifted a (Z.of_nat (S j)) (fst d) (snd d)) = None) /\
       plainTo b side a (shifted a (Z.of_nat (S k)) (fst d) (snd d)) m /\
       hasPieceAtColor b (shifted a (Z.of_nat (S k)) (fst d) (snd d)) side = false)).
  - split; (intros [H | H]; [by left | right]).
    + destruct H as ([dr df] & Hin & k & H). exists dr, df, k. auto.
    + destruct H as (dr & df & k & Hin & H). exists (dr, df). eauto.
  - intros acc [dr df] Hin. cbv beta iota. cbn [fst snd].
    assert (forall j : nat,
              mkSquare (rank a + dr + Z.of_nat j * dr) (file a + df + Z.of_nat j * df)
              = shifted a (Z.of_nat (S j)) dr df) as Hsq
        by (intros j; unfold shifted; f_equal; lia).
    rewrite slideWalk_exactly. split.
    + intros [H | (k & _ & Hpath & Hto & Hno)]; [by left|].
      right. exists k. rewrite <- !Hsq. split; [|done].
      intros j Hj. rewrite <- Hsq. by apply Hpath.
    + intros [H | (k & Hpath & Hto & Hno)]; [by left|].
      right. exists k. rewrite !Hsq. split; [|split; [|done]].
      * destruct (unit_walk_leaves dr df (rank a) (file a) (Hunit _ Hin))
          as (j0 & Hj0 & Hout).
        rewrite isValidSquare_isValid, Hsq in Hout.
        destruct (decide (j0 < k)%nat) as [Hlt|Hge].
        -- destruct (Hpath j0 Hlt) as [E _]. congruence.
        -- destruct (decide (j0 = k)) as [->|Hne]; [|lia].
           destruct Hto as (_ & E & _). congruence.
      * intros j Hj. rewrite Hsq. by apply Hpath.
Qed.
End SlidingExactly.

Section PawnExactly.
Variables (b : Board) (side : Color).

Lemma hasPieceAt_true_occupied sq :
  isValid sq = true -> hasPieceAt b sq = true -> at_ b sq <> None.
Proof.
  intros Hv H E. apply (hasPieceAt_false b sq Hv) in E. congruence.
Qed.

Lemma generatePawnMoves_exactly moves a last_move m :
  In m (generatePawnMoves moves b a side last_move) <->
  In m moves \/ pawnPush b side a m \/ pawnDoublePush b side a m \/
  pawnCapture b side a m \/ enPassantShape b side last_move a m.
Proof.
  unfold generatePawnMoves; cbv zeta.
  match goal with
  | |- context [fold_left ?s ?l ?p] =>
      set (pushes := p); set (captures := fold_left s l pushes)
  end.
  assert (In m pushes <->
          In m moves \/ pawnPush b side a m \/ pawnDoublePush b side a m) as Hp.
  { subst pushes. unfold pawnPush, pawnDoublePush.
    assert (shifted a 1 (forward side) 0
            = mkSquare (rank a + match side with White => -1 | Black => 1 end)
                       (file a)) as ->
        by (unfold shifted, forward; destruct a; simpl; f_equal; lia).
    assert (shifted a 2 (forward side) 0
            = mkSquare (rank a + 2 * match side with White => -1 | Black => 1 end)
                       (file a)) as ->
        by (unfold shifted, forward; destruct a; simpl; f_equal; lia).
    unfold startRank.
    set (one := mkSquare (rank a + match side with White => -1 | Black => 1 end)
                         (file a)).
    set (two := mkSquare (rank a + 2 * match side with White => -1 | Black => 1 end)
                         (file a)).
    set (start := match side with White => 6 | Black => 1 end).
    destruct (isValid one) eqn:Hv1; simpl.
    2: { split; [auto|].
         intros [H | [[(_ & E & _) _] | (_ & E & _)]]; [done|congruence..]. }
    destruct (hasPieceAt b one) eqn:H1; simpl.
    { pose proof (hasPieceAt_true_occupied _ Hv1 H1) as Hocc.
      split; [auto|]. intros [H | [[_ E] | (_ & _ & E & _)]]; [done|congruence..]. }
    apply (hasPieceAt_false b one Hv1) in H1.
    destruct (Z.eqb_spec (rank a) start) as [Hs|Hs]; simpl.
    2: { rewrite in_addMoveIfLegal_plainTo by done. split.
         - intros [H | H]; auto.
         - intros [H | [[H _] | (E & _)]]; auto. congruence. }
    destruct (isValid two) eqn:Hv2; simpl.
    2: { rewrite in_addMoveIfLegal_plainTo by done. split.
         - intros [H | H]; auto.
         - intros [H | [[H _] | (_ & _ & _ & (_ & E & _) & _)]]; auto. congruence. }
    destruct (hasPieceAt b two) eqn:H2; simpl.
    { pose proof (hasPieceAt_true_occupied _ Hv2 H2) as Hocc.
      rewrite in_addMoveIfLegal_plainTo by done. split.
      - intros [H | H]; auto.
      - intros [H | [[H _] | (_ & _ & _ & _ & E)]]; auto. congruence. }
    apply (hasPieceAt_false b two Hv2) in H2.
    rewrite !in_addMoveIfLegal_plainTo by done. split.
    - intros [[H | H] | H]; auto 10.
    - intros [H | [[H _] | (_ & _ & _ & H & _)]]; auto. }
  clearbody pushes.
  assert (In m captures <-> In m pushes \/ pawnCapture b side a m) as Hc.
  { subst captures. unfold pawnCapture, forward.
    rewrite (fold_left_exactly _
      (fun df =>
         plainTo b side a
           (mkSquare (rank a + match side with White => -1 | Black => 1 end)
                     (file a + df)) m /\
         hasPieceAtColor b
           (mkSquare (rank a + match side with White => -1 | Black => 1 end)
                     (file a + df)) (opponent side) = true)).
    - split; (intros [H | H]; [by left | right]).
      + destruct H as (df & Hin & H). exists df. split; [|done].
        simpl in Hin. destruct Hin as [<- | [<- | []]]; auto.
      + destruct H as (df & Hdf & H). exists df. split; [|done].
        simpl. destruct Hdf as [-> | ->]; auto.
    - intros acc df. cbv beta zeta.
      destruct (isValid _) eqn:Hv; simpl.
      + destruct (hasPieceAtColor _ _ _) eqn:He.
        * rewrite in_addMoveIfLegal_plainTo by done. naive_solver.
        * split; [auto|]. intros [H | [_ E]]; [done|discriminate].
      + split; [auto|]. intros [H | [(_ & E & _) _]]; [done|congruence]. }
  clearbody captures.
  assert (In m (match last_move with
                | Some lm =>
                    match at_ b (to lm) with
                    | Some moved_piece =>
                        if bool_decide (type moved_piece = Pawn) &&
                           bool_decide (color moved_piece = opponent side) &&
                           (Z.abs (rank (from lm) - rank (to lm)) =? 2)
                        then
                          if (rank a =? rank (to lm)) &&
                             (Z.abs (file a - file (to lm)) =? 1)
                          then pushIfLegal captures b
                                 (mkMove a
                                    (mkSquare
                                       (Z.quot (rank (from lm) + rank (to lm)) 2)
                                       (file (to lm))) None true false) side
                          else captures
                        else captures
                    | None => captures
                    end
                | None => captures
                end) <->
          In m captures \/ enPassantShape b side last_move a m) as He.
  { unfold enPassantShape. destruct last_move as [lm|].
    2: { split; [auto|]. intros [H | (l & E & _)]; [done|discriminate]. }
    destruct (at_ b (to lm)) as [[t c]|] eqn:Hat.
    2: { split; [auto|]. intros [H | (l & E & E' & _)]; [done|congruence]. }
    cbn [type color].
    destruct (decide (t = Pawn)) as [->|Ht].
    2: { rewrite (bool_decide_eq_false_2 _ Ht). simpl. split; [auto|].
         intros [H | (l & E & E' & _)]; [done|congruence]. }
    destruct (decide (c = opponent side)) as [->|Hcol].
    2: { rewrite (bool_decide_eq_false_2 _ Hcol), andb_false_r. simpl.
         split; [auto|]. intros [H | (l & E & E' & _)]; [done|congruence]. }
    rewrite !bool_decide_eq_true_2 by done. simpl.
    destruct (Z.eqb_spec (Z.abs (rank (from lm) - rank (to lm))) 2) as [Habs|Habs].
    2: { split; [auto|]. intros [H | (l & E & _ & E' & _)]; [done|congruence]. }
    destruct (Z.eqb_spec (rank a) (rank (to lm))) as [Hr|Hr]; simpl.
    2: { split; [auto|]. intros [H | (l & E & _ & _ & E' & _)]; [done|congruence]. }
    destruct (Z.eqb_spec (Z.abs (file a - file (to lm))) 1) as [Hf|Hf].
    2: { split; [auto|].
         intros [H | (l & E & _ & _ & _ & E' & _)]; [done|congruence]. }
    rewrite in_pushIfLegal. split.
    - intros [H | [-> Hl]]; [by left|]. right. exists lm. auto 10.
    - intros [H | (l & E & _ & _ & _ & _ & -> & Hl)]; [by left|].
      injection E as <-. right. auto. }
  rewrite He, Hc, Hp. tauto.
Qed.
End PawnExactly.

Section KingExactly.
Variables (b : Board) (side : Color).

Lemma homeRank_valid f : 0 <= f < 8 -> isValid (mkSquare (homeRank side) f) = true.
Proof. intros Hf. apply isValid_spec. unfold homeRank. destruct side; simpl; lia. Qed.

Lemma generateKingMoves_exactly moves a rights m :
  In m (generateKingMoves moves b a side rights) <->
  In m moves \/ kingStep b side a m \/
  kingsideShape b side rights a m \/ queensideShape b side rights a m.
Proof.
  unfold generateKingMoves; cbv zeta.
  match goal with
  | |- context [fold_left ?s ?l ?p] => set (steps := fold_left s l p)
  end.
  assert (In m steps <-> In m moves \/ kingStep b side a m) as Hs.
  { subst steps. unfold kingStep.
    rewrite (fold_left_exactly _
      (fun dr => exists df, In df [-1; 0; 1] /\ (dr, df) <> (0, 0) /\
                   plainTo b side a (shifted a 1 dr df) m /\
                   hasPieceAtColor b (shifted a 1 dr df) side = false)).
    - split; (intros [H | H]; [by left | right]).
      + destruct H as (dr & Hdr & df & Hdf & H). exists dr, df. auto.
      + destruct H as (dr & df & Hdr & Hdf & H). exists dr. split; [done|].
        exists df. auto.
    - intros acc dr.
      rewrite (fold_left_exactly _
        (fun df => (dr, df) <> (0, 0) /\
                   plainTo b side a (shifted a 1 dr df) m /\
                   hasPieceAtColor b (shifted a 1 dr df) side = false)).
      + split; (intros [H | H]; [by left | right]).
        * destruct H as (df & Hdf & H). eauto.
        * destruct H as (df & Hdf & H). eauto.
      + intros acc' df. cbv beta zeta.
        destruct (Z.eqb_spec dr 0) as [->|Hdr]; simpl.
        * destruct (Z.eqb_spec df 0) as [->|Hdf].
          -- split; [auto|]. intros [H | [E _]]; [done|]. by destruct E.
          -- rewrite shifted_one, guarded_push_exactly. split.
             ++ intros [H | H]; [by left|]. right. split; [congruence|done].
             ++ intros [H | [_ H]]; auto.
        * rewrite shifted_one, guarded_push_exactly. split.
          -- intros [H | H]; [by left|]. right. split; [congruence|done].
          -- intros [H | [_ H]]; auto. }
  clearbody steps.
  fold (homeRank side). fold (kingsideRight side rights).
  fold (queensideRight side rights).
  destruct (negb (rank a =? homeRank side) || negb (file a =? 4)) eqn:Ehome.
  { rewrite Hs. split; [tauto|].
    intros [H | [H | [H | H]]]; auto;
      destruct H as (-> & _); simpl in Ehome;
      rewrite !Z.eqb_refl in Ehome; discriminate. }
  apply orb_false_iff in Ehome as [Er Ef]. apply negb_false_iff in Er, Ef.
  assert (a = mkSquare (homeRank side) 4) as Ha
      by (destruct a; simpl in *; f_equal; lia).
  destruct (isSquareAttacked b a (opponent side)) eqn:Eatt.
  { rewrite Hs. split; [tauto|].
    intros [H | [H | [H | H]]]; auto; destruct H as (_ & E & _); congruence. }
  match goal with
  | |- In m (if ?q then pushIfLegal ?ks _ _ _ else _) <-> _ =>
      set (afterKingside := ks);
      assert (In m afterKingside <->
              In m steps \/ kingsideShape b side rights a m) as Hk
  end.
  { subst afterKingside. unfold kingsideShape.
    match goal with
    | |- In m (if ?c then _ else _) <-> _ => destruct c eqn:Ek
    end.
    - repeat (apply andb_true_iff in Ek as [Ek ?]).
      repeat match goal with
             | X : _ && _ = true |- _ => apply andb_true_iff in X as [? ?]
             | X : negb _ = true |- _ => apply negb_true_iff in X
             | X : pieceIs _ _ _ _ = true |- _ => apply pieceIs_spec in X
             | X : hasPieceAt _ _ = false |- _ =>
                 apply hasPieceAt_false in X; [|by apply homeRank_valid]
             end.
      rewrite in_pushIfLegal. split.
      + intros [H' | [-> Hl]]; [by left|]. right. repeat split; auto.
      + intros [H' | H']; [by left|]. right.
        destruct H' as (_ & _ & _ & _ & _ & _ & _ & _ & -> & Hl). auto.
    - split; [auto|]. intros [H' | H']; [done|]. exfalso.
      destruct H' as (_ & _ & Hr & Hrook & H5 & H6 & Ha5 & Ha6 & _).
      apply pieceIs_spec in Hrook.
      apply (hasPieceAt_false b _ (homeRank_valid 5 ltac:(lia))) in H5.
      apply (hasPieceAt_false b _ (homeRank_valid 6 ltac:(lia))) in H6.
      rewrite Hr, Hrook, H5, H6, Ha5, Ha6 in Ek. discriminate. }
  clearbody afterKingside.
  unfold queensideShape.
  match goal with
  | |- In m (if ?c then _ else _) <-> _ => destruct c eqn:Eq
  end.
  - repeat (apply andb_true_iff in Eq as [Eq ?]).
    repeat match goal with
           | X : _ && _ = true |- _ => apply andb_true_iff in X as [? ?]
           | X : negb _ = true |- _ => apply negb_true_iff in X
           | X : pieceIs _ _ _ _ = true |- _ => apply pieceIs_spec in X
           | X : hasPieceAt _ _ = false |- _ =>
               apply hasPieceAt_false in X; [|by apply homeRank_valid]
           end.
    rewrite in_pushIfLegal, Hk, Hs. split.
    + intros [[[H' | H'] | H'] | [-> Hl]]; auto.
      right. right. right. repeat split; auto.
    + intros [H' | [H' | [H' | H']]]; auto.
      right. destruct H' as (_ & _ & _ & _ & _ & _ & _ & _ & _ & -> & Hl). auto.
  - rewrite Hk, Hs. split; [tauto|].
    intros [H' | [H' | [H' | H']]]; auto. exfalso.
    destruct H' as (_ & _ & Hr & Hrook & H1 & H2 & H3 & Ha2 & Ha3 & _).
    apply pieceIs_spec in Hrook.
    apply (hasPieceAt_false b _ (homeRank_valid 1 ltac:(lia))) in H1.
    apply (hasPieceAt_false b _ (homeRank_valid 2 ltac:(lia))) in H2.
    apply (hasPieceAt_false b _ (homeRank_valid 3 ltac:(lia))) in H3.
    rewrite Hr, Hrook, H1, H2, H3, Ha2, Ha3 in Eq. discriminate.
Qed.
End KingExactly.

Section LegalMovesExactly.
Variables (b : Board) (side : Color) (last_move : option Move)
          (rights : CastlingRights).

Lemma directions_are_unit :
  (forall d, In d kBishopDirections -> In d kAllDirections) /\
  (forall d, In d kRookDirections -> In d kAllDirections) /\
  (forall d, In d kAllDirections -> In d kAllDirections).
Proof.
  unfold kAllDirections. repeat split; intros d H; try done;
    apply in_app_iff; auto.
Qed.

Lemma generateFrom_exactly moves sq m :
  In m (generateFrom moves b side last_move rights sq) <->
  In m moves \/ generated b side last_move rights sq m.
Proof.
  unfold generateFrom, generated.
  destruct (at_ b sq) as [[t c]|] eqn:Hat.
  2: { split; [auto|]. intros [H | (p & E & _)]; [done|discriminate]. }
  cbn [type color]. destruct (decide (c = side)) as [->|Hc].
  2: { rewrite bool_decide_eq_true_2 by done. split; [auto|].
       intros [H | (p & E & E' & _)]; [done|]. injection E as <-. done. }
  rewrite bool_decide_eq_false_2 by (intros N; by apply N).
  destruct directions_are_unit as (Hb & Hr & Hq).
  assert (forall P : Prop,
            (P <-> In m moves \/ pushedFor b side last_move rights t sq m) ->
            (P <-> In m moves \/
                   exists piece, Some (mkPiece t side) = Some piece /\
                                 color piece = side /\
                                 pushedFor b side last_move rights (type piece) sq m))
    as Hwrap.
  { intros P ->. split; (intros [H | H]; [by left | right]).
    - exists (mkPiece t side). auto.
    - destruct H as (p & E & _ & H). injection E as <-. done. }
  apply Hwrap. destruct t; cbn [pushedFor].
  - apply generatePawnMoves_exactly.
  - apply generateKnightMoves_exactly.
  - by apply generateSlidingMoves_exactly.
  - by apply generateSlidingMoves_exactly.
  - by apply generateSlidingMoves_exactly.
  - apply generateKingMoves_exactly.
Qed.

Lemma plainTo_from a c m : plainTo b side a c m -> from m = a /\ to m = c.
Proof. by intros (-> & _). Qed.

Lemma generated_from sq m :
  generated b side last_move rights sq m -> from m = sq.
Proof.
  intros ([t c] & _ & _ & H). cbn [type] in H. destruct t; cbn [pushedFor] in H.
  - destruct H as [[H _] | [(_ & _ & _ & H & _) | [(df & _ & H & _) | H]]];
      try (by apply plainTo_from in H as [? _]).
    by apply enPassantShape_facts in H as [? _].
  - destruct H as (dr & df & _ & H & _). by apply plainTo_from in H as [? _].
  - destruct H as (dr & df & k & _ & _ & H & _). by apply plainTo_from in H as [? _].
  - destruct H as (dr & df & k & _ & _ & H & _). by apply plainTo_from in H as [? _].
  - destruct H as (dr & df & k & _ & _ & H & _). by apply plainTo_from in H as [? _].
  - destruct H as [(dr & df & _ & _ & _ & H & _) | [H | H]].
    + by apply plainTo_from in H as [? _].
    + by apply (kingsideShape_facts b side rights) in H as [? _].
    + by apply (queensideShape_facts b side rights) in H as [? _].
Qed.

(** [Rules::legalMoves] returns the moves that the generator of the piece
    on their origin pushes, all of them and no others. *)
Theorem legalMoves_exactly m :
  In m (legalMoves b side last_move rights) <->
  generated b side last_move rights (from m) m.
Proof.
  unfold legalMoves.
  rewrite (fold_left_exactly _
    (fun r => exists f, In f indices /\
                        generated b side last_move rights (mkSquare r f) m)).
  - split.
    + intros [[] | (r & Hr & f & Hf & H)].
      by rewrite (generated_from _ _ H).
    + intros H. right. destruct H as (p & Hat & Hrest).
      pose proof (at_Some_valid _ _ _ Hat) as Hv.
      apply isValid_spec in Hv as [Hr Hf].
      exists (rank (from m)). split; [by apply in_indices|].
      exists (file (from m)). split; [by apply in_indices|].
      exists p. by destruct (from m).
  - intros acc r.
    rewrite (fold_left_exactly _
      (fun f => generated b side last_move rights (mkSquare r f) m)); [done|].
    intros acc' f. apply generateFrom_exactly.
Qed.
End LegalMovesExactly.

(* ================================================================== *)
(** * The board operations                                             *)
(* ================================================================== *)

(** X1. [setPiece] followed by [at]: after writing to a square of the
    board, reading that square gives the piece written and reading any
    other square of the board gives what it held before; for a square off
    the board [setPiece] leaves the board as it is. *)
Theorem setPiece_then_at (b : Board) (sq : Square) (p : option Piece) :
  (isValid sq = true ->
   forall sq', isValid sq' = true ->
               at_ (setPiece b sq p) sq' =
               if decide (sq' = sq) then p else at_ b sq') /\
  (isValid sq = false -> setPiece b sq p = b).
Proof.
  split.
  - intros Hv sq' _. rewrite at_setPiece. by rewrite Hv.
  - intros H. unfold setPiece. by rewrite H.
Qed.

(** X2. [movePiece] relocates, for squares of the board: the origin is
    empty afterwards, the destination holds what the origin held,
    whatever stood there before is gone, and no other square changes.
    When origin and destination are the same square the piece on it is
    lost. *)
Theorem movePiece_relocates (b : Board) (m : Move) (sq : Square) :
  isValid (from m) = true -> isValid (to m) = true -> isValid sq = true ->
  at_ (movePiece b m) sq =
  if decide (sq = from m) then None
  else if decide (sq = to m) then at_ b (from m) else at_ b sq.
Proof. intros _ Hv _. rewrite at_movePiece. by rewrite Hv. Qed.

Lemma movePiece_relocates_witness :
  isValid (from (mv 6 4 4 4)) = true /\ isValid (to (mv 6 4 4 4)) = true /\
  isValid (mkSquare 4 4) = true /\
  at_ (movePiece reset (mv 6 4 4 4)) (mkSquare 4 4) =
  if decide (mkSquare 4 4 = from (mv 6 4 4 4)) then None
  else if decide (mkSquare 4 4 = to (mv 6 4 4 4))
       then at_ reset (from (mv 6 4 4 4)) else at_ reset (mkSquare 4 4).
Proof.
  split; [reflexivity|]. split; [reflexivity|]. split; [reflexivity|].
  apply (movePiece_relocates reset (mv 6 4 4 4) (mkSquare 4 4)); reflexivity.
Defined.

(** X3. The two overloads of [hasPieceAt] agree: a square has a piece
    exactly when it has a white or a black one, and exactly when it is on
    the board and [at] finds a piece; off the board both say [false]. *)
Theorem hasPieceAt_overloads_agree (b : Board) (sq : Square) :
  hasPieceAt b sq = hasPieceAtColor b sq White || hasPieceAtColor b sq Black /\
  (hasPieceAt b sq = true <-> isValid sq = true /\ at_ b sq <> None) /\
  (isValid sq = false ->
   hasPieceAt b sq = false /\ forall c, hasPieceAtColor b sq c = false).
Proof.
  unfold hasPieceAt, hasPieceAtColor. destruct (isValid sq) eqn:Hv; simpl.
  - destruct (at_ b sq) as [[t c]|]; simpl.
    + split; [destruct c; reflexivity|]. split; [|discriminate].
      split; [intros _; split; [done|discriminate] | done].
    + split; [done|]. split; [|discriminate].
      split; [discriminate | by intros [_ H]].
  - split; [done|]. split; [|done]. split; [discriminate | by intros [H _]].
Qed.

(** X4. [clearSquare] empties its square and no other, and clearing
    twice is clearing once. *)
Theorem clearSquare_empties (b : Board) (sq : Square) :
  (forall sq', isValid sq' = true ->
               at_ (clearSquare b sq) sq' =
               if decide (sq' = sq) then None else at_ b sq') /\
  hasPieceAt (clearSquare b sq) sq = false /\
  (forall sq', isValid sq' = true ->
               at_ (clearSquare (clearSquare b sq) sq) sq' =
               at_ (clearSquare b sq) sq').
Proof.
  split; [|split].
  - intros sq' _. apply at_clearSquare.
  - unfold hasPieceAt. rewrite at_clearSquare, decide_True by done.
    rewrite bool_decide_eq_false_2 by (by intros [x Hx]). apply andb_false_r.
  - intros sq' _. rewrite !at_clearSquare. by destruct (decide (sq' = sq)).
Qed.

(** X5. No piece appears from nowhere: for a move between squares of
    the board, legal or not, whatever [handleSpecialMoves] leaves on a
    square stood on some square before; the same holds for the scratch
    copy of [isMoveLegal]. *)
Theorem moves_create_no_piece (b : Board) (m : Move) (sq : Square) :
  isValid (from m) = true -> isValid (to m) = true -> isValid sq = true ->
  (at_ (handleSpecialMoves b m) sq = None \/
   exists sq', isValid sq' = true /\
               at_ b sq' = at_ (handleSpecialMoves b m) sq) /\
  (at_ (scratch b m) sq = None \/
   exists sq', isValid sq' = true /\ at_ b sq' = at_ (scratch b m) sq).
Proof.
  intros _ _ _.
  assert (forall p, (exists sq', at_ b sq' = Some p) ->
                    exists sq', isValid sq' = true /\ at_ b sq' = Some p) as Hon.
  { intros p (sq' & H). exists sq'. split; [by eapply at_Some_valid|done]. }
  split.
  - destruct (at_ (handleSpecialMoves b m) sq) as [p|] eqn:E; [right|by left].
    apply Hon.
    assert (forall sq0,
              at_ (movePiece (if en_passant m
                              then clearSquare b (mkSquare (rank (from m))
                                                           (file (to m)))
                              else b) m) sq0 = Some p ->
              exists sq', at_ b sq' = Some p) as Hmain.
    { intros sq0 H. apply movePiece_origin in H as (s & Hs).
      destruct (en_passant m); [|eauto].
      apply clearSquare_origin in Hs. eauto. }
    unfold handleSpecialMoves in E.
    destruct (castling m).
    + destruct (file (to m) =? 6).
      * apply movePiece_origin in E as (s & Hs). by apply (Hmain s).
      * destruct (file (to m) =? 2).
        -- apply movePiece_origin in E as (s & Hs). by apply (Hmain s).
        -- by apply (Hmain sq).
    + by apply (Hmain sq).
  - destruct (at_ (scratch b m) sq) as [p|] eqn:E; [right|by left].
    apply Hon. by apply scratch_origin in E.
Qed.

Lemma moves_create_no_piece_witness :
  isValid (from (mv 6 4 4 4)) = true /\ isValid (to (mv 6 4 4 4)) = true /\
  isValid (mkSquare 4 4) = true /\
  ((at_ (handleSpecialMoves reset (mv 6 4 4 4)) (mkSquare 4 4) = None \/
    exists sq', isValid sq' = true /\
                at_ reset sq' = at_ (handleSpecialMoves reset (mv 6 4 4 4)) (mkSquare 4 4)) /\
   (at_ (scratch reset (mv 6 4 4 4)) (mkSquare 4 4) = None \/
    exists sq', isValid sq' = true /\
                at_ reset sq' = at_ (scratch reset (mv 6 4 4 4)) (mkSquare 4 4))).
Proof.
  split; [reflexivity|]. split; [reflexivity|]. split; [reflexivity|].
  apply (moves_create_no_piece reset (mv 6 4 4 4) (mkSquare 4 4)); reflexivity.
Defined.

(* ================================================================== *)
(** * What the list of legal moves holds                               *)
(* ================================================================== *)

Lemma Forall_of_In {A} (P : A -> Prop) (l : list A) :
  (forall x, In x l -> P x) -> Forall P l.
Proof.
  induction l as [|x l IH]; intros H; constructor.
  - apply H. by left.
  - apply IH. intros y Hy. apply H. by right.
Qed.

Lemma knight_offsets dr df :
  In (dr, df) kKnightMoves <->
  (Z.abs dr = 1 /\ Z.abs df = 2) \/ (Z.abs dr = 2 /\ Z.abs df = 1).
Proof.
  unfold kKnightMoves. simpl. split.
  - intros H. repeat destruct H as [H|H]; try done; injection H as <- <-; lia.
  - intros H.
    assert ((dr = 1 \/ dr = -1 \/ dr = 2 \/ dr = -2) /\
            (df = 1 \/ df = -1 \/ df = 2 \/ df = -2)) as [Hr Hf] by lia.
    destruct Hr as [-> | [-> | [-> | ->]]];
      destruct Hf as [-> | [-> | [-> | ->]]];
      first [ lia | repeat (first [left; reflexivity | right]) ].
Qed.

Lemma unit_offsets dr df :
  In dr [-1; 0; 1] /\ In df [-1; 0; 1] /\ (dr, df) <> (0, 0) <->
  Z.abs dr <= 1 /\ Z.abs df <= 1 /\ (dr <> 0 \/ df <> 0).
Proof.
  simpl. split.
  - intros (Hr & Hf & Hne).
    assert (dr <> 0 \/ df <> 0) as Hn.
    { destruct (Z.eq_dec dr 0) as [->|]; [|auto].
      destruct (Z.eq_dec df 0) as [->|]; [|auto]. by destruct Hne. }
    lia.
  - intros (Hr & Hf & Hne). split; [lia|]. split; [lia|].
    intros E. injection E as -> ->. lia.
Qed.

Lemma shifted_to a c :
  shifted a 1 (rank c - rank a) (file c - file a) = c.
Proof. unfold shifted. destruct c. simpl. f_equal; lia. Qed.

(** X6. [Rules::legalMoves] is complete and sound with respect to the
    generators: a move is in the list exactly when the square it starts
    from carries a piece of the side to move and the generator for that
    piece's type pushes it, which includes passing [isMoveLegal].
    The last move is taken to name squares of the board:
    [generatePawnMoves] reads the square where it ended without a test. *)
Theorem legalMoves_are_the_generated_moves (b : Board) (side : Color)
    (last_move : option Move) (castling_rights : CastlingRights) (m : Move) :
  lastMoveOnBoard last_move ->
  In m (legalMoves b side last_move castling_rights) <->
  exists piece,
    at_ b (from m) = Some piece /\ color piece = side /\
    isMoveLegal b m side = true /\
    match type piece with
    | Pawn => pawnPush b side (from m) m \/ pawnDoublePush b side (from m) m \/
              pawnCapture b side (from m) m \/
              enPassantShape b side last_move (from m) m
    | Knight => knightMove b side (from m) m
    | Bishop => slideMove b side kBishopDirections (from m) m
    | Rook => slideMove b side kRookDirections (from m) m
    | Queen => slideMove b side kAllDirections (from m) m
    | King => kingStep b side (from m) m \/
              kingsideShape b side castling_rights (from m) m \/
              queensideShape b side castling_rights (from m) m
    end.
Proof.
  intros _.
  rewrite legalMoves_exactly. split.
  - intros H. pose proof H as (p & Hat & Hc & Hp).
    exists p. repeat split; auto.
    apply legalMoves_exactly in H. by eapply legalMoves_filtered.
  - intros (p & Hat & Hc & _ & Hp). exists p. auto.
Qed.

Lemma legalMoves_are_the_generated_moves_witness :
  lastMoveOnBoard (last_move_ beforeEnPassant) /\
  (In takeEnPassant (legalMoves (board_ beforeEnPassant)
      (side_to_move_ beforeEnPassant) (last_move_ beforeEnPassant)
      (castling_rights_ beforeEnPassant)) <->
   exists piece,
     at_ (board_ beforeEnPassant) (from takeEnPassant) = Some piece /\ color piece =
         (side_to_move_ beforeEnPassant) /\
     isMoveLegal (board_ beforeEnPassant) takeEnPassant
         (side_to_move_ beforeEnPassant) = true /\
     match type piece with
     | Pawn => pawnPush (board_ beforeEnPassant) (side_to_move_ beforeEnPassant)
         (from takeEnPassant) takeEnPassant \/ pawnDoublePush (board_ beforeEnPassant)
         (side_to_move_ beforeEnPassant) (from takeEnPassant) takeEnPassant \/
               pawnCapture (board_ beforeEnPassant) (side_to_move_ beforeEnPassant)
                   (from takeEnPassant) takeEnPassant \/
               enPassantShape (board_ beforeEnPassant) (side_to_move_ beforeEnPassant)
                   (last_move_ beforeEnPassant) (from takeEnPassant) takeEnPassant
     | Knight => knightMove (board_ beforeEnPassant) (side_to_move_ beforeEnPassant)
         (from takeEnPassant) takeEnPassant
     | Bishop => slideMove (board_ beforeEnPassant)
         (side_to_move_ beforeEnPassant) kBishopDirections
         (from takeEnPassant) takeEnPassant
     | Rook => slideMove (board_ beforeEnPassant)
         (side_to_move_ beforeEnPassant) kRookDirections
         (from takeEnPassant) takeEnPassant
     | Queen => slideMove (board_ beforeEnPassant)
         (side_to_move_ beforeEnPassant) kAllDirections
         (from takeEnPassant) takeEnPassant
     | King => kingStep (board_ beforeEnPassant) (side_to_move_ beforeEnPassant)
         (from takeEnPassant) takeEnPassant \/
               kingsideShape (board_ beforeEnPassant) (side_to_move_ beforeEnPassant)
                   (castling_rights_ beforeEnPassant)
                   (from takeEnPassant) takeEnPassant \/
               queensideShape (board_ beforeEnPassant) (side_to_move_ beforeEnPassant)
                   (castling_rights_ beforeEnPassant) (from takeEnPassant) takeEnPassant
     end).
Proof.
  split; [by vm_compute|].
  apply (legalMoves_are_the_generated_moves (board_ beforeEnPassant)
      (side_to_move_ beforeEnPassant) (last_move_ beforeEnPassant)
      (castling_rights_ beforeEnPassant) takeEnPassant).
  by vm_compute.
Defined.

(** X7. Knights.  The list holds a move of a knight of the side to move
    exactly when the move carries no flag, ends a knight's jump away (one
    rank and two files, or two ranks and one file) on a square of the
    board that holds no piece of the mover, and passes [isMoveLegal].
    The last move is taken to name squares of the board:
    [generatePawnMoves] reads the square where it ended without a test. *)
Theorem knight_moves_exactly (b : Board) (side : Color)
    (last_move : option Move) (castling_rights : CastlingRights) (m : Move) :
  lastMoveOnBoard last_move ->
  In m (legalMoves b side last_move castling_rights) /\
  at_ b (from m) = Some (mkPiece Knight side)
  <->
  at_ b (from m) = Some (mkPiece Knight side) /\
  m = plainMove (from m) (to m) /\
  knightJump (from m) (to m) /\
  isValid (to m) = true /\
  hasPieceAtColor b (to m) side = false /\
  isMoveLegal b m side = true.
Proof.
  intros _.
  rewrite legalMoves_exactly. unfold generated, knightJump. split.
  - intros [(p & Hat & Hc & Hp) Hk]. rewrite Hk in Hat. injection Hat as <-.
    cbn [type pushedFor] in Hp. destruct Hp as (dr & df & Hd & (Hm & Hv & Hl) & Hown).
    apply knight_offsets in Hd. rewrite shifted_one in *.
    rewrite Hm in *. simpl in *. repeat split; auto; lia.
  - intros (Hk & Hm & Hj & Hv & Hown & Hl). split; [|done].
    exists (mkPiece Knight side). repeat split; auto. cbn [type pushedFor].
    exists (rank (to m) - rank (from m)), (file (to m) - file (from m)).
    rewrite shifted_to. split; [by apply knight_offsets|]. by repeat split.
Qed.

Lemma knight_moves_exactly_witness :
  lastMoveOnBoard (last_move_ beforeEnPassant) /\
  (In (mv 7 6 5 5) (legalMoves (board_ beforeEnPassant)
      (side_to_move_ beforeEnPassant) (last_move_ beforeEnPassant)
      (castling_rights_ beforeEnPassant)) /\
   at_ (board_ beforeEnPassant) (from (mv 7 6 5 5)) = Some (mkPiece Knight
       (side_to_move_ beforeEnPassant))
   <->
   at_ (board_ beforeEnPassant) (from (mv 7 6 5 5)) = Some (mkPiece Knight
       (side_to_move_ beforeEnPassant)) /\
   (mv 7 6 5 5) = plainMove (from (mv 7 6 5 5)) (to (mv 7 6 5 5)) /\
   knightJump (from (mv 7 6 5 5)) (to (mv 7 6 5 5)) /\
   isValid (to (mv 7 6 5 5)) = true /\
   hasPieceAtColor (board_ beforeEnPassant) (to (mv 7 6 5 5))
       (side_to_move_ beforeEnPassant) = false /\
   isMoveLegal (board_ beforeEnPassant) (mv 7 6 5 5)
       (side_to_move_ beforeEnPassant) = true).
Proof.
  split; [by vm_compute|].
  apply (knight_moves_exactly (board_ beforeEnPassant) (side_to_move_ beforeEnPassant)
      (last_move_ beforeEnPassant) (castling_rights_ beforeEnPassant) (mv 7 6 5 5)).
  by vm_compute.
Defined.

(** X8. Kings.  The list holds a move of a king of the side to move
    exactly when it is either a flagless step to one of the eight
    neighbours, on the board, not onto a piece of the mover and passing
    [isMoveLegal], or one of the two castling moves with all the tests
    of [generateKingMoves].
    The last move is taken to name squares of the board:
    [generatePawnMoves] reads the square where it ended without a test. *)
Theorem king_moves_exactly (b : Board) (side : Color)
    (last_move : option Move) (castling_rights : CastlingRights) (m : Move) :
  lastMoveOnBoard last_move ->
  In m (legalMoves b side last_move castling_rights) /\
  at_ b (from m) = Some (mkPiece King side)
  <->
  at_ b (from m) = Some (mkPiece King side) /\
  ((m = plainMove (from m) (to m) /\
    Z.abs (rank (to m) - rank (from m)) <= 1 /\
    Z.abs (file (to m) - file (from m)) <= 1 /\
    to m <> from m /\
    isValid (to m) = true /\
    hasPieceAtColor b (to m) side = false /\
    isMoveLegal b m side = true) \/
   kingsideShape b side castling_rights (from m) m \/
   queensideShape b side castling_rights (from m) m).
Proof.
  intros _.
  rewrite legalMoves_exactly. unfold generated. split.
  - intros [(p & Hat & Hc & Hp) Hk]. rewrite Hk in Hat. injection Hat as <-.
    split; [done|]. cbn [type pushedFor] in Hp.
    destruct Hp as [(dr & df & Hr & Hf & Hne & (Hm & Hv & Hl) & Hown) | Hp];
      [left | by right].
    destruct (proj1 (unit_offsets dr df) (conj Hr (conj Hf Hne))) as (Ar & Af & An).
    rewrite shifted_one in *. rewrite Hm in *. simpl in *.
    repeat split; auto; try lia.
    intros E. destruct (from m) as [r f]. injection E as E1 E2. lia.
  - intros (Hk & Hp). split; [|done].
    exists (mkPiece King side). repeat split; auto. cbn [type pushedFor].
    destruct Hp as [(Hm & Ar & Af & Hne & Hv & Hown & Hl) | Hp]; [left | by right].
    exists (rank (to m) - rank (from m)), (file (to m) - file (from m)).
    rewrite shifted_to.
    assert (rank (to m) - rank (from m) <> 0 \/ file (to m) - file (from m) <> 0)
      as An.
    { destruct (Z.eq_dec (rank (to m)) (rank (from m))) as [E1|]; [|lia].
      destruct (Z.eq_dec (file (to m)) (file (from m))) as [E2|]; [|lia].
      exfalso. apply Hne. destruct (to m), (from m). simpl in *. congruence. }
    destruct (proj2 (unit_offsets _ _) (conj Ar (conj Af An))) as (Hr & Hf & Hn).
    by repeat split.
Qed.

Lemma king_moves_exactly_witness :
  lastMoveOnBoard (last_move_ beforeEnPassant) /\
  (In (mv 7 4 6 4) (legalMoves (board_ beforeEnPassant)
      (side_to_move_ beforeEnPassant) (last_move_ beforeEnPassant)
      (castling_rights_ beforeEnPassant)) /\
   at_ (board_ beforeEnPassant) (from (mv 7 4 6 4)) = Some (mkPiece King
       (side_to_move_ beforeEnPassant))
   <->
   at_ (board_ beforeEnPassant) (from (mv 7 4 6 4)) = Some (mkPiece King
       (side_to_move_ beforeEnPassant)) /\
   (((mv 7 4 6 4) = plainMove (from (mv 7 4 6 4)) (to (mv 7 4 6 4)) /\
     Z.abs (rank (to (mv 7 4 6 4)) - rank (from (mv 7 4 6 4))) <= 1 /\
     Z.abs (file (to (mv 7 4 6 4)) - file (from (mv 7 4 6 4))) <= 1 /\
     to (mv 7 4 6 4) <> from (mv 7 4 6 4) /\
     isValid (to (mv 7 4 6 4)) = true /\
     hasPieceAtColor (board_ beforeEnPassant) (to (mv 7 4 6 4))
         (side_to_move_ beforeEnPassant) = false /\
     isMoveLegal (board_ beforeEnPassant) (mv 7 4 6 4)
         (side_to_move_ beforeEnPassant) = true) \/
    kingsideShape (board_ beforeEnPassant) (side_to_move_ beforeEnPassant)
        (castling_rights_ beforeEnPassant) (from (mv 7 4 6 4)) (mv 7 4 6 4) \/
    queensideShape (board_ beforeEnPassant) (side_to_move_ beforeEnPassant)
        (castling_rights_ beforeEnPassant) (from (mv 7 4 6 4)) (mv 7 4 6 4))).
Proof.
  split; [by vm_compute|].
  apply (king_moves_exactly (board_ beforeEnPassant) (side_to_move_ beforeEnPassant)
      (last_move_ beforeEnPassant) (castling_rights_ beforeEnPassant) (mv 7 4 6 4)).
  by vm_compute.
Defined.

Lemma typed_moves_generated_aux b side last_move rights t P m :
  (forall a, pushedFor b side last_move rights t a m = P a) ->
  In m (legalMoves b side last_move rights) /\
  at_ b (from m) = Some (mkPiece t side)
  <-> at_ b (from m) = Some (mkPiece t side) /\ P (from m).
Proof.
  intros HP. rewrite legalMoves_exactly. unfold generated. split.
  - intros [(p & Hat & Hc & Hp) Hk]. rewrite Hk in Hat. injection Hat as <-.
    split; [done|]. by rewrite <- HP.
  - intros [Hk Hp]. split; [|done]. eexists. split; [exact Hk|].
    split; [done|]. cbn [type]. by rewrite HP.
Qed.

(** X9. Bishops, rooks and queens.  The list holds a move of such a
    piece exactly when the move carries no flag and goes [k + 1] steps
    along one direction of the piece's table over [k] empty squares of
    the board, to a square of the board that holds no piece of the mover,
    and passes [isMoveLegal]: a slider stops on the first occupied square
    and never jumps.
    The last move is taken to name squares of the board:
    [generatePawnMoves] reads the square where it ended without a test. *)
Theorem slider_moves_exactly (b : Board) (side : Color)
    (last_move : option Move) (castling_rights : CastlingRights) (m : Move) :
  lastMoveOnBoard last_move ->
  (In m (legalMoves b side last_move castling_rights) /\
   at_ b (from m) = Some (mkPiece Bishop side)
   <-> at_ b (from m) = Some (mkPiece Bishop side) /\
       slideMove b side kBishopDirections (from m) m) /\
  (In m (legalMoves b side last_move castling_rights) /\
   at_ b (from m) = Some (mkPiece Rook side)
   <-> at_ b (from m) = Some (mkPiece Rook side) /\
       slideMove b side kRookDirections (from m) m) /\
  (In m (legalMoves b side last_move castling_rights) /\
   at_ b (from m) = Some (mkPiece Queen side)
   <-> at_ b (from m) = Some (mkPiece Queen side) /\
       slideMove b side kAllDirections (from m) m).
Proof.
  intros _.
  split; [|split].
  - by apply (typed_moves_generated_aux b side last_move castling_rights Bishop
                (fun a => slideMove b side kBishopDirections a m)).
  - by apply (typed_moves_generated_aux b side last_move castling_rights Rook
                (fun a => slideMove b side kRookDirections a m)).
  - by apply (typed_moves_generated_aux b side last_move castling_rights Queen
                (fun a => slideMove b side kAllDirections a m)).
Qed.

Lemma slider_moves_exactly_witness :
  lastMoveOnBoard (last_move_ beforeEnPassant) /\
  ((In (mv 7 5 6 4) (legalMoves (board_ beforeEnPassant)
      (side_to_move_ beforeEnPassant) (last_move_ beforeEnPassant)
      (castling_rights_ beforeEnPassant)) /\
    at_ (board_ beforeEnPassant) (from (mv 7 5 6 4)) = Some (mkPiece Bishop
        (side_to_move_ beforeEnPassant))
    <-> at_ (board_ beforeEnPassant) (from (mv 7 5 6 4)) = Some (mkPiece Bishop
        (side_to_move_ beforeEnPassant)) /\
        slideMove (board_ beforeEnPassant)
            (side_to_move_ beforeEnPassant) kBishopDirections (from (mv 7 5 6 4))
            (mv 7 5 6 4)) /\
   (In (mv 7 5 6 4) (legalMoves (board_ beforeEnPassant)
       (side_to_move_ beforeEnPassant) (last_move_ beforeEnPassant)
       (castling_rights_ beforeEnPassant)) /\
    at_ (board_ beforeEnPassant) (from (mv 7 5 6 4)) = Some (mkPiece Rook
        (side_to_move_ beforeEnPassant))
    <-> at_ (board_ beforeEnPassant) (from (mv 7 5 6 4)) = Some (mkPiece Rook
        (side_to_move_ beforeEnPassant)) /\
        slideMove (board_ beforeEnPassant)
            (side_to_move_ beforeEnPassant) kRookDirections (from (mv 7 5 6 4))
            (mv 7 5 6 4)) /\
   (In (mv 7 5 6 4) (legalMoves (board_ beforeEnPassant)
       (side_to_move_ beforeEnPassant) (last_move_ beforeEnPassant)
       (castling_rights_ beforeEnPassant)) /\
    at_ (board_ beforeEnPassant) (from (mv 7 5 6 4)) = Some (mkPiece Queen
        (side_to_move_ beforeEnPassant))
    <-> at_ (board_ beforeEnPassant) (from (mv 7 5 6 4)) = Some (mkPiece Queen
        (side_to_move_ beforeEnPassant)) /\
        slideMove (board_ beforeEnPassant)
            (side_to_move_ beforeEnPassant) kAllDirections (from (mv 7 5 6 4))
            (mv 7 5 6 4))).
Proof.
  split; [by vm_compute|].
  apply (slider_moves_exactly (board_ beforeEnPassant) (side_to_move_ beforeEnPassant)
      (last_move_ beforeEnPassant) (castling_rights_ beforeEnPassant) (mv 7 5 6 4)).
  by vm_compute.
Defined.

(** The geometry of a slide along a direction of the tables. *)
Lemma slideMove_line b side directions a m :
  (forall d, In d directions -> In d kAllDirections) ->
  slideMove b side directions a m ->
  exists dr df (k : nat),
    In (dr, df) directions /\
    m = plainMove a (to m) /\
    rank (to m) - rank a = Z.of_nat (S k) * dr /\
    file (to m) - file a = Z.of_nat (S k) * df.
Proof.
  intros _ (dr & df & k & Hd & _ & (Hm & _) & _).
  exists dr, df, k. rewrite Hm. simpl. repeat split; auto; lia.
Qed.

(** X10. Sliders keep to their lines: in the list, a bishop's move
    changes rank and file by the same non-zero amount, a rook's move
    changes exactly one of them, and a queen's move does one or the
    other.
    The last move is taken to name squares of the board:
    [generatePawnMoves] reads the square where it ended without a test. *)
Theorem sliders_keep_to_their_lines (b : Board) (side : Color)
    (last_move : option Move) (castling_rights : CastlingRights) :
  lastMoveOnBoard last_move ->
  Forall (fun m =>
            let dr := rank (to m) - rank (from m) in
            let df := file (to m) - file (from m) in
            match type <$> at_ b (from m) with
            | Some Bishop => Z.abs dr = Z.abs df /\ dr <> 0
            | Some Rook => (dr = 0 /\ df <> 0) \/ (df = 0 /\ dr <> 0)
            | Some Queen => (Z.abs dr = Z.abs df /\ dr <> 0) \/
                            (dr = 0 /\ df <> 0) \/ (df = 0 /\ dr <> 0)
            | _ => True
            end)
         (legalMoves b side last_move castling_rights).
Proof.
  intros _.
  apply Forall_of_In. intros m Hin. apply legalMoves_exactly in Hin.
  destruct Hin as ([t c] & Hat & Hc & Hp). rewrite Hat. cbn [fmap option_fmap option_map type] in *.
  destruct directions_are_unit as (Hb & Hr & Hq).
  destruct t; try done; cbn [pushedFor] in Hp.
  - apply slideMove_line in Hp as (dr & df & k & Hd & Hm & Er & Ef); [|done].
    cbv zeta. rewrite Er, Ef. simpl in Hd.
    repeat destruct Hd as [Hd|Hd]; try done; injection Hd as <- <-; lia.
  - apply slideMove_line in Hp as (dr & df & k & Hd & Hm & Er & Ef); [|done].
    cbv zeta. rewrite Er, Ef. simpl in Hd.
    repeat destruct Hd as [Hd|Hd]; try done; injection Hd as <- <-; lia.
  - apply slideMove_line in Hp as (dr & df & k & Hd & Hm & Er & Ef); [|done].
    cbv zeta. rewrite Er, Ef. simpl in Hd.
    repeat destruct Hd as [Hd|Hd]; try done; injection Hd as <- <-; lia.
Qed.

Lemma sliders_keep_to_their_lines_witness :
  lastMoveOnBoard (last_move_ beforeEnPassant) /\
  (Forall (fun m =>
             let dr := rank (to m) - rank (from m) in
             let df := file (to m) - file (from m) in
             match type <$> at_ (board_ beforeEnPassant) (from m) with
             | Some Bishop => Z.abs dr = Z.abs df /\ dr <> 0
             | Some Rook => (dr = 0 /\ df <> 0) \/ (df = 0 /\ dr <> 0)
             | Some Queen => (Z.abs dr = Z.abs df /\ dr <> 0) \/
                             (dr = 0 /\ df <> 0) \/ (df = 0 /\ dr <> 0)
             | _ => True
             end)
          (legalMoves (board_ beforeEnPassant) (side_to_move_ beforeEnPassant)
              (last_move_ beforeEnPassant) (castling_rights_ beforeEnPassant))).
Proof.
  split; [by vm_compute|].
  apply (sliders_keep_to_their_lines (board_ beforeEnPassant)
      (side_to_move_ beforeEnPassant) (last_move_ beforeEnPassant)
      (castling_rights_ beforeEnPassant)).
  by vm_compute.
Defined.

Lemma pawn_moves_generated_aux b side last_move rights m :
  In m (legalMoves b side last_move rights) /\
  at_ b (from m) = Some (mkPiece Pawn side)
  <->
  at_ b (from m) = Some (mkPiece Pawn side) /\
  (pawnPush b side (from m) m \/ pawnDoublePush b side (from m) m \/
   pawnCapture b side (from m) m \/
   enPassantShape b side last_move (from m) m).
Proof.
  rewrite legalMoves_exactly. unfold generated. split.
  - intros [(p & Hat & Hc & Hp) Hk]. rewrite Hk in Hat. by injection Hat as <-.
  - intros [Hk Hp]. split; [|done]. eexists. split; [exact Hk|]. by split.
Qed.

(** X11. Pawns.  The list holds a move of a pawn of the side to move
    exactly when it is a push of one rank onto an empty square, a push of
    two ranks from the starting rank over an empty square onto an empty
    square, a capture one rank ahead and one file aside onto a square
    that holds an opponent's piece, or the en-passant move; each passes
    [isMoveLegal].
    The last move is taken to name squares of the board:
    [generatePawnMoves] reads the square where it ended without a test. *)
Theorem pawn_moves_exactly (b : Board) (side : Color)
    (last_move : option Move) (castling_rights : CastlingRights) (m : Move) :
  lastMoveOnBoard last_move ->
  In m (legalMoves b side last_move castling_rights) /\
  at_ b (from m) = Some (mkPiece Pawn side)
  <->
  at_ b (from m) = Some (mkPiece Pawn side) /\
  (pawnPush b side (from m) m \/ pawnDoublePush b side (from m) m \/
   pawnCapture b side (from m) m \/
   enPassantShape b side last_move (from m) m).
Proof. intros _. apply pawn_moves_generated_aux. Qed.

Lemma pawn_moves_exactly_witness :
  lastMoveOnBoard (last_move_ beforeEnPassant) /\
  (In takeEnPassant (legalMoves (board_ beforeEnPassant)
      (side_to_move_ beforeEnPassant) (last_move_ beforeEnPassant)
      (castling_rights_ beforeEnPassant)) /\
   at_ (board_ beforeEnPassant) (from takeEnPassant) = Some (mkPiece Pawn
       (side_to_move_ beforeEnPassant))
   <->
   at_ (board_ beforeEnPassant) (from takeEnPassant) = Some (mkPiece Pawn
       (side_to_move_ beforeEnPassant)) /\
   (pawnPush (board_ beforeEnPassant) (side_to_move_ beforeEnPassant)
       (from takeEnPassant) takeEnPassant \/ pawnDoublePush (board_ beforeEnPassant)
       (side_to_move_ beforeEnPassant) (from takeEnPassant) takeEnPassant \/
    pawnCapture (board_ beforeEnPassant) (side_to_move_ beforeEnPassant)
        (from takeEnPassant) takeEnPassant \/
    enPassantShape (board_ beforeEnPassant) (side_to_move_ beforeEnPassant)
        (last_move_ beforeEnPassant) (from takeEnPassant) takeEnPassant)).
Proof.
  split; [by vm_compute|].
  apply (pawn_moves_exactly (board_ beforeEnPassant) (side_to_move_ beforeEnPassant)
      (last_move_ beforeEnPassant) (castling_rights_ beforeEnPassant) takeEnPassant).
  by vm_compute.
Defined.

(** X12. Pawns never retreat: in the list, a pawn's move without the
    en-passant flag goes one rank forward, or two from the starting rank
    on its own file; it stays on its file exactly when the destination is
    empty and otherwise moves one file aside onto an opponent's piece.
    The last move is taken to name squares of the board:
    [generatePawnMoves] reads the square where it ended without a test. *)
Theorem pawns_only_advance (b : Board) (side : Color)
    (last_move : option Move) (castling_rights : CastlingRights) :
  lastMoveOnBoard last_move ->
  Forall (fun m =>
            at_ b (from m) = Some (mkPiece Pawn side) ->
            en_passant m = false ->
            let dr := rank (to m) - rank (from m) in
            let df := file (to m) - file (from m) in
            (dr = forward side \/
             (dr = 2 * forward side /\ rank (from m) = startRank side /\ df = 0)) /\
            ((df = 0 /\ at_ b (to m) = None) \/
             (Z.abs df = 1 /\ dr = forward side /\
              exists q, at_ b (to m) = Some q /\ color q = opponent side)))
         (legalMoves b side last_move castling_rights).
Proof.
  intros _.
  apply Forall_of_In. intros m Hin Hk Hep.
  destruct (proj1 (pawn_moves_generated_aux b side last_move castling_rights m)
                  (conj Hin Hk)) as [_ Hp].
  cbv zeta.
  destruct Hp as [[(Hm & _) He] | [(Hs & _ & _ & (Hm & _) & He) |
                  [(df & Hdf & (Hm & _) & He) | Hp]]].
  - rewrite Hm in *. unfold shifted in *. simpl in *.
    split; [left; lia|]. left. split; [lia|done].
  - rewrite Hm in *. unfold shifted in *. simpl in *.
    split; [right; lia|]. left. split; [lia|done].
  - rewrite Hm in *. simpl in *.
    apply hasPieceAtColor_spec in He as (q & Hq & Hcq).
    split; [left; lia|]. right. split; [lia|]. split; [lia|]. eauto.
  - apply enPassantShape_facts in Hp as (_ & E & _). congruence.
Qed.

Lemma pawns_only_advance_witness :
  lastMoveOnBoard (last_move_ beforeEnPassant) /\
  (Forall (fun m =>
             at_ (board_ beforeEnPassant) (from m) = Some (mkPiece Pawn
                 (side_to_move_ beforeEnPassant)) ->
             en_passant m = false ->
             let dr := rank (to m) - rank (from m) in
             let df := file (to m) - file (from m) in
             (dr = forward (side_to_move_ beforeEnPassant) \/
              (dr = 2 * forward (side_to_move_ beforeEnPassant) /\ rank
                  (from m) = startRank (side_to_move_ beforeEnPassant) /\ df = 0)) /\
             ((df = 0 /\ at_ (board_ beforeEnPassant) (to m) = None) \/
              (Z.abs df = 1 /\ dr = forward (side_to_move_ beforeEnPassant) /\
               exists q, at_ (board_ beforeEnPassant)
                   (to m) = Some q /\ color q = opponent
                   (side_to_move_ beforeEnPassant))))
          (legalMoves (board_ beforeEnPassant) (side_to_move_ beforeEnPassant)
              (last_move_ beforeEnPassant) (castling_rights_ beforeEnPassant))).
Proof.
  split; [by vm_compute|].
  apply (pawns_only_advance (board_ beforeEnPassant) (side_to_move_ beforeEnPassant)
      (last_move_ beforeEnPassant) (castling_rights_ beforeEnPassant)).
  by vm_compute.
Defined.

Lemma movedFrom_flags b side last_move rights sq m :
  movedFrom b side last_move rights sq m ->
  promotion m = None /\ (en_passant m && castling m = false).
Proof.
  intros (p & _ & _ & [H | [[_ H] | [_ [H | H]]]]).
  - apply plainShape_facts in H as (_ & _ & -> & -> & -> & _). done.
  - apply enPassantShape_facts in H as (_ & -> & -> & -> & _). done.
  - apply kingsideShape_facts in H as (_ & -> & -> & -> & _). done.
  - apply queensideShape_facts in H as (_ & -> & -> & -> & _). done.
Qed.

(** X13. The generators never fill in a promotion: every move of the
    list has an empty promotion member, also a pawn's move onto the last
    rank, and none carries both the castling and the en-passant flag, so
    [isSpecial] is true of exactly the flagged moves.
    The last move is taken to name squares of the board:
    [generatePawnMoves] reads the square where it ended without a test. *)
Theorem legalMoves_never_promote (b : Board) (side : Color)
    (last_move : option Move) (castling_rights : CastlingRights) :
  lastMoveOnBoard last_move ->
  Forall (fun m => promotion m = None /\ isPromotion m = false /\
                   en_passant m && castling m = false /\
                   isSpecial m = xorb (castling m) (en_passant m))
         (legalMoves b side last_move castling_rights).
Proof.
  intros _.
  apply Forall_of_In. intros m Hin. apply legalMoves_moved in Hin.
  apply movedFrom_flags in Hin as [Hp Hf].
  unfold isSpecial, isPromotion. rewrite Hp. repeat split; auto.
  destruct (castling m), (en_passant m); simpl in *; congruence.
Qed.

Lemma legalMoves_never_promote_witness :
  lastMoveOnBoard (last_move_ beforeEnPassant) /\
  (Forall (fun m => promotion m = None /\ isPromotion m = false /\
                    en_passant m && castling m = false /\
                    isSpecial m = xorb (castling m) (en_passant m))
          (legalMoves (board_ beforeEnPassant) (side_to_move_ beforeEnPassant)
              (last_move_ beforeEnPassant) (castling_rights_ beforeEnPassant))).
Proof.
  split; [by vm_compute|].
  apply (legalMoves_never_promote (board_ beforeEnPassant)
      (side_to_move_ beforeEnPassant) (last_move_ beforeEnPassant)
      (castling_rights_ beforeEnPassant)).
  by vm_compute.
Defined.

(** X14. Every move of the list starts on a piece of the side to move
    and passed [isMoveLegal]; unless it carries the en-passant flag its
    destination is a square of the board other than the origin that holds
    no piece of the mover.  The destination of an en-passant move is not
    tested for a piece.
    The last move is taken to name squares of the board:
    [generatePawnMoves] reads the square where it ended without a test. *)
Theorem legalMoves_move_own_pieces (b : Board) (side : Color)
    (last_move : option Move) (castling_rights : CastlingRights) :
  lastMoveOnBoard last_move ->
  Forall (fun m =>
            (exists p, at_ b (from m) = Some p /\ color p = side) /\
            isValid (from m) = true /\
            isMoveLegal b m side = true /\
            (en_passant m = false ->
             isValid (to m) = true /\ to m <> from m /\
             hasPieceAtColor b (to m) side = false))
         (legalMoves b side last_move castling_rights).
Proof.
  intros _.
  apply Forall_of_In. intros m Hin.
  pose proof (legalMoves_filtered _ _ _ _ _ Hin) as Hl.
  apply legalMoves_moved in Hin. destruct Hin as (p & Hat & Hc & Hshape).
  split; [eauto|]. split; [by eapply at_Some_valid|]. split; [done|].
  intros Hep.
  destruct Hshape as [H | [[_ H] | [_ [H | H]]]].
  - destruct (plainShape_applies _ _ _ _ _ Hat Hc H) as (Hv & Hne & _).
    apply plainShape_facts in H as (_ & _ & _ & _ & _ & Hown & _).
    split_and!; [done | congruence | done].
  - apply enPassantShape_facts in H as (_ & E & _). congruence.
  - destruct (kingsideShape_applies _ _ _ _ _ H) as (Hv & Hne & _).
    pose proof (kingsideShape_facts _ _ _ _ _ H) as (_ & _ & _ & _ & Et & _).
    destruct H as (_ & _ & _ & _ & _ & H6 & _). rewrite <- Et in H6.
    split_and!; [done | congruence | by apply hasPieceAtColor_None].
  - destruct (queensideShape_applies _ _ _ _ _ H) as (Hv & Hne & _).
    pose proof (queensideShape_facts _ _ _ _ _ H) as (_ & _ & _ & _ & Et & _).
    destruct H as (_ & _ & _ & _ & _ & H2 & _). rewrite <- Et in H2.
    split_and!; [done | congruence | by apply hasPieceAtColor_None].
Qed.

Lemma legalMoves_move_own_pieces_witness :
  lastMoveOnBoard (last_move_ beforeEnPassant) /\
  (Forall (fun m =>
             (exists p, at_ (board_ beforeEnPassant) (from m) = Some p /\ color p =
                 (side_to_move_ beforeEnPassant)) /\
             isValid (from m) = true /\
             isMoveLegal (board_ beforeEnPassant) m
                 (side_to_move_ beforeEnPassant) = true /\
             (en_passant m = false ->
              isValid (to m) = true /\ to m <> from m /\
              hasPieceAtColor (board_ beforeEnPassant) (to m)
                  (side_to_move_ beforeEnPassant) = false))
          (legalMoves (board_ beforeEnPassant) (side_to_move_ beforeEnPassant)
              (last_move_ beforeEnPassant) (castling_rights_ beforeEnPassant))).
Proof.
  split; [by vm_compute|].
  apply (legalMoves_move_own_pieces (board_ beforeEnPassant)
      (side_to_move_ beforeEnPassant) (last_move_ beforeEnPassant)
      (castling_rights_ beforeEnPassant)).
  by vm_compute.
Defined.

(** X15. Generate, then filter: for every move of the list, on the
    scratch copy with the move applied [findKing] finds a king of the
    mover and [isSquareAttacked] says [false] of its square.
    The last move is taken to name squares of the board:
    [generatePawnMoves] reads the square where it ended without a test. *)
Theorem legalMoves_all_filtered (b : Board) (side : Color)
    (last_move : option Move) (castling_rights : CastlingRights) :
  lastMoveOnBoard last_move ->
  Forall (fun m =>
            exists king_sq,
              findKing (scratch b m) side = Some king_sq /\
              at_ (scratch b m) king_sq = Some (mkPiece King side) /\
              isSquareAttacked (scratch b m) king_sq (opponent side) = false)
         (legalMoves b side last_move castling_rights).
Proof.
  intros _.
  apply Forall_of_In. intros m Hin. by eapply legalMoves_pass_the_filter.
Qed.

Lemma legalMoves_all_filtered_witness :
  lastMoveOnBoard (last_move_ beforeEnPassant) /\
  (Forall (fun m =>
             exists king_sq,
               findKing (scratch (board_ beforeEnPassant) m)
                   (side_to_move_ beforeEnPassant) = Some king_sq /\
               at_ (scratch (board_ beforeEnPassant) m) king_sq = Some (mkPiece King
                   (side_to_move_ beforeEnPassant)) /\
               isSquareAttacked (scratch (board_ beforeEnPassant) m) king_sq (opponent
                   (side_to_move_ beforeEnPassant)) = false)
          (legalMoves (board_ beforeEnPassant) (side_to_move_ beforeEnPassant)
              (last_move_ beforeEnPassant) (castling_rights_ beforeEnPassant))).
Proof.
  split; [by vm_compute|].
  apply (legalMoves_all_filtered (board_ beforeEnPassant)
      (side_to_move_ beforeEnPassant) (last_move_ beforeEnPassant)
      (castling_rights_ beforeEnPassant)).
  by vm_compute.
Defined.

(** X16. Castling moves.  A move with the castling flag is in the list
    exactly when a king of the side to move stands on its origin and the
    tests of [generateKingMoves] for that wing hold: the king on the
    e-file of the home rank, the right held, the rook on the corner, the
    squares between them empty (three on the queen's wing), and
    [isSquareAttacked] false of the king's square and of the two squares
    the king crosses (the b-file square is not tested for attack), and
    the move passing [isMoveLegal].
    The last move is taken to name squares of the board:
    [generatePawnMoves] reads the square where it ended without a test. *)
Theorem castling_moves_exactly (b : Board) (side : Color)
    (last_move : option Move) (castling_rights : CastlingRights) (m : Move) :
  lastMoveOnBoard last_move ->
  In m (legalMoves b side last_move castling_rights) /\ castling m = true
  <->
  at_ b (from m) = Some (mkPiece King side) /\
  (kingsideShape b side castling_rights (from m) m \/
   queensideShape b side castling_rights (from m) m).
Proof.
  intros _.
  split.
  - intros [Hin Hc]. apply legalMoves_moved in Hin.
    destruct Hin as ([t c] & Hat & Hcol & Hshape). simpl in Hcol. subst c.
    destruct Hshape as [H | [[_ H] | [Hk H]]].
    + apply plainShape_facts in H as (_ & _ & _ & E & _). congruence.
    + apply enPassantShape_facts in H as (_ & _ & E & _). congruence.
    + simpl in Hk. subst t. auto.
  - intros [Hk H]. split.
    + apply legalMoves_exactly. exists (mkPiece King side).
      repeat split; auto. cbn [type pushedFor]. by right.
    + destruct H as [H | H].
      * by apply kingsideShape_facts in H as (_ & _ & ? & _).
      * by apply queensideShape_facts in H as (_ & _ & ? & _).
Qed.

Lemma castling_moves_exactly_witness :
  lastMoveOnBoard (last_move_ beforeCastling) /\
  (In castleKingside (legalMoves (board_ beforeCastling)
      (side_to_move_ beforeCastling) (last_move_ beforeCastling)
      (castling_rights_ beforeCastling)) /\ castling castleKingside = true
   <->
   at_ (board_ beforeCastling) (from castleKingside) = Some (mkPiece King
       (side_to_move_ beforeCastling)) /\
   (kingsideShape (board_ beforeCastling) (side_to_move_ beforeCastling)
       (castling_rights_ beforeCastling) (from castleKingside) castleKingside \/
    queensideShape (board_ beforeCastling) (side_to_move_ beforeCastling)
        (castling_rights_ beforeCastling) (from castleKingside) castleKingside)).
Proof.
  split; [by vm_compute|].
  apply (castling_moves_exactly (board_ beforeCastling) (side_to_move_ beforeCastling)
      (last_move_ beforeCastling) (castling_rights_ beforeCastling) castleKingside).
  by vm_compute.
Defined.

(* ================================================================== *)
(** * The session and its callers                                      *)
(* ================================================================== *)

(** X17. [makeMove] accepts a candidate exactly when some legal move has
    its two squares; the flags and the promotion of the candidate play no
    part.
    The last move is taken to name squares of the board:
    [generatePawnMoves] reads the square where it ended without a test. *)
Theorem makeMove_accepts_exactly_legal_squares (g : ChessGame) (move : Move) :
  lastMoveOnBoard (last_move_ g) ->
  fst (makeMove g move) = true <->
  exists m, In m (gameLegalMoves g) /\ from m = from move /\ to m = to move.
Proof.
  intros _.
  unfold makeMove. destruct (matchingMove g move) as [m|] eqn:E; simpl.
  - split; [|done]. intros _. apply matchingMove_Some in E. eauto.
  - split; [discriminate|]. intros (m & Hin & Hf & Ht).
    pose proof (proj1 (matchingMove_None g move) E m Hin) as Hn.
    by destruct Hn.
Qed.

Lemma makeMove_accepts_exactly_legal_squares_witness :
  lastMoveOnBoard (last_move_ beforeEnPassant) /\
  (fst (makeMove beforeEnPassant takeEnPassant) = true <->
   exists m, In m
       (gameLegalMoves beforeEnPassant) /\ from m = from takeEnPassant /\ to m = to
       takeEnPassant).
Proof.
  split; [by vm_compute|].
  apply (makeMove_accepts_exactly_legal_squares beforeEnPassant takeEnPassant).
  by vm_compute.
Defined.

(** X18. The game is over exactly when the side to move has no legal
    move; checkmate and stalemate exclude each other; and once the game
    is over [makeMove] rejects every candidate and changes nothing.
    The last move is taken to name squares of the board:
    [generatePawnMoves] reads the square where it ended without a test. *)
Theorem game_over_means_no_legal_move (g : ChessGame) :
  lastMoveOnBoard (last_move_ g) ->
  (gameIsGameOver g = true <-> gameLegalMoves g = []) /\
  gameIsCheckmate g && gameIsStalemate g = false /\
  (gameIsCheckmate g = true <-> gameIsCheck g = true /\ gameLegalMoves g = []) /\
  (gameIsStalemate g = true <-> gameIsCheck g = false /\ gameLegalMoves g = []) /\
  (gameIsGameOver g = true -> forall move, makeMove g move = (false, g)).
Proof.
  intros _.
  unfold gameIsGameOver, gameIsCheckmate, gameIsStalemate, gameIsCheck,
    isCheckmate, isStalemate, gameLegalMoves.
  set (moves := legalMoves _ _ _ _).
  assert (forall move, moves = [] -> makeMove g move = (false, g)) as Hrej.
  { intros move E. unfold makeMove, matchingMove. fold moves. by rewrite E. }
  assert (bool_decide (moves = []) = true <-> moves = []) as He
      by apply bool_decide_eq_true.
  destruct (isCheck (board_ g) (side_to_move_ g));
    destruct (bool_decide (moves = [])); simpl;
    split_and!; try tauto; try (split; [discriminate|]);
    try (intros [? ?]; try discriminate; tauto);
    try (intros H; discriminate H);
    try (intros H; tauto);
    try (intros _ move; apply Hrej; tauto).
Qed.

Lemma game_over_means_no_legal_move_witness :
  lastMoveOnBoard (last_move_ beforeEnPassant) /\
  ((gameIsGameOver beforeEnPassant = true <-> gameLegalMoves beforeEnPassant = []) /\
   gameIsCheckmate beforeEnPassant && gameIsStalemate beforeEnPassant = false /\
   (gameIsCheckmate beforeEnPassant = true <-> gameIsCheck beforeEnPassant = true /\
       gameLegalMoves beforeEnPassant = []) /\
   (gameIsStalemate beforeEnPassant = true <-> gameIsCheck beforeEnPassant = false /\
       gameLegalMoves beforeEnPassant = []) /\
   (gameIsGameOver beforeEnPassant = true -> forall move, makeMove beforeEnPassant move
       = (false, beforeEnPassant))).
Proof.
  split; [by vm_compute|].
  apply (game_over_means_no_legal_move beforeEnPassant).
  by vm_compute.
Defined.

Lemma accepted_move g move g' m :
  makeMove g move = (true, g') -> last_move_ g' = Some m ->
  In m (legalMoves (board_ g) (side_to_move_ g) (last_move_ g) (castling_rights_ g)) /\
  from m = from move /\ to m = to move /\
  board_ g' = handleSpecialMoves (board_ g) m /\
  side_to_move_ g' = opponent (side_to_move_ g).
Proof.
  intros Hmk Hlast. apply makeMove_true in Hmk as (m' & Hm & ->).
  simpl in Hlast. injection Hlast as ->.
  apply matchingMove_Some in Hm as (Hin & Hf & Ht). auto.
Qed.

(** X19. An accepted en-passant capture takes the pawn that was just
    pushed: the square where the last move ended, which held an
    opponent's pawn, is empty afterwards, the capturing pawn stands on
    the destination, its origin is empty, and no other square changes. *)
Theorem en_passant_takes_the_pushed_pawn (g : ChessGame) (move : Move)
    (g' : ChessGame) (m : Move) :
  lastMoveOnBoard (last_move_ g) ->
  makeMove g move = (true, g') ->
  last_move_ g' = Some m ->
  en_passant m = true ->
  exists lm,
    last_move_ g = Some lm /\
    at_ (board_ g) (to lm) = Some (mkPiece Pawn (opponent (side_to_move_ g))) /\
    at_ (board_ g) (from move) = Some (mkPiece Pawn (side_to_move_ g)) /\
    at_ (board_ g') (to lm) = None /\
    at_ (board_ g') (from move) = None /\
    at_ (board_ g') (to move) = Some (mkPiece Pawn (side_to_move_ g)) /\
    forall sq, sq <> to lm -> sq <> from move -> sq <> to move ->
               at_ (board_ g') sq = at_ (board_ g) sq.
Proof.
  intros Hlm Hmk Hlast Hep.
  destruct (accepted_move _ _ _ _ Hmk Hlast) as (Hin & <- & <- & -> & _).
  apply legalMoves_moved in Hin. destruct Hin as ([t c] & Hat & Hc & Hshape).
  simpl in Hc. subst c.
  destruct Hshape as [H | [[Ht H] | [_ [H | H]]]].
  - apply plainShape_facts in H as (_ & _ & E & _). congruence.
  - simpl in Ht. subst t.
    destruct (enPassantShape_applies _ _ _ _ _ _ Hlm Hat H)
      as (Hv & Hne & (lm & El & Hpawn & Happ & Hrank) & Hland).
    destruct H as (lm' & El' & _ & Habs & Hr & Hf & Hm & _).
    rewrite El in El'. injection El' as <-.
    assert (to lm <> from m) as N1 by (intros E; rewrite <- E in Hf; lia).
    assert (to lm <> to m).
    { intros E. destruct (passed_rank_between _ _ Habs) as [Hb _].
      apply (f_equal (fun x => rank (to x))) in Hm. simpl in Hm.
      rewrite <- E in Hm. lia. }
    exists lm. split_and!; auto.
    + rewrite Happ, at_movePiece, !decide_False by done.
      rewrite at_clearSquare. by rewrite decide_True.
    + rewrite Happ, at_movePiece. by rewrite decide_True.
    + intros sq S1 S2 S3. rewrite Happ, at_movePiece, !decide_False by done.
      rewrite at_clearSquare. by rewrite decide_False.
  - apply kingsideShape_facts in H as (_ & E & _). congruence.
  - apply queensideShape_facts in H as (_ & E & _). congruence.
Qed.

Lemma beforeEnPassant_reachable : reachable beforeEnPassant.
Proof. apply played_is_reachable. vm_compute. reflexivity. Qed.

Lemma en_passant_takes_the_pushed_pawn_witness :
  exists lm,
    last_move_ beforeEnPassant = Some lm /\
    at_ (board_ beforeEnPassant) (to lm)
      = Some (mkPiece Pawn (opponent (side_to_move_ beforeEnPassant))) /\
    at_ (board_ beforeEnPassant) (from takeEnPassant)
      = Some (mkPiece Pawn (side_to_move_ beforeEnPassant)) /\
    at_ (board_ afterEnPassant) (to lm) = None /\
    at_ (board_ afterEnPassant) (from takeEnPassant) = None /\
    at_ (board_ afterEnPassant) (to takeEnPassant)
      = Some (mkPiece Pawn (side_to_move_ beforeEnPassant)) /\
    forall sq, sq <> to lm -> sq <> from takeEnPassant -> sq <> to takeEnPassant ->
               at_ (board_ afterEnPassant) sq = at_ (board_ beforeEnPassant) sq.
Proof.
  apply (en_passant_takes_the_pushed_pawn beforeEnPassant takeEnPassant
           afterEnPassant
           (mkMove (mkSquare 3 4) (mkSquare 2 3) None true false)).
  - vm_compute. split; reflexivity.
  - vm_compute. reflexivity.
  - vm_compute. reflexivity.
  - reflexivity.
Defined.

(** X20. An accepted castling move also moves the rook: the king goes
    from the e-file to the g-file or the c-file of its home rank, the
    rook from the corner of that wing to the f-file or the d-file, the
    king's origin and the corner are empty afterwards, and no other
    square changes.  The last move of the session before is taken to
    name squares of the board. *)
Theorem castling_moves_king_and_rook (g : ChessGame) (move : Move)
    (g' : ChessGame) (m : Move) :
  lastMoveOnBoard (last_move_ g) ->
  makeMove g move = (true, g') ->
  last_move_ g' = Some m ->
  castling m = true ->
  exists rook_from rook_to : Z,
    ((file (to move) = 6 /\ rook_from = 7 /\ rook_to = 5) \/
     (file (to move) = 2 /\ rook_from = 0 /\ rook_to = 3)) /\
    from move = mkSquare (homeRank (side_to_move_ g)) 4 /\
    rank (to move) = homeRank (side_to_move_ g) /\
    at_ (board_ g) (from move) = Some (mkPiece King (side_to_move_ g)) /\
    at_ (board_ g) (mkSquare (homeRank (side_to_move_ g)) rook_from)
      = Some (mkPiece Rook (side_to_move_ g)) /\
    at_ (board_ g') (to move) = Some (mkPiece King (side_to_move_ g)) /\
    at_ (board_ g') (mkSquare (homeRank (side_to_move_ g)) rook_to)
      = Some (mkPiece Rook (side_to_move_ g)) /\
    at_ (board_ g') (from move) = None /\
    at_ (board_ g') (mkSquare (homeRank (side_to_move_ g)) rook_from) = None /\
    forall sq, rank sq <> homeRank (side_to_move_ g) \/
               (file sq <> 4 /\ file sq <> file (to move) /\
                file sq <> rook_from /\ file sq <> rook_to) ->
               at_ (board_ g') sq = at_ (board_ g) sq.
Proof.
  intros _ Hmk Hlast Hc.
  destruct (accepted_move _ _ _ _ Hmk Hlast) as (Hin & <- & <- & -> & _).
  set (side := side_to_move_ g) in *. set (b := board_ g) in *.
  apply legalMoves_moved in Hin. destruct Hin as ([t c] & Hat & Hcol & Hshape).
  simpl in Hcol. subst c.
  assert (forall f, 0 <= f < 8 -> isValid (mkSquare (homeRank side) f) = true)
    as Hvalid by (intros f Hf; by apply homeRank_valid).
  destruct Hshape as [H | [[_ H] | [Ht [H | H]]]].
  - apply plainShape_facts in H as (_ & _ & _ & E & _). congruence.
  - apply enPassantShape_facts in H as (_ & _ & E & _). congruence.
  - simpl in Ht. subst t.
    destruct (kingsideShape_applies _ _ _ _ _ H) as (_ & _ & Happ & Hland).
    pose proof (kingsideShape_facts _ _ _ _ _ H) as (_ & _ & _ & _ & Eto & _).
    destruct H as (Efrom & _ & _ & Hrook & H5 & H6 & _).
    assert (forall sq, at_ (handleSpecialMoves b m) sq =
              if decide (sq = mkSquare (homeRank side) 7) then None
              else if decide (sq = mkSquare (homeRank side) 5)
                   then Some (mkPiece Rook side)
                   else if decide (sq = mkSquare (homeRank side) 4) then None
                        else if decide (sq = mkSquare (homeRank side) 6)
                             then Some (mkPiece King side)
                             else at_ b sq) as Hafter.
    { intros sq. rewrite Happ, !at_movePiece. cbn [from to plainMove].
      rewrite Efrom, Eto, !Hvalid by lia. rewrite <- Efrom, Hat, Efrom.
      rewrite (decide_False (P := mkSquare (homeRank side) 7 = mkSquare (homeRank side) 4))
        by congruence.
      rewrite (decide_False (P := mkSquare (homeRank side) 7 = mkSquare (homeRank side) 6))
        by congruence.
      by rewrite Hrook. }
    exists 7, 5. rewrite Eto. cbn [rank file]. rewrite !Hafter.
    split_and!; auto; rewrite ?Efrom;
      first [ by rewrite <- ?Efrom
            | by (repeat case_decide; congruence)
            | (intros sq Hsq; rewrite Hafter; repeat case_decide; subst;
               simpl in Hsq; first [lia | done]) ].
  - simpl in Ht. subst t.
    destruct (queensideShape_applies _ _ _ _ _ H) as (_ & _ & Happ & Hland).
    pose proof (queensideShape_facts _ _ _ _ _ H) as (_ & _ & _ & _ & Eto & _).
    destruct H as (Efrom & _ & _ & Hrook & H1 & H2 & H3 & _).
    assert (forall sq, at_ (handleSpecialMoves b m) sq =
              if decide (sq = mkSquare (homeRank side) 0) then None
              else if decide (sq = mkSquare (homeRank side) 3)
                   then Some (mkPiece Rook side)
                   else if decide (sq = mkSquare (homeRank side) 4) then None
                        else if decide (sq = mkSquare (homeRank side) 2)
                             then Some (mkPiece King side)
                             else at_ b sq) as Hafter.
    { intros sq. rewrite Happ, !at_movePiece. cbn [from to plainMove].
      rewrite Efrom, Eto, !Hvalid by lia. rewrite <- Efrom, Hat, Efrom.
      rewrite (decide_False (P := mkSquare (homeRank side) 0 = mkSquare (homeRank side) 4))
        by congruence.
      rewrite (decide_False (P := mkSquare (homeRank side) 0 = mkSquare (homeRank side) 2))
        by congruence.
      by rewrite Hrook. }
    exists 0, 3. rewrite Eto. cbn [rank file]. rewrite !Hafter.
    split_and!; auto; rewrite ?Efrom;
      first [ by rewrite <- ?Efrom
            | by (repeat case_decide; congruence)
            | (intros sq Hsq; rewrite Hafter; repeat case_decide; subst;
               simpl in Hsq; first [lia | done]) ].
Qed.

Lemma castling_moves_king_and_rook_witness :
  exists rook_from rook_to : Z,
    ((file (to (mv 7 4 7 6)) = 6 /\ rook_from = 7 /\ rook_to = 5) \/
     (file (to (mv 7 4 7 6)) = 2 /\ rook_from = 0 /\ rook_to = 3)) /\
    from (mv 7 4 7 6) = mkSquare (homeRank (side_to_move_ beforeCastling)) 4 /\
    rank (to (mv 7 4 7 6)) = homeRank (side_to_move_ beforeCastling) /\
    at_ (board_ beforeCastling) (from (mv 7 4 7 6))
      = Some (mkPiece King (side_to_move_ beforeCastling)) /\
    at_ (board_ beforeCastling)
        (mkSquare (homeRank (side_to_move_ beforeCastling)) rook_from)
      = Some (mkPiece Rook (side_to_move_ beforeCastling)) /\
    at_ (board_ afterCastling) (to (mv 7 4 7 6))
      = Some (mkPiece King (side_to_move_ beforeCastling)) /\
    at_ (board_ afterCastling)
        (mkSquare (homeRank (side_to_move_ beforeCastling)) rook_to)
      = Some (mkPiece Rook (side_to_move_ beforeCastling)) /\
    at_ (board_ afterCastling) (from (mv 7 4 7 6)) = None /\
    at_ (board_ afterCastling)
        (mkSquare (homeRank (side_to_move_ beforeCastling)) rook_from) = None /\
    forall sq, rank sq <> homeRank (side_to_move_ beforeCastling) \/
               (file sq <> 4 /\ file sq <> file (to (mv 7 4 7 6)) /\
                file sq <> rook_from /\ file sq <> rook_to) ->
               at_ (board_ afterCastling) sq = at_ (board_ beforeCastling) sq.
Proof.
  apply (castling_moves_king_and_rook beforeCastling (mv 7 4 7 6) afterCastling
           castleKingside).
  - by vm_compute.
  - vm_compute. reflexivity.
  - vm_compute. reflexivity.
  - reflexivity.
Defined.

(** X21. In every session reached from [newGame] by accepted moves, the
    stored last move names squares of the board, and each castling right
    that is still held has the rook of its colour on its corner. *)
Theorem reachable_sessions_keep_rooks_home (g : ChessGame) :
  reachable g ->
  lastMoveOnBoard (last_move_ g) /\
  (forall i : fin 4,
     castling_rights_ g !!! i = true ->
     at_ (board_ g) (corner i) = Some (mkPiece Rook (rightColor i))).
Proof. apply reachable_invariant. Qed.

Lemma reachable_sessions_keep_rooks_home_witness :
  lastMoveOnBoard (last_move_ kingTaken) /\
  (forall i : fin 4,
     castling_rights_ kingTaken !!! i = true ->
     at_ (board_ kingTaken) (corner i) = Some (mkPiece Rook (rightColor i))).
Proof.
  apply (reachable_sessions_keep_rooks_home kingTaken).
  apply (reachable_move beforeKingTaken takeKing).
  - apply (reachable_move afterPawnRaid quietReply).
    + apply played_is_reachable. vm_compute. reflexivity.
    + vm_compute. reflexivity.
  - vm_compute. reflexivity.
Defined.

Lemma in_updateLegalMoves g a c :
  In c (updateLegalMoves (Some g) a) <->
  exists m, In m (gameLegalMoves g) /\ from m = a /\ to m = c.
Proof.
  unfold updateLegalMoves.
  assert (forall l acc,
            In c (fold_left (fun squares move =>
                               if bool_decide (from move = a)
                               then squares ++ [to move] else squares) l acc)
            <-> In c acc \/ exists m, In m l /\ from m = a /\ to m = c) as Hfold.
  { induction l as [|x l IH]; intros acc; simpl.
    - split; [auto|]. intros [H | (m & [] & _)]. done.
    - rewrite IH. case_bool_decide as E.
      + rewrite in_app_iff. simpl. split.
        * intros [[H | [H | []]] | (m & Hm & H)]; eauto 10.
        * intros [H | (m & [-> | Hm] & Hf & Ht)]; eauto 10.
      + split.
        * intros [H | (m & Hm & H)]; eauto 10.
        * intros [H | (m & [-> | Hm] & Hf & Ht)]; eauto 10. congruence. }
  rewrite Hfold. simpl. split; [|auto]. by intros [[] | H].
Qed.

(** X22. The input handler and the session agree.  After
    [updateLegalMoves] for the square [a], [isLegalDestination] holds of
    [c] exactly when [makeMove] accepts the move from [a] to [c]; with
    no game attached nothing is a legal destination; and the move that
    [handleMouseRelease] lets through a drag from [a] is always one that
    [makeMove] accepts.
    The last move is taken to name squares of the board:
    [generatePawnMoves] reads the square where it ended without a test. *)
Theorem input_handler_offers_accepted_moves (g : ChessGame) (a c : Square) :
  lastMoveOnBoard (last_move_ g) ->
  (isLegalDestination (updateLegalMoves (Some g) a) c = true <->
   fst (makeMove g (plainMove a c)) = true) /\
  isLegalDestination (updateLegalMoves None a) c = false /\
  (forall m, releasedMove g (Some a) (updateLegalMoves (Some g) a) c = Some m ->
             m = plainMove a c /\ c <> a /\ fst (makeMove g m) = true).
Proof.
  intros _.
  assert (isLegalDestination (updateLegalMoves (Some g) a) c = true <->
          fst (makeMove g (plainMove a c)) = true) as Hiff.
  { unfold isLegalDestination. rewrite existsb_exists.
    unfold makeMove. destruct (matchingMove g (plainMove a c)) as [m|] eqn:E; simpl.
    - split; [done|]. intros _. apply matchingMove_Some in E as (Hin & Hf & Ht).
      exists c. split; [|by apply bool_decide_eq_true].
      apply in_updateLegalMoves. eauto.
    - split; [|discriminate]. intros (x & Hin & Hx).
      apply bool_decide_eq_true in Hx. subst x.
      apply in_updateLegalMoves in Hin as (m & Hm & Hf & Ht).
      destruct (proj1 (matchingMove_None g (plainMove a c)) E m Hm). auto. }
  split; [done|]. split; [done|].
  intros m. unfold releasedMove.
  case_bool_decide as Hne; simpl; [|discriminate].
  destruct (isLegalDestination _ c) eqn:Hl; [|discriminate].
  destruct (at_ (board_ g) a); [|discriminate].
  intros E. injection E as <-. split; [done|]. split; [done|]. by apply Hiff.
Qed.

Lemma input_handler_offers_accepted_moves_witness :
  lastMoveOnBoard (last_move_ beforeEnPassant) /\
  ((isLegalDestination (updateLegalMoves (Some beforeEnPassant) (mkSquare 3 4))
      (mkSquare 2 3) = true <->
    fst (makeMove beforeEnPassant (plainMove (mkSquare 3 4) (mkSquare 2 3))) = true) /\
   isLegalDestination (updateLegalMoves None (mkSquare 3 4)) (mkSquare 2 3) = false /\
   (forall m, releasedMove beforeEnPassant (Some (mkSquare 3 4)) (updateLegalMoves
       (Some beforeEnPassant) (mkSquare 3 4)) (mkSquare 2 3) = Some m ->
              m = plainMove (mkSquare 3 4) (mkSquare 2 3) /\ (mkSquare 2 3) <>
                  (mkSquare 3 4) /\ fst (makeMove beforeEnPassant m) = true)).
Proof.
  split; [by vm_compute|].
  apply (input_handler_offers_accepted_moves beforeEnPassant (mkSquare 3 4)
      (mkSquare 2 3)).
  by vm_compute.
Defined.

(** X23. The two [while] loops end through their own test: for each of
    the eight directions and from any square, the walk of
    [generateSlidingMoves] and the walk of [isAttackedBySlider] give the
    same result with more iterations than the nine they are granted. *)
Theorem walks_end_by_their_own_test (b : Board) (a : Square) (side : Color)
    (extra : nat) :
  Forall (fun d =>
            (forall moves,
               slideWalk (walkFuel + extra) moves b a side (fst d) (snd d)
                         (rank a + fst d) (file a + snd d) =
               slideWalk walkFuel moves b a side (fst d) (snd d)
                         (rank a + fst d) (file a + snd d)) /\
            (forall diag,
               sliderWalk (walkFuel + extra) b side diag (fst d) (snd d)
                          (rank a + fst d) (file a + snd d) 1 =
               sliderWalk walkFuel b side diag (fst d) (snd d)
                          (rank a + fst d) (file a + snd d) 1))
         kAllDirections.
Proof.
  apply Forall_of_In. intros [dr df] Hd. simpl. split.
  - intros moves. by apply slideWalk_terminates.
  - intros diag. by apply sliderWalk_terminates.
Qed.

(* ================================================================== *)
(** * Attack detection                                                 *)
(* ================================================================== *)

(** X24. [isAttackedByKnight] is true of a square exactly when a knight
    of the attacking colour stands on the board a knight's jump away from
    it: one rank and two files, or two ranks and one file. *)
Theorem knight_attack_pattern (b : Board) (target : Square) (attacker : Color) :
  isAttackedByKnight b target attacker = true <->
  exists a, isValid a = true /\ at_ b a = Some (mkPiece Knight attacker) /\
            knightJump a target.
Proof.
  unfold isAttackedByKnight, knightJump. rewrite existsb_exists. split.
  - intros ([dr df] & Hin & H). apply andb_true_iff in H as [Hv Hp].
    apply pieceIs_spec in Hp. apply knight_offsets in Hin.
    eexists. split; [exact Hv|]. split; [exact Hp|]. simpl. lia.
  - intros (a & _ & Hat & Hj).
    exists (rank a - rank target, file a - file target). split.
    + apply knight_offsets. lia.
    + replace (mkSquare (rank target + (rank a - rank target))
                        (file target + (file a - file target))) with a
        by (destruct a; simpl; f_equal; lia).
      rewrite (at_Some_valid _ _ _ Hat). simpl. by apply pieceIs_spec.
Qed.

(** X25. [isAttackedByPawn] is true of a square exactly when a pawn of
    the attacking colour stands on the board one file aside of it and one
    rank further along [forward], the direction in which
    [generatePawnMoves] moves that colour's pawns: the square lies
    diagonally behind the pawn. *)
Theorem pawn_attack_pattern (b : Board) (target : Square) (attacker : Color) :
  isAttackedByPawn b target attacker = true <->
  exists a, isValid a = true /\ at_ b a = Some (mkPiece Pawn attacker) /\
            rank target = rank a - forward attacker /\
            Z.abs (file a - file target) = 1.
Proof.
  unfold isAttackedByPawn, forward. rewrite existsb_exists. split.
  - intros ([dr df] & Hin & H). apply andb_true_iff in H as [Hv Hp].
    apply pieceIs_spec in Hp. eexists. split; [exact Hv|]. split; [exact Hp|].
    simpl. simpl in Hin. destruct Hin as [E | [E | []]]; injection E as <- <-; lia.
  - intros (a & _ & Hat & Hr & Hf).
    exists (match attacker with White => -1 | Black => 1 end,
            file a - file target). split.
    + simpl. assert (file a - file target = -1 \/ file a - file target = 1)
        as [-> | ->] by lia; auto.
    + replace (mkSquare (rank target + match attacker with White => -1 | Black => 1 end)
                        (file target + (file a - file target))) with a
        by (destruct a; simpl in *; f_equal; lia).
      rewrite (at_Some_valid _ _ _ Hat). simpl. by apply pieceIs_spec.
Qed.

Lemma sliderWalk_exactly fuel b attacker diag dr df r f d :
  sliderWalk fuel b attacker diag dr df r f d = true <->
  exists k : nat,
    (k < fuel)%nat /\
    (forall j : nat, (j < k)%nat ->
       isValid (mkSquare (r + Z.of_nat j * dr) (f + Z.of_nat j * df)) = true /\
       at_ b (mkSquare (r + Z.of_nat j * dr) (f + Z.of_nat j * df)) = None) /\
    isValid (mkSquare (r + Z.of_nat k * dr) (f + Z.of_nat k * df)) = true /\
    exists piece,
      at_ b (mkSquare (r + Z.of_nat k * dr) (f + Z.of_nat k * df)) = Some piece /\
      color piece = attacker /\
      ((d + Z.of_nat k = 1 /\ type piece = King) \/
       (diag = false /\ (type piece = Rook \/ type piece = Queen)) \/
       (diag = true /\ (type piece = Bishop \/ type piece = Queen))).
Proof.
  revert r f d. induction fuel as [|n IH]; intros r f d.
  - simpl. split; [discriminate|]. intros (k & Hk & _). lia.
  - assert (forall z : Z, z + Z.of_nat 0 * dr = z) as Z0r by (intros; lia).
    assert (forall z : Z, z + Z.of_nat 0 * df = z) as Z0f by (intros; lia).
    assert (forall (z : Z) (j : nat), z + dr + Z.of_nat j * dr = z + Z.of_nat (S j) * dr)
      as ZSr by (intros; lia).
    assert (forall (z : Z) (j : nat), z + df + Z.of_nat j * df = z + Z.of_nat (S j) * df)
      as ZSf by (intros; lia).
    cbn [sliderWalk]. rewrite isValidSquare_isValid.
    destruct (isValid (mkSquare r f)) eqn:Hv.
    + destruct (at_ b (mkSquare r f)) as [piece|] eqn:Hp.
      * split.
        -- intros H. exists 0%nat. rewrite Z0r, Z0f, Z.add_0_r.
           split; [lia|]. split; [intros j Hj; lia|]. split; [done|].
           exists piece. split; [done|].
           apply andb_true_iff in H as [Hc H]. apply bool_decide_eq_true in Hc.
           split; [done|].
           destruct diag; simpl in H; rewrite ?orb_false_r in H;
             repeat first [ rewrite orb_true_iff in H
                          | rewrite andb_true_iff in H
                          | rewrite bool_decide_eq_true in H
                          | rewrite Z.eqb_eq in H ];
             tauto.
        -- intros (k & Hk & Hpath & Hvk & q & Hq & Hc & Hkind).
           destruct k as [|k].
           ++ rewrite Z0r, Z0f in Hq. rewrite Hp in Hq. injection Hq as <-.
              rewrite Z.add_0_r in Hkind.
              apply andb_true_iff. split; [by apply bool_decide_eq_true|].
              destruct diag; simpl; rewrite ?orb_false_r;
                repeat first [ rewrite orb_true_iff
                             | rewrite andb_true_iff
                             | rewrite bool_decide_eq_true
                             | rewrite Z.eqb_eq ];
                intuition congruence.
           ++ destruct (Hpath 0%nat) as [_ E]; [lia|].
              rewrite Z0r, Z0f in E. congruence.
      * rewrite IH. split.
        -- intros (k & Hk & Hpath & Hvk & Hrest).
           exists (S k). rewrite <- ZSr, <- ZSf.
           split; [lia|]. split.
           ++ intros [|j] Hj.
              ** by rewrite Z0r, Z0f.
              ** rewrite <- ZSr, <- ZSf. apply Hpath. lia.
           ++ split; [done|].
              destruct Hrest as (q & Hq & Hc & Hkind). exists q.
              split; [done|]. split; [done|].
              replace (d + Z.of_nat (S k)) with (d + 1 + Z.of_nat k) by lia. done.
        -- intros (k & Hk & Hpath & Hvk & q & Hq & Hc & Hkind).
           destruct k as [|k].
           ++ rewrite Z0r, Z0f in Hq. congruence.
           ++ exists k. rewrite ZSr, ZSf.
              split; [lia|]. split.
              ** intros j Hj. rewrite ZSr, ZSf. apply Hpath. lia.
              ** split; [done|]. exists q. split; [done|]. split; [done|].
                 replace (d + 1 + Z.of_nat k) with (d + Z.of_nat (S k)) by lia. done.
    + split; [discriminate|]. intros (k & Hk & Hpath & Hvk & _).
      destruct k as [|k].
      * rewrite Z0r, Z0f in Hvk. congruence.
      * destruct (Hpath 0%nat) as [E _]; [lia|].
        rewrite Z0r, Z0f in E. congruence.
Qed.

Lemma indexed_directions i dr df :
  In (i, (dr, df)) (combine (seq 0 (length kAllDirections)) kAllDirections) ->
  ((4 <=? i)%nat = false /\ In (dr, df) kRookDirections) \/
  ((4 <=? i)%nat = true /\ In (dr, df) kBishopDirections).
Proof.
  simpl. intros H.
  repeat destruct H as [H|H]; try done; injection H as <- <- <-; simpl; tauto.
Qed.

Lemma directions_indexed (diag : bool) (dr df : Z) :
  In (dr, df) (if diag then kBishopDirections else kRookDirections) ->
  exists i, In (i, (dr, df))
               (combine (seq 0 (length kAllDirections)) kAllDirections) /\
            (4 <=? i)%nat = diag.
Proof.
  destruct diag; simpl; intros H;
    repeat destruct H as [H|H]; try done; injection H as <- <-.
  - exists 4%nat. simpl. tauto.
  - exists 5%nat. simpl. tauto.
  - exists 6%nat. simpl. tauto.
  - exists 7%nat. simpl. tauto.
  - exists 0%nat. simpl. tauto.
  - exists 1%nat. simpl. tauto.
  - exists 2%nat. simpl. tauto.
  - exists 3%nat. simpl. tauto.
Qed.

Lemma inLine_within_fuel b target dr df k a :
  In (dr, df) kAllDirections -> inLine b target dr df k a -> (k < walkFuel)%nat.
Proof.
  intros Hd (-> & Hv & Hpath).
  assert (isValid (shifted target (Z.of_nat 1) dr df) = true) as H1.
  { destruct k as [|k]; [done|]. apply (Hpath 0%nat). lia. }
  apply isValid_spec in Hv, H1. unfold shifted, walkFuel, kSize, kBoardSize in *.
  simpl rank in *. simpl file in *.
  simpl in Hd. repeat destruct Hd as [Hd|Hd]; try done; injection Hd as <- <-; lia.
Qed.

(** X26. [isAttackedBySlider] is true of a square exactly when, along
    one of the eight directions, the first piece met is of the attacking
    colour and is a rook or queen on a rank or file, a bishop or queen on
    a diagonal, or a king on the adjacent square. *)
Theorem slider_attack_pattern (b : Board) (target : Square) (attacker : Color) :
  isAttackedBySlider b target attacker = true <->
  exists dr df k a piece,
    inLine b target dr df k a /\ at_ b a = Some piece /\ color piece = attacker /\
    ((k = 0%nat /\ type piece = King /\ In (dr, df) kAllDirections) \/
     (In (dr, df) kRookDirections /\ (type piece = Rook \/ type piece = Queen)) \/
     (In (dr, df) kBishopDirections /\ (type piece = Bishop \/ type piece = Queen))).
Proof.
  assert (forall dr df (j : nat),
            mkSquare (rank target + dr + Z.of_nat j * dr)
                     (file target + df + Z.of_nat j * df) =
            shifted target (Z.of_nat (S j)) dr df) as Hsq.
  { intros. unfold shifted. f_equal; lia. }
  unfold isAttackedBySlider. rewrite existsb_exists. split.
  - intros ([i [dr df]] & Hin & H).
    apply sliderWalk_exactly in H
      as (k & Hk & Hpath & Hv & piece & Hat & Hc & Hkind).
    rewrite Hsq in Hv, Hat.
    exists dr, df, k, (shifted target (Z.of_nat (S k)) dr df), piece.
    split; [|split; [done|split; [done|]]].
    + split; [done|]. split; [done|]. intros j Hj. rewrite <- Hsq. by apply Hpath.
    + pose proof (in_combine_r _ _ _ _ Hin) as Hall.
      apply indexed_directions in Hin.
      destruct Hkind as [[Hd Hking] | Hkind].
      * left. split; [lia|]. done.
      * right. destruct Hin as [[E Hdir] | [E Hdir]]; rewrite E in Hkind;
          destruct Hkind as [[? ?] | [? ?]]; try done; tauto.
  - intros (dr & df & k & a & piece & Hline & Hat & Hc & Hkind).
    assert (exists diag : bool, In (dr, df) (if diag then kBishopDirections else kRookDirections) /\
              ((k = 0%nat /\ type piece = King) \/
               (diag = false /\ (type piece = Rook \/ type piece = Queen)) \/
               (diag = true /\ (type piece = Bishop \/ type piece = Queen))))
      as (diag & Hdir & Hkind').
    { destruct Hkind as [(-> & Hking & Hall) | [[Hdir Ht] | [Hdir Ht]]].
      - apply in_app_iff in Hall as [Hdir | Hdir].
        + exists false. tauto.
        + exists true. tauto.
      - exists false. tauto.
      - exists true. tauto. }
    assert (In (dr, df) kAllDirections) as Hall.
    { apply in_app_iff. destruct diag; tauto. }
    pose proof (inLine_within_fuel _ _ _ _ _ _ Hall Hline) as Hfuel.
    destruct (directions_indexed _ _ _ Hdir) as (i & Hin & Hi).
    exists (i, (dr, df)). split; [done|]. cbv beta iota zeta. rewrite Hi.
    apply sliderWalk_exactly. exists k.
    destruct Hline as (-> & Hv & Hpath).
    split; [done|]. split.
    + intros j Hj. rewrite Hsq. by apply Hpath.
    + rewrite Hsq. split; [done|]. exists piece. split; [done|]. split; [done|].
      destruct Hkind' as [[-> ?] | ?]; [left; split; [lia|done] | by right].
Qed.

(* ================================================================== *)
(** * The filter and the board after the move                          *)
(* ================================================================== *)

Lemma corner_ends_line dr df r f :
  In (dr, df) kAllDirections ->
  isValid (mkSquare (r - dr) (f - df)) = true ->
  isCorner (mkSquare r f) ->
  isValidSquare (r + dr) (f + df) = false.
Proof.
  intros Hd Hv [Hr Hf]. apply isValid_spec in Hv. simpl in Hv, Hr, Hf.
  unfold isValidSquare, kBoardSize.
  simpl in Hd. repeat destruct Hd as [Hd|Hd]; try done; injection Hd as <- <-; lia.
Qed.

Lemma sliderWalk_survives attacker b b' diag dr df :
  noNewAttacker attacker b b' ->
  In (dr, df) kAllDirections ->
  forall fuel r f d,
    isValid (mkSquare (r - dr) (f - df)) = true ->
    sliderWalk fuel b' attacker diag dr df r f d = true ->
    sliderWalk fuel b attacker diag dr df r f d = true.
Proof.
  intros [Hpieces Hempty] Hd. induction fuel as [|n IH]; intros r f d Hprev; [done|].
  cbn [sliderWalk]. rewrite isValidSquare_isValid.
  destruct (isValid (mkSquare r f)) eqn:Hv; [|done].
  destruct (at_ b' (mkSquare r f)) as [piece|] eqn:Hp.
  - intros H. pose proof H as H'. apply andb_true_iff in H' as [Hc _].
    apply bool_decide_eq_true in Hc. by rewrite (Hpieces _ _ Hp Hc).
  - intros H. destruct (Hempty _ Hp) as [-> | Hcorner].
    + apply IH; [|done]. by replace (r + dr - dr) with r by lia;
        replace (f + df - df) with f by lia.
    + exfalso. destruct n as [|n]; [done|]. cbn [sliderWalk] in H.
      by rewrite (corner_ends_line _ _ _ _ Hd Hprev Hcorner) in H.
Qed.

Lemma attack_survives attacker b b' target :
  noNewAttacker attacker b b' ->
  isValid target = true ->
  isSquareAttacked b' target attacker = true ->
  isSquareAttacked b target attacker = true.
Proof.
  intros Hrel Hv. pose proof Hrel as [Hpieces _].
  assert (forall sq t, pieceIs b' sq t attacker = true ->
                       pieceIs b sq t attacker = true) as Hsame.
  { intros sq t H. apply pieceIs_spec in H. apply pieceIs_spec.
    by apply Hpieces. }
  unfold isSquareAttacked. rewrite !orb_true_iff.
  intros [[H | H] | H].
  - left; left. unfold isAttackedByPawn in *.
    apply existsb_exists in H as ([dr df] & Hin & H). apply existsb_exists.
    exists (dr, df). split; [done|].
    apply andb_true_iff in H as [H1 H2]. rewrite H1. by apply Hsame.
  - left; right. unfold isAttackedByKnight in *.
    apply existsb_exists in H as ([dr df] & Hin & H). apply existsb_exists.
    exists (dr, df). split; [done|].
    apply andb_true_iff in H as [H1 H2]. rewrite H1. by apply Hsame.
  - right. unfold isAttackedBySlider in *.
    apply existsb_exists in H as ([i [dr df]] & Hin & H). apply existsb_exists.
    exists (i, (dr, df)). split; [done|].
    apply (sliderWalk_survives attacker b b'); [done| |  |done].
    + by apply in_combine_r in Hin.
    + by replace (rank target + dr - dr) with (rank target) by lia;
        replace (file target + df - df) with (file target) by lia;
        destruct target.
Qed.

Lemma same_squares_noNewAttacker attacker b b' :
  (forall sq, at_ b' sq = at_ b sq) -> noNewAttacker attacker b b'.
Proof.
  intros H. split.
  - intros sq p Hp _. by rewrite <- H.
  - intros sq Hp. left. by rewrite <- H.
Qed.

Lemma same_kings_findKing b b' side :
  (forall sq, pieceIs b' sq King side = pieceIs b sq King side) ->
  findKing b' side = findKing b side.
Proof. intros H. unfold findKing. by apply find_same_test. Qed.

(** The rook's half of a castling move: an own rook leaves a corner for
    an empty square. *)
Lemma rook_hop b side rook_from rook_to :
  at_ b rook_from = Some (mkPiece Rook side) ->
  at_ b rook_to = None ->
  isCorner rook_from ->
  noNewAttacker (opponent side) b (movePiece b (plainMove rook_from rook_to)) /\
  forall sq, pieceIs (movePiece b (plainMove rook_from rook_to)) sq King side =
             pieceIs b sq King side.
Proof.
  intros Hrook Hempty Hcorner.
  assert (forall sq, at_ (movePiece b (plainMove rook_from rook_to)) sq =
            if decide (sq = rook_from) then None
            else if decide (sq = rook_to)
                 then (if isValid rook_to then Some (mkPiece Rook side) else None)
                 else at_ b sq) as Hafter.
  { intros sq. rewrite at_movePiece. cbn [from to plainMove]. by rewrite Hrook. }
  split; [split|].
  - intros sq p. rewrite Hafter. repeat case_decide; try done.
    destruct (isValid rook_to); [|done].
    intros E Hc. injection E as <-. simpl in Hc. by destruct side.
  - intros sq. rewrite Hafter. repeat case_decide; subst; auto.
  - intros sq. unfold pieceIs. rewrite Hafter.
    repeat case_decide; subst; rewrite ?Hrook, ?Hempty; try done.
    by destruct (isValid rook_to).
Qed.

Lemma handleSpecialMoves_against_scratch b side last_move rights m :
  In m (legalMoves b side last_move rights) ->
  noNewAttacker (opponent side) (scratch b m) (handleSpecialMoves b m) /\
  forall sq, pieceIs (handleSpecialMoves b m) sq King side =
             pieceIs (scratch b m) sq King side.
Proof.
  intros Hin. apply legalMoves_moved in Hin.
  destruct Hin as ([t c] & Hat & Hcol & Hshape). simpl in Hcol. subst c.
  assert (forall f, 0 <= f < 8 -> isValid (mkSquare (homeRank side) f) = true)
    as Hvalid by (intros f Hf; by apply homeRank_valid).
  assert (forall f, f = 0 \/ f = 7 -> isCorner (mkSquare (homeRank side) f))
    as Hcorner by (intros f Hf; unfold isCorner, homeRank; destruct side; simpl; lia).
  destruct Hshape as [H | [[_ H] | [Ht [H | H]]]].
  - apply plainShape_facts in H as (_ & _ & Ee & Ec & _).
    assert (handleSpecialMoves b m = scratch b m) as ->
      by (unfold handleSpecialMoves, scratch; by rewrite Ee, Ec).
    split; [by apply same_squares_noNewAttacker|done].
  - pose proof (enPassantShape_facts _ _ _ _ _ H) as (_ & Ee & Ec & _).
    destruct H as (lm & _ & _ & Habs & Hr & Hf & Hm & _).
    assert (forall sq, at_ (handleSpecialMoves b m) sq = at_ (scratch b m) sq)
      as Hsame.
    { intros sq. unfold handleSpecialMoves, scratch. rewrite Ee, Ec. cbv zeta.
      rewrite at_clearSquare, !at_movePiece, !at_clearSquare.
      apply (f_equal to) in Hm. cbn [to] in Hm.
      set (taken := mkSquare (rank (from m)) (file (to m))).
      assert (from m <> taken).
      { intros E. apply (f_equal file) in E. subst taken. rewrite Hm in E.
        simpl in E. lia. }
      assert (to m <> taken).
      { intros E. apply (f_equal rank) in E. subst taken. rewrite Hm in E.
        simpl in E. destruct (passed_rank_between _ _ Habs) as [Hb _]. lia. }
      rewrite (decide_False (P := from m = taken)) by done.
      repeat case_decide; subst; done. }
    split; [by apply same_squares_noNewAttacker|].
    intros sq. unfold pieceIs. by rewrite Hsame.
  - destruct (kingsideShape_applies _ _ _ _ _ H) as (_ & _ & -> & _).
    pose proof (kingsideShape_facts _ _ _ _ _ H) as (_ & Ee & _ & _ & Eto & _).
    destruct H as (Efrom & _ & _ & Hrook & H5 & H6 & _).
    assert (scratch b m = movePiece b m) as -> by (unfold scratch; by rewrite Ee).
    apply rook_hop; [| |apply Hcorner; lia].
    + rewrite at_movePiece, Eto, Efrom, !decide_False by congruence. done.
    + rewrite at_movePiece, Eto, Efrom, !decide_False by congruence. done.
  - destruct (queensideShape_applies _ _ _ _ _ H) as (_ & _ & -> & _).
    pose proof (queensideShape_facts _ _ _ _ _ H) as (_ & Ee & _ & _ & Eto & _).
    destruct H as (Efrom & _ & _ & Hrook & H1 & H2 & H3 & _).
    assert (scratch b m = movePiece b m) as -> by (unfold scratch; by rewrite Ee).
    apply rook_hop; [| |apply Hcorner; lia].
    + rewrite at_movePiece, Eto, Efrom, !decide_False by congruence. done.
    + rewrite at_movePiece, Eto, Efrom, !decide_False by congruence. done.
Qed.

(** X27. After an accepted move the side that moved still has a king,
    and [isSquareAttacked] finds no attack of the opponent on the square
    that [findKing] returns for it: the board that [handleSpecialMoves]
    leaves passes the test that [isMoveLegal] made on its scratch copy,
    also after castling, where the copy lacks the rook's move.  In
    particular [Rules::isCheck] is false for the side that moved.  The
    last move of the session before is taken to name squares of the
    board. *)
Theorem accepted_move_passes_isCheck (g : ChessGame) (move : Move) (g' : ChessGame) :
  lastMoveOnBoard (last_move_ g) ->
  makeMove g move = (true, g') ->
  (exists king_sq,
     findKing (board_ g') (side_to_move_ g) = Some king_sq /\
     isSquareAttacked (board_ g') king_sq (opponent (side_to_move_ g)) = false) /\
  isCheck (board_ g') (side_to_move_ g) = false.
Proof.
  intros _ Hmk. apply makeMove_true in Hmk as (m & Hm & ->). cbn [board_].
  apply matchingMove_Some in Hm as (Hin & _ & _). unfold gameLegalMoves in Hin.
  destruct (legalMoves_pass_the_filter _ _ _ _ _ Hin) as (k & Hk & Hat & Hsafe).
  destruct (handleSpecialMoves_against_scratch _ _ _ _ _ Hin) as [Hrel Hkings].
  apply same_kings_findKing in Hkings. rewrite Hk in Hkings.
  assert (isSquareAttacked (handleSpecialMoves (board_ g) m) k
            (opponent (side_to_move_ g)) = false) as Hreal.
  { destruct (isSquareAttacked (handleSpecialMoves (board_ g) m) k _) eqn:E; [|done].
    apply (attack_survives _ _ _ _ Hrel (at_Some_valid _ _ _ Hat)) in E.
    congruence. }
  split; [by exists k|]. unfold isCheck. by rewrite Hkings.
Qed.

Lemma accepted_move_passes_isCheck_witness :
  lastMoveOnBoard (last_move_ beforeCastling) /\
  makeMove beforeCastling castleKingside = (true, afterCastling) /\
  ((exists king_sq,
      findKing (board_ afterCastling) (side_to_move_ beforeCastling) = Some king_sq /\
      isSquareAttacked (board_ afterCastling) king_sq
        (opponent (side_to_move_ beforeCastling)) = false) /\
   isCheck (board_ afterCastling) (side_to_move_ beforeCastling) = false).
Proof.
  assert (lastMoveOnBoard (last_move_ beforeCastling)) as Hlm by (by vm_compute).
  assert (makeMove beforeCastling castleKingside = (true, afterCastling)) as H
    by (vm_compute; reflexivity).
  split; [exact Hlm|]. split; [exact H|].
  exact (accepted_move_passes_isCheck _ _ _ Hlm H).
Defined.

(* ================================================================== *)
(** * The drag of the input handler                                    *)
(* ================================================================== *)

Lemma legal_move_leaves_its_square b side last_move rights m :
  In m (legalMoves b side last_move rights) ->
  from m <> to m /\ exists p, at_ b (from m) = Some p /\ color p = side.
Proof.
  intros Hin. apply legalMoves_moved in Hin.
  destruct Hin as (p & Hat & Hc & Hshape). split; [|eauto].
  destruct Hshape as [H | [[_ H] | [_ [H | H]]]].
  - by destruct (plainShape_applies _ _ _ _ _ Hat Hc H) as (_ & Hne & _).
  - destruct H as (lm & _ & _ & Habs & Hr & _ & Hm & _).
    apply (f_equal (fun x => rank (to x))) in Hm. cbn [to rank] in Hm.
    intros E. rewrite <- E, Hr in Hm.
    destruct (passed_rank_between _ _ Habs) as [Hb _]. lia.
  - by destruct (kingsideShape_applies _ _ _ _ _ H) as (_ & Hne & _).
  - by destruct (queensideShape_applies _ _ _ _ _ H) as (_ & Hne & _).
Qed.

(** X28. The tests of the drag block no legal move.  When
    [updateLegalMoves] lists [c] for the square [a], the test of
    [handleMousePress] starts the drag on [a], [c] differs from [a], the
    board holds a piece on [a], and [handleMouseRelease] over [c] hands
    on the move from [a] to [c].  The last move of the session is taken
    to name squares of the board. *)
Theorem drag_reaches_every_legal_move (g : ChessGame) (a c : Square) :
  lastMoveOnBoard (last_move_ g) ->
  In c (updateLegalMoves (Some g) a) ->
  startsDrag g a = true /\
  c <> a /\
  releasedMove g (Some a) (updateLegalMoves (Some g) a) c = Some (plainMove a c).
Proof.
  intros _ Hin. pose proof Hin as Hin'.
  apply in_updateLegalMoves in Hin' as (m & Hm & <- & <-).
  unfold gameLegalMoves in Hm.
  destruct (legal_move_leaves_its_square _ _ _ _ _ Hm) as (Hne & p & Hat & Hc).
  split; [apply hasPieceAtColor_spec; eauto|]. split; [congruence|].
  unfold releasedMove, isLegalDestination.
  rewrite bool_decide_eq_true_2 by congruence.
  assert (existsb (fun x => bool_decide (x = to m))
                  (updateLegalMoves (Some g) (from m)) = true) as ->.
  { apply existsb_exists. exists (to m). split; [done|].
    by apply bool_decide_eq_true. }
  simpl. by rewrite Hat.
Qed.

Lemma drag_reaches_every_legal_move_witness :
  lastMoveOnBoard (last_move_ newGame) /\
  In (mkSquare 4 4) (updateLegalMoves (Some newGame) (mkSquare 6 4)) /\
  (startsDrag newGame (mkSquare 6 4) = true /\
   mkSquare 4 4 <> mkSquare 6 4 /\
   releasedMove newGame (Some (mkSquare 6 4))
     (updateLegalMoves (Some newGame) (mkSquare 6 4)) (mkSquare 4 4) =
   Some (plainMove (mkSquare 6 4) (mkSquare 4 4))).
Proof.
  assert (In (mkSquare 4 4) (updateLegalMoves (Some newGame) (mkSquare 6 4))) as H
    by (vm_compute; tauto).
  split; [exact I|]. split; [exact H|].
  exact (drag_reaches_every_legal_move newGame _ _ I H).
Defined.

(* ================================================================== *)
(** * Square names                                                     *)
(* ================================================================== *)

(** X29. [fileToChar] and [rankToChar] name the files a to h and the
    ranks 8 down to 1: inside the board they are one-to-one and never
    give the question mark, outside it they always give it, so that two
    squares of the board with the same two characters are the same
    square.  [toChar] is one-to-one on the piece types and never gives
    the question mark. *)
Theorem square_names_are_unique :
  (forall f, fileToChar f = "?"%char <-> ~ 0 <= f < 8) /\
  (forall r, rankToChar r = "?"%char <-> ~ 0 <= r < 8) /\
  (forall f, 0 <= f < 8 -> Z.of_N (N_of_ascii (fileToChar f)) = 97 + f) /\
  (forall r, 0 <= r < 8 -> Z.of_N (N_of_ascii (rankToChar r)) = 56 - r) /\
  (forall a c, isValid a = true -> isValid c = true ->
               fileToChar (file a) = fileToChar (file c) ->
               rankToChar (rank a) = rankToChar (rank c) -> a = c) /\
  (forall t t', toChar t = toChar t' -> t = t') /\
  (forall t, toChar t <> "?"%char).
Proof.
  assert (forall z, 0 <= z < 8 ->
            z = 0 \/ z = 1 \/ z = 2 \/ z = 3 \/ z = 4 \/ z = 5 \/ z = 6 \/ z = 7)
    as Hcases by (intros; lia).
  assert (forall f, 0 <= f < 8 -> Z.of_N (N_of_ascii (fileToChar f)) = 97 + f) as Hf.
  { intros f H. destruct (Hcases f H) as [-> | [-> | [-> | [-> | [-> | [-> | [-> | ->]]]]]]];
      reflexivity. }
  assert (forall r, 0 <= r < 8 -> Z.of_N (N_of_ascii (rankToChar r)) = 56 - r) as Hr.
  { intros r H. destruct (Hcases r H) as [-> | [-> | [-> | [-> | [-> | [-> | [-> | ->]]]]]]];
      reflexivity. }
  assert (forall z, ~ 0 <= z < 8 -> (0 <=? z) && (z <? kBoardSize) = false) as Hout.
  { intros z H. unfold kBoardSize. lia. }
  split_and!; try done.
  - intros f. split.
    + intros E H. specialize (Hf f H). rewrite E in Hf. simpl in Hf. lia.
    + intros H. unfold fileToChar. by rewrite Hout.
  - intros r. split.
    + intros E H. specialize (Hr r H). rewrite E in Hr. simpl in Hr. lia.
    + intros H. unfold rankToChar. by rewrite Hout.
  - intros [ra fa] [rc fc] Ha Hc Ef Er.
    apply isValid_spec in Ha as [Har Haf]. apply isValid_spec in Hc as [Hcr Hcf].
    simpl in *.
    pose proof (Hf fa Haf). pose proof (Hf fc Hcf).
    pose proof (Hr ra Har). pose proof (Hr rc Hcr).
    rewrite Ef in *. rewrite Er in *. f_equal; lia.
  - intros [] []; simpl; intros E; try done; discriminate.
  - intros []; simpl; discriminate.
Qed.

(* ================================================================== *)
(** * The initial position                                             *)
(* ================================================================== *)

Lemma at_setupInitialPosition b sq :
  at_ (setupInitialPosition b) sq =
  if isValid sq then
    if rank sq =? 0 then Some (mkPiece (backRank (file sq)) Black)
    else if rank sq =? 1 then Some (mkPiece Pawn Black)
    else if rank sq =? 6 then Some (mkPiece Pawn White)
    else if rank sq =? 7 then Some (mkPiece (backRank (file sq)) White)
    else at_ b sq
  else None.
Proof.
  destruct (isValid sq) eqn:Hv; [|by apply at_invalid].
  unfold setupInitialPosition, indices. cbn [fold_left]. rewrite !at_gridSet.
  apply isValid_spec in Hv as [Hr Hf]. destruct sq as [r f]. simpl in Hr, Hf.
  cbn [rank file].
  assert (r = 0 \/ r = 1 \/ r = 2 \/ r = 3 \/ r = 4 \/ r = 5 \/ r = 6 \/ r = 7)
    as Hrs by lia.
  assert (f = 0 \/ f = 1 \/ f = 2 \/ f = 3 \/ f = 4 \/ f = 5 \/ f = 6 \/ f = 7)
    as Hfs by lia.
  clear Hr Hf.
  destruct Hrs as [-> | [-> | [-> | [-> | [-> | [-> | [-> | ->]]]]]]];
    cbn [Z.eqb Pos.eqb];
    try (repeat (rewrite decide_False by (intros E; discriminate E)); reflexivity);
    destruct Hfs as [-> | [-> | [-> | [-> | [-> | [-> | [-> | ->]]]]]]];
    repeat (rewrite decide_False by (intros E; discriminate E));
    rewrite decide_True by reflexivity; reflexivity.
Qed.

Lemma at_clear sq : at_ clear sq = None.
Proof.
  unfold at_, clear.
  destruct (cell (rank sq)) as [i|]; [|done].
  destruct (cell (file sq)) as [j|]; [|done].
  by rewrite !vlookup_replicate.
Qed.

(** X30. [setupInitialPosition] writes the four outer ranks and leaves
    the four ranks between them as they were: black's pieces in
    [kBackRankOrder] on rank 0 and black's pawns on rank 1, white's pawns
    on rank 6 and white's pieces on rank 7.  After [reset] the two camps
    mirror each other across the middle of the board, and each colour has
    exactly one king, on file 4 of the rank that [generateKingMoves]
    takes for its home rank. *)
Theorem initial_position_squares :
  (forall b sq,
     isValid sq = true ->
     at_ (setupInitialPosition b) sq =
     if rank sq =? 0 then Some (mkPiece (backRank (file sq)) Black)
     else if rank sq =? 1 then Some (mkPiece Pawn Black)
     else if rank sq =? 6 then Some (mkPiece Pawn White)
     else if rank sq =? 7 then Some (mkPiece (backRank (file sq)) White)
     else at_ b sq) /\
  (forall sq,
     isValid sq = true ->
     at_ reset (mkSquare (7 - rank sq) (file sq)) =
     option_map (fun p => mkPiece (type p) (opponent (color p))) (at_ reset sq)) /\
  (forall sq c,
     isValid sq = true ->
     at_ reset sq = Some (mkPiece King c) <-> sq = mkSquare (homeRank c) 4).
Proof.
  assert (forall z, 0 <= z < 8 ->
            z = 0 \/ z = 1 \/ z = 2 \/ z = 3 \/ z = 4 \/ z = 5 \/ z = 6 \/ z = 7)
    as Hcases by (intros; lia).
  split; [intros b sq Hv; by rewrite at_setupInitialPosition, Hv|]. split.
  - intros [r f] _. unfold reset. rewrite !at_setupInitialPosition, !at_clear.
    cbn [rank file].
    destruct (isValid (mkSquare r f)) eqn:Hv.
    + apply isValid_spec in Hv as [Hr Hf]. simpl in Hr, Hf.
      assert (isValid (mkSquare (7 - r) f) = true) as ->
        by (apply isValid_spec; simpl; lia).
      destruct (Hcases r Hr) as [-> | [-> | [-> | [-> | [-> | [-> | [-> | ->]]]]]]];
        reflexivity.
    + assert (isValid (mkSquare (7 - r) f) = false) as ->; [|done].
      destruct (isValid (mkSquare (7 - r) f)) eqn:Hv'; [|done].
      apply isValid_spec in Hv'. simpl in Hv'.
      assert (isValid (mkSquare r f) = true)
        by (apply isValid_spec; simpl; lia).
      congruence.
  - intros [r f] c _. unfold reset. rewrite at_setupInitialPosition, at_clear.
    cbn [rank file]. split.
    + destruct (isValid (mkSquare r f)) eqn:Hv; [|discriminate].
      apply isValid_spec in Hv as [Hr Hf]. simpl in Hr, Hf.
      destruct (Hcases r Hr) as [-> | [-> | [-> | [-> | [-> | [-> | [-> | ->]]]]]]];
        cbn [Z.eqb Pos.eqb]; try discriminate;
        destruct (Hcases f Hf) as [-> | [-> | [-> | [-> | [-> | [-> | [-> | ->]]]]]]];
        cbn; intros E; try discriminate E; by injection E as <-.
    + intros E. injection E as -> ->. by destruct c.
Qed.
